(** * pyastro16: shared counters and a shared output array

    A shallow embedding of [pyastro16.py], the functions of the
    parallelisation tutorial: [scaled_sin], [counter_init], [counter],
    [counter_nolock], [random_init] and [random].

    The functions touch three kinds of state:
    - the module globals of the worker process ([gbl_counter],
      [gbl_output], [gbl_noutput]) and the process-local state of
      [np.random];
    - shared counters, each an integer [value] in a cell of a fixed
      width with its re-entrant lock, as [multiprocessing.Value] hands
      them out;
    - shared flat memory blocks ([RawArray]), seen through numpy views.

    Every function is written once, as a tree of primitive operations
    ([prog]).  The tree is given two readings that share the meaning of
    the primitives ([do_op]): [run] executes a call to completion inside
    one process, and [step_at]/[exec] interleave the primitive operations
    of several worker processes under an arbitrary schedule.

    The script leaves to its caller the choice of the element types of
    the counter and of the block.  The counter is an integer of any of
    the widths of [ctypes], signed or unsigned ([int_type]); what is read
    from it and added to is a Python integer, what is assigned to it is
    cut to the width of the cell ([wrap]).  The elements of the block are
    integers that hold the samples as they are drawn.  The caller is also
    the one that creates the pool of processes: [spawn], [pool_start] and
    the worker loop in [step_proc] stand for it. *)

From Stdlib Require Import ZArith Lia.
From stdpp Require Import base option list gmap strings.

Local Open Scope Z_scope.

(** ** Exceptions *)

Inductive exn : Type :=
| NameError (name : string)   (* an unbound global is read *)
| IndexError                  (* numpy: index out of bounds, too many indices *)
| ValueError                  (* numpy: bad shape, bad sampler argument *)
| AssertionError.             (* RLock.release by a process that is not the owner *)

(** ** The numeric library

    [np.sin], the product of floats and [np.random.zipf] are numpy's; the
    script only calls them.  They are the fields of a class, so that
    every result below holds for whatever the library computes. *)

Class NumericLibrary : Type := {
  float : Type;
  np_sin : float -> float;
  np_mul : float -> float -> float;
  (* the state of numpy's global generator *)
  rng : Type;
  (* [np.random.zipf a size] from a generator state: the samples or the
     library's exception, and the next generator state *)
  np_random_zipf : float -> Z -> rng -> (exn + list Z) * rng
}.

(** What numpy documents of a successful [zipf] draw: [size] samples,
    each a positive integer. *)
Class ZipfContract (L : NumericLibrary) : Prop := {
  zipf_size : forall a n g row g',
    np_random_zipf a n g = (inr row, g') -> Z.of_nat (length row) = n;
  zipf_support : forall a n g row g',
    np_random_zipf a n g = (inr row, g') -> Forall (fun x => 1 <= x) row
}.

(** ** Data model *)

(** The element type of a shared counter: one of the integer types of
    [ctypes], [bits] wide, signed or not (the type codes ['b'], ['h'],
    ['i'], ['l'], ['q'] for the signed types of 8, 16, 32 and 64 bits,
    ['B'], ['H'], ['I'], ['L'], ['Q'] for the unsigned ones).  The counter
    of the script counts calls and is taken to be of an integer type; a
    counter of a floating type (['f'], ['d']) is outside this model. *)
Record int_type : Type := { signed : bool; bits : positive }.

(** Half the number of values of the type, [2 ^ (bits - 1)]. *)
Definition half_range (t : int_type) : Z := 2 ^ (Z.pos (bits t) - 1).

(** The least and the greatest value a cell of the type holds. *)
Definition c_min (t : int_type) : Z := if signed t then - half_range t else 0.
Definition c_max (t : int_type) : Z :=
  if signed t then half_range t - 1 else 2 * half_range t - 1.

Definition in_range (t : int_type) (z : Z) : Prop := c_min t <= z <= c_max t.

(** What a cell of the type holds once the Python integer [z] has been
    assigned to it.  [ctypes] does no overflow checking: the cell keeps
    the low [bits] bits of [z], read back as a signed or as an unsigned
    number.  So [2 ** 31] assigned to a signed cell of 32 bits reads back
    as [- 2 ** 31], and [256] assigned to an unsigned cell of 8 bits as
    [0]. *)
Definition wrap (t : int_type) (z : Z) : Z :=
  if signed t then (z + half_range t) mod (2 * half_range t) - half_range t
  else z mod (2 * half_range t).

(** What [value += 1] leaves in a cell of type [t] that held [v], and
    what [n] such increments leave, one after the other. *)
Definition incr (t : int_type) (v : Z) : Z := wrap t (v + 1).
Definition incr_n (t : int_type) (n : nat) (v : Z) : Z := Nat.iter n (incr t) v.

(** A shared counter: the type of its cell, the [value] the cell holds
    and the state of its re-entrant lock, [Some (p, d)] when process [p]
    holds it with [d] further nested acquisitions. *)
Record counter_cell : Type := {
  typ : int_type;
  value : Z;
  lock : option (nat * nat)
}.

(** The shared memory: counters and flat blocks, by address. *)
Record heap : Type := {
  counters : gmap nat counter_cell;
  blocks : gmap nat (list Z)
}.

(** A numpy view over a block: one-dimensional as [as_array] returns it,
    two-dimensional after [reshape]. *)
Inductive shape : Type := Flat (n : Z) | Grid (r c : Z).
Record view : Type := { base : nat; shp : shape }.

(** The module globals of one worker process; [None] is an unbound name. *)
Record globals : Type := {
  gbl_counter : option nat;
  gbl_output : option view;
  gbl_noutput : option Z
}.

Definition unbound : globals :=
  {| gbl_counter := None; gbl_output := None; gbl_noutput := None |}.

Definition set_gbl_counter (c : nat) (g : globals) : globals :=
  {| gbl_counter := Some c; gbl_output := gbl_output g;
     gbl_noutput := gbl_noutput g |}.
Definition set_gbl_output (v : view) (g : globals) : globals :=
  {| gbl_counter := gbl_counter g; gbl_output := Some v;
     gbl_noutput := gbl_noutput g |}.
Definition set_gbl_noutput (n : Z) (g : globals) : globals :=
  {| gbl_counter := gbl_counter g; gbl_output := gbl_output g;
     gbl_noutput := Some n |}.

Definition put_counter (c : nat) (cell : counter_cell) (h : heap) : heap :=
  {| counters := <[c := cell]> (counters h); blocks := blocks h |}.
Definition put_block (b : nat) (l : list Z) (h : heap) : heap :=
  {| counters := counters h; blocks := <[b := l]> (blocks h) |}.

(** Row [i] of a block laid out in rows of [c] elements (C order). *)
Definition get_row (c : Z) (i : Z) (l : list Z) : list Z :=
  take (Z.to_nat c) (drop (Z.to_nat (i * c)) l).

(** The lock as process [me] finds it: free, or already its own. *)
Definition available (me : nat) (l : option (nat * nat)) : bool :=
  match l with
  | None => true
  | Some (p, _) => bool_decide (p = me)
  end.

(** The lock once process [me] has acquired it from state [l]. *)
Definition acquired (me : nat) (l : option (nat * nat)) : option (nat * nat) :=
  match l with
  | None => Some (me, 0%nat)
  | Some (_, d) => Some (me, S d)
  end.

Section Program.
Context {L : NumericLibrary}.

(** An n-dimensional array of floats, as numpy keeps it: a shape and the
    elements in a flat sequence.  A scalar has the empty shape. *)
Record ndarray : Type := { nd_shape : list Z; nd_data : list float }.

(** [np.sin] is a ufunc: it maps over the elements and keeps the shape. *)
Definition nd_sin (a : ndarray) : ndarray :=
  {| nd_shape := nd_shape a; nd_data := map np_sin (nd_data a) |}.

(** [scale * a] for a scalar [scale]: the scalar is broadcast. *)
Definition nd_rmul (scale : float) (a : ndarray) : ndarray :=
  {| nd_shape := nd_shape a; nd_data := map (np_mul scale) (nd_data a) |}.

Definition scaled_sin (theta : ndarray) (scale : float) : ndarray :=
  nd_rmul scale (nd_sin theta).

(** The state private to a worker process. *)
Record worker : Type := { w_globals : globals; w_rng : rng }.

Definition fresh_worker (g : rng) : worker :=
  {| w_globals := unbound; w_rng := g |}.

(** ** Primitive operations

    Each is one atomic step of a process; the index is the type of what
    the step returns. *)
Inductive op : Type -> Type :=
| LoadCounter : op (option nat)
| LoadOutput : op (option view)
| LoadNoutput : op (option Z)
| StoreCounter (c : nat) : op unit
| StoreOutput (v : view) : op unit
| StoreNoutput (n : Z) : op unit
| Acquire (c : nat) : op unit
| Release (c : nat) : op (exn + unit)
| GetValue (c : nat) : op Z
| SetValue (c : nat) (v : Z) : op unit
| Length (b : nat) : op Z
| Zipf (a : float) (n : Z) : op (exn + list Z)
| SetItems (b : nat) (off : nat) (xs : list Z) : op unit.

(** The meaning of one operation executed by process [me]; [None] when
    the process cannot take the step now, because another process holds
    the lock it needs.  That is so for [Acquire], and for [GetValue] and
    [SetValue] too: the [value] attribute of a counter that has a lock is
    a property whose getter and setter take the lock of the counter for
    the time of the access and give it back; the access is one step here,
    possible when the lock is free or the process's own, and leaves the
    lock as it found it.  [GetValue] returns the integer the cell holds;
    [SetValue] is given a Python integer of any size, of which the cell
    keeps what its type can hold ([wrap]).  (An address that designates nothing cannot
    arise from a Python reference; it is treated as a step that cannot be
    taken.) *)
Definition do_op {X} (me : nat) (o : op X) (w : worker) (h : heap)
  : option (X * worker * heap) :=
  match o in op X return option (X * worker * heap) with
  | LoadCounter => Some (gbl_counter (w_globals w), w, h)
  | LoadOutput => Some (gbl_output (w_globals w), w, h)
  | LoadNoutput => Some (gbl_noutput (w_globals w), w, h)
  | StoreCounter c =>
      Some (tt, {| w_globals := set_gbl_counter c (w_globals w); w_rng := w_rng w |}, h)
  | StoreOutput v =>
      Some (tt, {| w_globals := set_gbl_output v (w_globals w); w_rng := w_rng w |}, h)
  | StoreNoutput n =>
      Some (tt, {| w_globals := set_gbl_noutput n (w_globals w); w_rng := w_rng w |}, h)
  | Acquire c =>
      match counters h !! c with
      | None => None
      | Some cell =>
          match lock cell with
          | None =>
              Some (tt, w,
                    put_counter c
                      {| typ := typ cell; value := value cell;
                         lock := Some (me, 0%nat) |} h)
          | Some (p, d) =>
              if decide (p = me) then
                Some (tt, w,
                      put_counter c
                        {| typ := typ cell; value := value cell;
                           lock := Some (me, S d) |} h)
              else None
          end
      end
  | Release c =>
      match counters h !! c with
      | None => None
      | Some cell =>
          match lock cell with
          | Some (p, d) =>
              if decide (p = me) then
                Some (inr tt, w,
                      put_counter c
                        {| typ := typ cell; value := value cell;
                           lock := match d with O => None | S d' => Some (me, d') end |} h)
              else Some (inl AssertionError, w, h)
          | None => Some (inl AssertionError, w, h)
          end
      end
  | GetValue c =>
      match counters h !! c with
      | None => None
      | Some cell =>
          if available me (lock cell) then Some (value cell, w, h) else None
      end
  | SetValue c v =>
      match counters h !! c with
      | None => None
      | Some cell =>
          if available me (lock cell)
          then Some (tt, w,
                     put_counter c
                       {| typ := typ cell; value := wrap (typ cell) v;
                          lock := lock cell |} h)
          else None
      end
  | Length b =>
      match blocks h !! b with
      | None => None
      | Some l => Some (Z.of_nat (length l), w, h)
      end
  | Zipf a n =>
      let '(r, g) := np_random_zipf a n (w_rng w) in
      Some (r, {| w_globals := w_globals w; w_rng := g |}, h)
  | SetItems b off xs =>
      match blocks h !! b with
      | None => None
      | Some l => Some (tt, w, put_block b (list_inserts off xs l) h)
      end
  end.

(** ** Programs *)

Inductive prog (A : Type) : Type :=
| Ret (a : A)
| Raise (e : exn)
| Vis {X : Type} (o : op X) (k : X -> prog A).
#[global] Arguments Ret {A} a.
#[global] Arguments Raise {A} e.
#[global] Arguments Vis {A X} o k.

Fixpoint bind {A B} (p : prog A) (f : A -> prog B) : prog B :=
  match p with
  | Ret a => f a
  | Raise e => Raise e
  | Vis o k => Vis o (fun x => bind (k x) f)
  end.

Notation "x <- p ;; q" := (bind p (fun x => q))
  (at level 100, p at next level, right associativity).
Notation "p ;;; q" := (bind p (fun _ => q))
  (at level 100, right associativity).

Definition perform {X} (o : op X) : prog X := Vis o Ret.

(** Reading a global: [NameError] when the name is unbound. *)
Definition load_global {T} (name : string) (o : op (option T)) : prog T :=
  x <- perform o ;;
  match x with
  | Some v => Ret v
  | None => Raise (NameError name)
  end.

(** An operation of the library that may raise. *)
Definition checked {T} (o : op (exn + T)) : prog T :=
  r <- perform o ;;
  match r with
  | inl e => Raise e
  | inr v => Ret v
  end.

(** [try: p finally: fin]. *)
Fixpoint try_finally {A} (p : prog A) (fin : prog unit) : prog A :=
  match p with
  | Ret a => fin ;;; Ret a
  | Raise e => fin ;;; Raise e
  | Vis o k => Vis o (fun x => try_finally (k x) fin)
  end.

(** [counter.get_lock()]: the lock of a counter lives with the counter. *)
Definition get_lock (c : nat) : nat := c.

(** [with lk: body].  [__enter__] acquires; [__exit__] releases on the
    way out, normal or exceptional, and returns nothing, so that an
    exception of the body goes on to the caller. *)
Definition with_ {A} (lk : nat) (body : prog A) : prog A :=
  perform (Acquire lk) ;;;
  try_finally body (checked (Release lk)).

(** ** The functions of the script *)

Definition counter_init (counter : nat) : prog unit :=
  perform (StoreCounter counter).

Definition counter {T} (arg : T) : prog unit :=
  c <- load_global "gbl_counter" LoadCounter ;;
  with_ (get_lock c)
    (c' <- load_global "gbl_counter" LoadCounter ;;
     v <- perform (GetValue c') ;;
     perform (SetValue c' (v + 1))).

Definition counter_nolock {T} (arg : T) : prog unit :=
  c <- load_global "gbl_counter" LoadCounter ;;
  v <- perform (GetValue c) ;;
  perform (SetValue c (v + 1)).

(** [a.reshape(shape)] for a two-element shape, on an array of [size]
    elements: a negative entry stands for the dimension to infer, and
    only one may be left open. *)
Definition fix_unknown_dimension (size : Z) (s : Z * Z) : exn + (Z * Z) :=
  let '(r, c) := s in
  if r <? 0 then
    if c <? 0 then inl ValueError
    else if (c =? 0) || negb (size mod c =? 0) then inl ValueError
    else inr (size / c, c)
  else if c <? 0 then
    if (r =? 0) || negb (size mod r =? 0) then inl ValueError
    else inr (r, size / r)
  else if r * c =? size then inr (r, c)
  else inl ValueError.

Definition size_of (s : shape) : Z :=
  match s with
  | Flat n => n
  | Grid r c => r * c
  end.

Definition reshape (v : view) (s : Z * Z) : prog view :=
  match fix_unknown_dimension (size_of (shp v)) s with
  | inl e => Raise e
  | inr (r, c) => Ret {| base := base v; shp := Grid r c |}
  end.

Definition random_init (output : nat * (Z * Z)) (counter : nat) : prog unit :=
  perform (StoreCounter counter) ;;;
  n <- perform (Length (fst output)) ;;
  perform (StoreOutput {| base := fst output; shp := Flat n |}) ;;;
  flat <- load_global "gbl_output" LoadOutput ;;
  shaped <- reshape flat (snd output) ;;
  perform (StoreOutput shaped) ;;;
  perform (StoreNoutput (snd (snd output))).

(** The right-hand side of a row assignment is broadcast to the row: a
    sequence of the row's length is taken as it is, a sequence of one
    element is repeated. *)
Definition broadcast_to (c : Z) (xs : list Z) : option (list Z) :=
  if Z.of_nat (length xs) =? c then Some xs
  else match xs with
       | [x] => Some (replicate (Z.to_nat c) x)
       | _ => None
       end.

(** A negative index counts from the end of the axis. *)
Definition wrap_index (r idx : Z) : Z := if idx <? 0 then idx + r else idx.

(** [out[idx, :] = xs]: on a two-dimensional view, the row that [idx]
    designates is checked against the number of rows, then written. *)
Definition setitem_row (out : view) (idx : Z) (xs : list Z) : prog unit :=
  match shp out with
  | Flat _ => Raise IndexError
  | Grid r c =>
      let i := wrap_index r idx in
      if (i <? 0) || (r <=? i) then Raise IndexError
      else match broadcast_to c xs with
           | None => Raise ValueError
           | Some row => perform (SetItems (base out) (Z.to_nat (i * c)) row)
           end
  end.

Definition random (idx : Z) (par : float) : prog unit :=
  n <- load_global "gbl_noutput" LoadNoutput ;;
  row <- checked (Zipf par n) ;;
  out <- load_global "gbl_output" LoadOutput ;;
  setitem_row out idx row ;;;
  c <- load_global "gbl_counter" LoadCounter ;;
  with_ (get_lock c)
    (c' <- load_global "gbl_counter" LoadCounter ;;
     v <- perform (GetValue c') ;;
     perform (SetValue c' (v + 1))).

(** ** One process: a call run to completion *)

Inductive outcome (A : Type) : Type :=
| Done (a : A)        (* the call returns [a] *)
| Raised (e : exn)    (* the call raises [e] to its caller *)
| Stuck.              (* the call does not return: it waits for a lock *)
#[global] Arguments Done {A} a.
#[global] Arguments Raised {A} e.
#[global] Arguments Stuck {A}.

Fixpoint run {A} (me : nat) (p : prog A) (w : worker) (h : heap)
  : outcome A * worker * heap :=
  match p with
  | Ret a => (Done a, w, h)
  | Raise e => (Raised e, w, h)
  | Vis o k =>
      match do_op me o w h with
      | Some (x, w', h') => run me (k x) w' h'
      | None => (Stuck, w, h)
      end
  end.

(** A sequence of calls in one process, as long as each returns. *)
Fixpoint run_all (me : nat) (ps : list (prog unit)) (w : worker) (h : heap)
  : outcome unit * worker * heap :=
  match ps with
  | [] => (Done tt, w, h)
  | p :: ps' =>
      match run me p w h with
      | (Done _, w', h') => run_all me ps' w' h'
      | r => r
      end
  end.

(** ** Several processes: interleaved steps *)

(** A worker process of a pool: its private state, the call it is
    executing and the calls it has still to do. *)
Record proc : Type := {
  p_worker : worker;
  p_cur : prog unit;
  p_todo : list (prog unit)
}.

Record config : Type := { procs : list proc; shared : heap }.

(** A process starts in its initializer. *)
Definition spawn (initializer : prog unit) (g : rng) (tasks : list (prog unit)) : proc :=
  {| p_worker := fresh_worker g; p_cur := initializer; p_todo := tasks |}.

(** One step of process [me]: the next primitive operation of the
    current call or, when that call is over (returned or raised), the
    start of the next one. *)
Definition step_proc (me : nat) (p : proc) (h : heap) : option (proc * heap) :=
  match p_cur p with
  | Vis o k =>
      match do_op me o (p_worker p) h with
      | Some (x, w, h') =>
          Some ({| p_worker := w; p_cur := k x; p_todo := p_todo p |}, h')
      | None => None
      end
  | _ =>
      match p_todo p with
      | [] => None
      | t :: ts => Some ({| p_worker := p_worker p; p_cur := t; p_todo := ts |}, h)
      end
  end.

Definition step_at (i : nat) (cfg : config) : option config :=
  match procs cfg !! i with
  | None => None
  | Some p =>
      match step_proc i p (shared cfg) with
      | None => None
      | Some (p', h') => Some {| procs := <[i := p']> (procs cfg); shared := h' |}
      end
  end.

(** A schedule names the process that takes each step. *)
Fixpoint exec (sched : list nat) (cfg : config) : option config :=
  match sched with
  | [] => Some cfg
  | i :: sched' =>
      match step_at i cfg with
      | None => None
      | Some cfg' => exec sched' cfg'
      end
  end.

Definition proc_finished (p : proc) : bool :=
  match p_cur p, p_todo p with
  | Vis _ _, _ => false
  | _, [] => true
  | _, _ :: _ => false
  end.

Definition finished (cfg : config) : bool := forallb proc_finished (procs cfg).

End Program.

(** * Program points, invariants and pools

    What the proofs about interleaved executions speak of. *)

(** The places a worker process can be at while it runs its
    initializer and its calls of [counter] (the [P] points) or of
    [counter_nolock] (the [Q] points). *)
Inductive point : Type :=
| PInit                (* about to run [counter_init] *)
| PIdle                (* between two calls *)
| PLoad                (* [counter]: about to read [gbl_counter] *)
| PAcquire             (* about to acquire the lock *)
| PLoad2               (* lock held, about to read [gbl_counter] *)
| PGet                 (* lock held, about to read [value] *)
| PSet (v : Z)         (* lock held, [v] read, about to assign [v + 1] *)
| PRelease             (* written, about to release the lock *)
| QLoad                (* [counter_nolock]: about to read [gbl_counter] *)
| QGet                 (* about to read [value] *)
| QSet (v : Z).        (* [v] read, about to assign [v + 1] *)

(** The points inside the [with] statement: the process holds the lock. *)
Definition holds (pt : point) : bool :=
  match pt with
  | PLoad2 | PGet | PSet _ | PRelease => true
  | _ => false
  end.

(** Increments a process has begun or has still to begin and whose
    write has not happened. *)
Definition pending (pt : point) : nat :=
  match pt with
  | PLoad | PAcquire | PLoad2 | PGet | PSet _ | QLoad | QGet | QSet _ => 1
  | _ => 0
  end.

(** Steps from a point to the end of the current call. *)
Definition rank (pt : point) : nat :=
  match pt with
  | PIdle => 0
  | PInit | PRelease | QSet _ => 1
  | PSet _ | QGet => 2
  | PGet | QLoad => 3
  | PLoad2 => 4
  | PAcquire => 5
  | PLoad => 6
  end.

(** The points of [counter_nolock] about to read or to write the value. *)
Definition unlocked_access (pt : point) : bool :=
  match pt with
  | QGet | QSet _ => true
  | _ => false
  end.

(** The points of a process that runs [counter] ([locked]) or
    [counter_nolock]. *)
Definition of_kind (locked : bool) (pt : point) : bool :=
  match pt with
  | PInit | PIdle => true
  | QLoad | QGet | QSet _ => negb locked
  | _ => locked
  end.

(** Increments of a process still to be written: the one under way and
    the calls not yet started. *)
Definition work (st : point * nat) : nat := (pending (fst st) + snd st)%nat.

(** Steps a process has left: 7 for a call of [counter] and 4 for a call
    of [counter_nolock], the start of the call included. *)
Definition cost (locked : bool) : nat := if locked then 7%nat else 4%nat.
Definition steps_left (locked : bool) (st : point * nat) : nat :=
  (rank (fst st) + cost locked * snd st)%nat.

Definition total_work (sts : list (point * nat)) : nat := sum_list (work <$> sts).
Definition total_steps (locked : bool) (sts : list (point * nat)) : nat :=
  sum_list (steps_left locked <$> sts).

(** One step of process [i] seen on its point, the number of calls it
    has still to start, and the cell of the counter. *)
Inductive local_trans (locked : bool) (i : nat) :
  point * nat -> counter_cell -> point * nat -> counter_cell -> Prop :=
| t_init n cell : local_trans locked i (PInit, n) cell (PIdle, n) cell
| t_next n cell :
    local_trans locked i (PIdle, S n) cell (if locked then PLoad else QLoad, n) cell
| t_load n cell : local_trans locked i (PLoad, n) cell (PAcquire, n) cell
| t_acquire n cell :
    lock cell = None ->
    local_trans locked i (PAcquire, n) cell
      (PLoad2, n) {| typ := typ cell; value := value cell; lock := Some (i, 0%nat) |}
| t_load2 n cell : local_trans locked i (PLoad2, n) cell (PGet, n) cell
| t_get n cell : local_trans locked i (PGet, n) cell (PSet (value cell), n) cell
| t_set n v cell :
    local_trans locked i (PSet v, n) cell
      (PRelease, n)
      {| typ := typ cell; value := wrap (typ cell) (v + 1); lock := lock cell |}
| t_release n cell :
    local_trans locked i (PRelease, n) cell
      (PIdle, n) {| typ := typ cell; value := value cell; lock := None |}
| t_qload n cell : local_trans locked i (QLoad, n) cell (QGet, n) cell
| t_qget n cell : local_trans locked i (QGet, n) cell (QSet (value cell), n) cell
| t_qset n v cell :
    local_trans locked i (QSet v, n) cell
      (PIdle, n)
      {| typ := typ cell; value := wrap (typ cell) (v + 1); lock := lock cell |}.

(** What holds of a pool of [counter] calls at every moment, on a
    counter of type [t] that held [v0] at the start, [N] calls in all. *)
Record locked_inv (t : int_type) (v0 : Z) (N : nat)
    (sts : list (point * nat)) (cell : counter_cell) : Prop := {
  (* who is past the acquisition holds the lock, once *)
  li_held : forall j st,
      sts !! j = Some st -> holds (fst st) = true -> lock cell = Some (j, 0%nat);
  (* a lock that is held is held by a process inside the statement *)
  li_owner : forall j d,
      lock cell = Some (j, d) -> exists st, sts !! j = Some st /\ holds (fst st) = true;
  (* the value read under the lock is still the value of the counter *)
  li_read : forall j n v, sts !! j = Some (PSet v, n) -> v = value cell;
  (* every increment is in the counter or still to come *)
  li_sum : exists k,
      (k + total_work sts = N)%nat /\ value cell = incr_n t k v0;
  li_typ : typ cell = t
}.

(** What holds of a pool of [counter_nolock] calls at every moment, on
    a counter of type [t] that held [v0] at the start, [N] calls in
    all. *)
Record nolock_inv (lk : option (nat * nat)) (t : int_type) (v0 : Z) (N : nat)
    (sts : list (point * nat)) (cell : counter_cell) : Prop := {
  (* the counter holds [v0] incremented some number [k] of times: no
     more than there were writes, and at least once when there was a
     write *)
  ni_value : exists k,
      (k + total_work sts <= N)%nat
      /\ ((total_work sts < N)%nat -> (1 <= k)%nat)
      /\ value cell = incr_n t k v0;
  (* so does a value that was read and is about to be written back *)
  ni_read : forall j n v,
      sts !! j = Some (QSet v, n) ->
      exists k, (k + total_work sts <= N)%nat /\ v = incr_n t k v0;
  (* the lock is as it was at the start *)
  ni_lock : lock cell = lk;
  ni_typ : typ cell = t
}.

(** The globals as [random_init] leaves them: the counter, the view of
    [R] rows and [C] columns over block [b], the cached size [n]. *)
Definition installed (c b : nat) (R C n : Z) : globals :=
  {| gbl_counter := Some c;
     gbl_output := Some {| base := b; shp := Grid R C |};
     gbl_noutput := Some n |}.

(** Row [i] of a block in rows of [C] elements holds [C] values, each at
    least 1. *)
Definition filled (C i : Z) (l : list Z) : Prop :=
  Z.of_nat (length (get_row C i l)) = C /\ Forall (fun x => 1 <= x) (get_row C i l).

Section Views.
Context {L : NumericLibrary}.

(** A worker after a draw. *)
Definition with_rng (w : worker) (g : rng) : worker :=
  {| w_globals := w_globals w; w_rng := g |}.

(** The body of the [with] statement of [counter]. *)
Definition increment_body : prog unit :=
  bind (load_global "gbl_counter" LoadCounter)
    (fun c' => bind (perform (GetValue c'))
       (fun v => perform (SetValue c' (v + 1)))).

(** A call of one of the two increments: [counter] when the flag is
    set. *)
Definition increment {T} (call : bool * T) : prog unit :=
  if fst call then counter (snd call) else counter_nolock (snd call).

(** What is left of the current call at each point. *)
Definition prog_at (c : nat) (pt : point) : prog unit :=
  match pt with
  | PInit => counter_init c
  | PIdle => Ret tt
  | PLoad => counter tt
  | PAcquire => with_ (get_lock c) increment_body
  | PLoad2 => try_finally increment_body (checked (Release c))
  | PGet =>
      try_finally
        (bind (perform (GetValue c)) (fun v => perform (SetValue c (v + 1))))
        (checked (Release c))
  | PSet v => try_finally (perform (SetValue c (v + 1))) (checked (Release c))
  | PRelease => try_finally (Ret tt) (checked (Release c))
  | QLoad => counter_nolock tt
  | QGet => bind (perform (GetValue c)) (fun v => perform (SetValue c (v + 1)))
  | QSet v => perform (SetValue c (v + 1))
  end.

(** The call a process of a pool has to do. *)
Definition task (locked : bool) : prog unit :=
  if locked then counter tt else counter_nolock tt.

(** Process [p] is at point [fst st] with [snd st] calls still to
    start. *)
Definition proc_ok (c : nat) (locked : bool) (p : proc) (st : point * nat) : Prop :=
  p_cur p = prog_at c (fst st)
  /\ p_todo p = replicate (snd st) (task locked)
  /\ of_kind locked (fst st) = true
  /\ (fst st <> PInit -> gbl_counter (w_globals (p_worker p)) = Some c).

(** The processes of [cfg] are at the points [sts] and the counter is
    [cell]. *)
Definition sim_at (c : nat) (locked : bool) (sts : list (point * nat))
    (cell : counter_cell) (cfg : config) : Prop :=
  counters (shared cfg) !! c = Some cell
  /\ Forall2 (proc_ok c locked) (procs cfg) sts.

(** [cfg] is matched by points and a cell that satisfy [AI], with [m]
    steps left in all. *)
Definition sim (c : nat) (locked : bool)
    (AI : list (point * nat) -> counter_cell -> Prop) (m : nat) (cfg : config) : Prop :=
  exists sts cell,
    sim_at c locked sts cell cfg /\ AI sts cell /\ total_steps locked sts = m.

(** A pool as it starts: process [i] has the generator state and the
    arguments of its calls from the [i]-th entry of [ws]; every process
    runs [initializer] first, then [call] on each of its arguments. *)
Definition pool_start {T} (initializer : prog unit) (call : T -> prog unit)
    (ws : list (rng * list T)) (h : heap) : config :=
  {| procs := (fun w => spawn initializer (fst w) (map call (snd w))) <$> ws;
     shared := h |}.

(** The number of calls handed to the pool. *)
Definition calls {T} (ws : list (rng * list T)) : nat :=
  sum_list ((fun w => length (snd w)) <$> ws).

(** Where the processes of a pool start. *)
Definition start_points {T} (ws : list (rng * list T)) : list (point * nat) :=
  (fun w => (PInit, length (snd w))) <$> ws.

(** A process is about to read or to write the value of a counter. *)
Definition in_section (p : proc) : bool :=
  match p_cur p with
  | Vis o _ =>
      match o with
      | GetValue _ | SetValue _ _ => true
      | _ => false
      end
  | _ => false
  end.

(** The function a pool maps over its arguments. *)
Definition call_of (locked : bool) {T} : T -> prog unit :=
  if locked then counter else counter_nolock.

End Views.

(** * The pool of sampling calls

    A pool whose processes start with [random_init] and then run calls of
    [random]. *)

(** The operations that leave the private state of the process alone. *)
Definition keeps_worker {L : NumericLibrary} {X} (o : op X) : bool :=
  match o with
  | StoreCounter _ | StoreOutput _ | StoreNoutput _ | Zipf _ _ => false
  | _ => true
  end.

(** The rows of all the calls handed to a pool, process after process. *)
Definition pool_rows {G P} (ws : list (G * list (Z * P))) : list Z :=
  concat ((fun w : G * list (Z * P) => fst <$> snd w) <$> ws).

Section SamplingViews.
Context {L : NumericLibrary}.
Variables (c b : nat) (R C : Z).

(** The places a process of the pool can be at: in [random_init], in
    the first half of [random] (up to the writing of the row), or in its
    second half, which is [counter]. *)
Inductive rpoint : Type :=
| RI0                                 (* about to bind [gbl_counter] *)
| RI1                                 (* about to read the length of the block *)
| RI2                                 (* about to bind [gbl_output] to the flat view *)
| RI3                                 (* about to read [gbl_output] for [reshape] *)
| RI4                                 (* about to bind [gbl_output] to the shaped view *)
| RI5                                 (* about to bind [gbl_noutput] *)
| RDraw (idx : Z) (par : float)       (* [random]: about to read [gbl_noutput] *)
| RZipf (idx : Z) (par : float)       (* about to draw *)
| RView (idx : Z) (row : list Z)      (* [row] drawn, about to read [gbl_output] *)
| RWrite (idx : Z) (row : list Z)     (* about to write [row] into row [idx] *)
| RP (pt : point).                    (* between calls, or in the locked increment *)

(** A process of the pool: where it is, the rows it has written, the
    calls it has still to start. *)
Record rstate : Type := {
  r_pt : rpoint;
  r_done : list Z;
  r_todo : list (Z * float)
}.

(** [random] from the reading of [gbl_output] on, [row] drawn. *)
Definition random_rest (idx : Z) (row : list Z) : prog unit :=
  bind (load_global "gbl_output" LoadOutput)
    (fun out => bind (setitem_row out idx row) (fun _ => counter tt)).

(** [random_init] from the reading of [gbl_output] on. *)
Definition random_init_rest : prog unit :=
  bind (load_global "gbl_output" LoadOutput)
    (fun flat => bind (reshape flat (R, C))
       (fun shaped => bind (perform (StoreOutput shaped))
          (fun _ => perform (StoreNoutput C)))).

(** What is left of the current call at each point. *)
Definition rprog_at (pt : rpoint) : prog unit :=
  match pt with
  | RI0 => random_init (b, (R, C)) c
  | RI1 =>
      bind (perform (Length b))
        (fun n => bind (perform (StoreOutput {| base := b; shp := Flat n |}))
           (fun _ => random_init_rest))
  | RI2 =>
      bind (perform (StoreOutput {| base := b; shp := Flat (R * C) |}))
        (fun _ => random_init_rest)
  | RI3 => random_init_rest
  | RI4 =>
      bind (perform (StoreOutput {| base := b; shp := Grid R C |}))
        (fun _ => perform (StoreNoutput C))
  | RI5 => perform (StoreNoutput C)
  | RDraw idx par => random idx par
  | RZipf idx par => bind (checked (Zipf par C)) (fun row => random_rest idx row)
  | RView idx row => random_rest idx row
  | RWrite idx row =>
      bind (setitem_row {| base := b; shp := Grid R C |} idx row) (fun _ => counter tt)
  | RP pt => prog_at c pt
  end.

(** The globals of a process at each point, from a process that starts
    with none bound. *)
Definition rglobals_at (pt : rpoint) : globals :=
  match pt with
  | RI0 => unbound
  | RI1 | RI2 => set_gbl_counter c unbound
  | RI3 | RI4 =>
      set_gbl_output {| base := b; shp := Flat (R * C) |} (set_gbl_counter c unbound)
  | RI5 =>
      set_gbl_output {| base := b; shp := Grid R C |}
        (set_gbl_output {| base := b; shp := Flat (R * C) |} (set_gbl_counter c unbound))
  | _ => installed c b R C C
  end.

(** The point as the invariant of the locked increments sees it: the
    initializer is one long start, the first half of [random] is a call
    of [counter] that has not begun. *)
Definition rproj (st : rstate) : point * nat :=
  (match r_pt st with
   | RI0 | RI1 | RI2 | RI3 | RI4 | RI5 => PInit
   | RDraw _ _ | RZipf _ _ | RView _ _ | RWrite _ _ => PLoad
   | RP pt => pt
   end, length (r_todo st)).

Definition rrank (pt : rpoint) : nat :=
  match pt with
  | RI0 => 6 | RI1 => 5 | RI2 => 4 | RI3 => 3 | RI4 => 2 | RI5 => 1
  | RDraw _ _ => 10 | RZipf _ _ => 9 | RView _ _ => 8 | RWrite _ _ => 7
  | RP pt => rank pt
  end.

(** Steps a process has left: 11 for each call of [random]. *)
Definition rsteps (st : rstate) : nat := (rrank (r_pt st) + 11 * length (r_todo st))%nat.

(** The row of the call under way, as long as it is not written. *)
Definition cur_idx (pt : rpoint) : list Z :=
  match pt with
  | RDraw i _ | RZipf i _ | RView i _ | RWrite i _ => [i]
  | _ => []
  end.

(** The rows of all the calls of a process: written, under way, to come. *)
Definition covered (st : rstate) : list Z :=
  r_done st ++ cur_idx (r_pt st) ++ (fst <$> r_todo st).

(** A parameter the sampler accepts for a row of [C] samples. *)
Definition accepts (par : float) : Prop :=
  forall g, exists row g', np_random_zipf par C g = (inr row, g').

(** A call [random idx par] on a row of the buffer with such a
    parameter. *)
Definition valid_task (t : Z * float) : Prop :=
  0 <= fst t < R /\ accepts (snd t).

Definition good_row (row : list Z) : Prop :=
  Z.of_nat (length row) = C /\ Forall (fun x => 1 <= x) row.

Definition rwf (st : rstate) : Prop :=
  Forall valid_task (r_todo st)
  /\ Forall (fun i => 0 <= i < R) (r_done st)
  /\ match r_pt st with
     | RDraw i par | RZipf i par => valid_task (i, par)
     | RView i row | RWrite i row => 0 <= i < R /\ good_row row
     | RP pt => pt <> PInit /\ of_kind true pt = true
     | _ => True
     end.

(** The rows a process writes for its calls, one call after the other,
    with its generator at [g] before the first: each call draws from the
    state the one before has left.  A call whose draw fails writes
    nothing, and neither do the calls after it in this list. *)
Fixpoint draws (g : rng) (todo : list (Z * float)) : list (Z * list Z) :=
  match todo with
  | [] => []
  | (idx, par) :: todo =>
      match np_random_zipf par C g with
      | (inr row, g') => (idx, row) :: draws g' todo
      | (inl _, _) => []
      end
  end.

(** The rows a process in state [st] has still to write, its generator
    at [g]. *)
Definition pending_rows (g : rng) (st : rstate) : list (Z * list Z) :=
  match r_pt st with
  | RDraw idx par | RZipf idx par => draws g ((idx, par) :: r_todo st)
  | RView idx row | RWrite idx row => (idx, row) :: draws g (r_todo st)
  | _ => draws g (r_todo st)
  end.

(** What a step of a process does to the block [l]: nothing, or the
    writing of the first of its pending rows. *)
Definition row_step (p : proc) (st : rstate) (p' : proc) (st' : rstate)
    (l l' : list Z) : Prop :=
  (l' = l /\ r_done st' = r_done st
   /\ pending_rows (w_rng (p_worker p')) st' = pending_rows (w_rng (p_worker p)) st)
  \/ exists idx row,
       0 <= idx < R /\ good_row row
       /\ l' = list_inserts (Z.to_nat (idx * C)) row l
       /\ r_done st' = idx :: r_done st
       /\ pending_rows (w_rng (p_worker p)) st
          = (idx, row) :: pending_rows (w_rng (p_worker p')) st'.

(** Process [p] is in state [st]. *)
Definition rproc_ok (p : proc) (st : rstate) : Prop :=
  p_cur p = rprog_at (r_pt st)
  /\ p_todo p = map (fun t => random (fst t) (snd t)) (r_todo st)
  /\ w_globals (p_worker p) = rglobals_at (r_pt st)
  /\ rwf st.

(** The invariant of the pool: that of the locked increments, and every
    row that a process has written is filled. *)
Definition rinv (t : int_type) (v0 : Z) (N : nat)
    (sts : list rstate) (cell : counter_cell) (l : list Z) : Prop :=
  locked_inv t v0 N (rproj <$> sts) cell
  /\ Z.of_nat (length l) = R * C
  /\ (forall j st i, sts !! j = Some st -> i ∈ r_done st -> filled C i l).

Definition rsim_at (ws : list (rng * list (Z * float)))
    (t : int_type) (v0 : Z) (N : nat) (m : nat)
    (cfg : config) (sts : list rstate) (cell : counter_cell) (l : list Z) : Prop :=
  counters (shared cfg) !! c = Some cell
  /\ blocks (shared cfg) !! b = Some l
  /\ Forall2 rproc_ok (procs cfg) sts
  /\ rinv t v0 N sts cell l
  /\ sum_list (rsteps <$> sts) = m
  /\ Forall2 (fun w st => forall i, i ∈ (fst <$> snd w) -> i ∈ covered st) ws sts.

Definition rsim (ws : list (rng * list (Z * float)))
    (t : int_type) (v0 : Z) (N : nat) (m : nat) (cfg : config) : Prop :=
  exists sts cell l, rsim_at ws t v0 N m cfg sts cell l.

(** The rows of the block [l] against the draws of the processes, [l0]
    the block the pool started with: every process has written a first
    part of its rows, and these are in [l]; the rows of no call are as in
    [l0]. *)
Definition rows_ok (ws : list (rng * list (Z * float))) (l0 : list Z)
    (cfg : config) (sts : list rstate) (l : list Z) : Prop :=
  (forall j w p st,
     ws !! j = Some w -> procs cfg !! j = Some p -> sts !! j = Some st ->
     exists wl,
       draws (fst w) (snd w) = wl ++ pending_rows (w_rng (p_worker p)) st
       /\ forall t, t ∈ wl -> get_row C (fst t) l = snd t)
  /\ (forall i, 0 <= i -> i ∉ pool_rows ws -> get_row C i l = get_row C i l0).

Definition dsim (ws : list (rng * list (Z * float)))
    (t : int_type) (v0 : Z) (N : nat) (l0 : list Z)
    (m : nat) (cfg : config) : Prop :=
  exists sts cell l, rsim_at ws t v0 N m cfg sts cell l /\ rows_ok ws l0 cfg sts l.

Definition rstart (w : rng * list (Z * float)) : rstate :=
  {| r_pt := RI0; r_done := []; r_todo := snd w |}.

End SamplingViews.

(** * Concrete inputs *)

(** An instance of the library to evaluate the functions on: integers
    stand for the floats, the generator state is a counter of draws, and
    [zipf] refuses an exponent that is not above 1 and a negative size,
    as numpy does. *)
Definition sample_zipf (a : Z) (n : Z) (g : nat) : (exn + list Z) * nat :=
  if (a <=? 1) || (n <? 0) then (inl ValueError, g)
  else (inr (map (fun k => 1 + Z.of_nat ((g + k) mod 3)) (seq 0 (Z.to_nat n))), S g).

Definition sample_library : NumericLibrary :=
  {| float := Z;
     np_sin := fun x => x - x * x * x / 6;
     np_mul := Z.mul;
     rng := nat;
     np_random_zipf := sample_zipf |}.

(** The integer types behind the type codes ['i'] and ['B']. *)
Definition c_int : int_type := {| signed := true; bits := 32 |}.
Definition c_ubyte : int_type := {| signed := false; bits := 8 |}.

(** A counter of type ['i'] at 0 with a free lock, and a block of four
    elements. *)
Definition demo_heap : heap :=
  {| counters := {[ 0%nat := {| typ := c_int; value := 0; lock := None |} ]};
     blocks := {[ 0%nat := [0; 0; 0; 0] ]} |}.

(** The same with the counter at the greatest value of its type,
    [2 ** 31 - 1], and with a counter of type ['B'] at its greatest
    value. *)
Definition demo_heap_top : heap :=
  {| counters := {[ 0%nat := {| typ := c_int; value := 2147483647; lock := None |} ]};
     blocks := {[ 0%nat := [0; 0; 0; 0] ]} |}.

Definition demo_heap_byte : heap :=
  {| counters := {[ 0%nat := {| typ := c_ubyte; value := 255; lock := None |} ]};
     blocks := {[ 0%nat := [0; 0; 0; 0] ]} |}.

(** A worker after [random_init] on a buffer of two rows and two columns,
    and a worker after [counter_init]. *)
Definition demo_worker : worker (L := sample_library) :=
  {| w_globals := installed 0 0 2 2 2; w_rng := (0%nat : @rng sample_library) |}.

Definition demo_counter_worker : worker (L := sample_library) :=
  {| w_globals := set_gbl_counter 0 unbound; w_rng := (0%nat : @rng sample_library) |}.

(** Two processes, the first with two calls and the second with one. *)
Definition demo_pool : list (@rng sample_library * list Z) :=
  [(0%nat, [10; 20]); (1%nat, [30])].

(** A schedule that runs the three calls to the end: the two processes
    come to the lock together and take it in turn. *)
Definition demo_sched : list nat :=
  [0; 1; 0; 1; 0; 1; 0; 0; 0; 0; 0; 1; 1; 1; 1; 1; 0; 0; 0; 0; 0; 0; 0]%nat.

Definition demo_start : config (L := sample_library) :=
  pool_start (L := sample_library) (counter_init 0) counter demo_pool demo_heap.

Definition demo_final : config (L := sample_library) :=
  default demo_start (exec demo_sched demo_start).

(** The same pool and schedule on the counter at the top of its range. *)
Definition demo_top_start : config (L := sample_library) :=
  pool_start (L := sample_library) (counter_init 0) counter demo_pool demo_heap_top.

Definition demo_top_final : config (L := sample_library) :=
  default demo_top_start (exec demo_sched demo_top_start).

Definition demo_nolock_pool : list (@rng sample_library * list Z) :=
  [(0%nat, [10]); (1%nat, [20])].

Definition demo_random_result :=
  run (L := sample_library) 0 (random (L := sample_library) 1 2) demo_worker demo_heap.

(** Two counters and the block, for the calls that tell them apart; the
    second counter is of type ['B'] and at its greatest value. *)
Definition demo_heap2 : heap :=
  {| counters := <[1%nat := {| typ := c_ubyte; value := 255; lock := None |}]>
                   {[ 0%nat := {| typ := c_int; value := 0; lock := None |} ]};
     blocks := {[ 0%nat := [0; 0; 0; 0] ]} |}.

(** A pool of two processes with one call of [counter_nolock] each, run
    one process after the other. *)
Definition demo_nolock_start : config (L := sample_library) :=
  pool_start (L := sample_library) (counter_init 0) counter_nolock
    demo_nolock_pool demo_heap.

Definition demo_nolock_final : config (L := sample_library) :=
  default demo_nolock_start
    (exec [0; 0; 0; 0; 0; 1; 1; 1; 1; 1]%nat demo_nolock_start).

(** A pool of two processes on the buffer of two rows, one row each; the
    second process starts when the first is between its draw and its
    write. *)
Definition demo_random_pool : list (@rng sample_library * list (Z * @float sample_library)) :=
  [(0%nat, [(0, 2)]); (5%nat, [(1, 3)])].

Definition demo_random_sched : list nat :=
  (replicate 9 0 ++ replicate 17 1 ++ replicate 8 0)%nat.

Definition demo_random_start : config (L := sample_library) :=
  pool_start (L := sample_library) (random_init (0%nat, (2, 2)) 0%nat)
    (fun t => random (fst t) (snd t)) demo_random_pool demo_heap.

Definition demo_random_final : config (L := sample_library) :=
  default demo_random_start (exec demo_random_sched demo_random_start).

(** The same pool, the second process first and then the first. *)
Definition demo_random_sched2 : list nat :=
  (replicate 17 1 ++ replicate 17 0)%nat.

Definition demo_random_final2 : config (L := sample_library) :=
  default demo_random_start (exec demo_random_sched2 demo_random_start).

(** * Properties *)

(** ** Cells of a fixed width *)

Lemma half_range_pos t : 0 < half_range t.
Proof. unfold half_range. apply Z.pow_pos_nonneg; lia. Qed.

Lemma wrap_in_range t z : in_range t (wrap t z).
Proof.
  unfold in_range, wrap, c_min, c_max. pose proof (half_range_pos t).
  destruct (signed t).
  - pose proof (Z.mod_pos_bound (z + half_range t) (2 * half_range t)). lia.
  - pose proof (Z.mod_pos_bound z (2 * half_range t)). lia.
Qed.

Lemma wrap_id t z : in_range t z -> wrap t z = z.
Proof.
  unfold in_range, wrap, c_min, c_max. pose proof (half_range_pos t).
  destruct (signed t); intros Hz; rewrite Z.mod_small by lia; lia.
Qed.

Lemma wrap_le t z : c_min t <= z -> wrap t z <= z.
Proof.
  intros Hz. destruct (Z.le_gt_cases z (c_max t)).
  - rewrite wrap_id; [lia | done].
  - pose proof (wrap_in_range t z) as [_ ?]. lia.
Qed.

Lemma wrap_add_l t z k : wrap t (wrap t z + k) = wrap t (z + k).
Proof.
  unfold wrap. destruct (signed t).
  - f_equal.
    replace ((z + half_range t) mod (2 * half_range t) - half_range t + k + half_range t)
      with ((z + half_range t) mod (2 * half_range t) + k) by lia.
    rewrite Zplus_mod_idemp_l. f_equal. lia.
  - apply Zplus_mod_idemp_l.
Qed.

Lemma incr_n_in_range t n v : in_range t v -> in_range t (incr_n t n v).
Proof. intros Hv. destruct n as [|n]; [done|]. apply wrap_in_range. Qed.

(** [n] increments of a value of the type: the sum, cut to the width. *)
Lemma incr_n_wrap t n v : in_range t v -> incr_n t n v = wrap t (v + Z.of_nat n).
Proof.
  intros Hv. induction n as [|n IH].
  - cbn. rewrite Z.add_0_r. by rewrite wrap_id.
  - change (incr_n t (S n) v) with (incr t (incr_n t n v)).
    rewrite IH. unfold incr. rewrite wrap_add_l. f_equal. lia.
Qed.

Lemma incr_n_exact t n v :
  in_range t v -> v + Z.of_nat n <= c_max t -> incr_n t n v = v + Z.of_nat n.
Proof.
  intros Hv Hn. rewrite incr_n_wrap by done. apply wrap_id.
  unfold in_range in *. lia.
Qed.

Lemma incr_n_le t n v : in_range t v -> incr_n t n v <= v + Z.of_nat n.
Proof.
  intros Hv. rewrite incr_n_wrap by done. apply wrap_le. unfold in_range in Hv. lia.
Qed.

Lemma incr_n_succ_r t n v : incr_n t n (incr t v) = incr_n t (S n) v.
Proof. unfold incr_n. by rewrite Nat.iter_succ_r. Qed.

Lemma incr_n_add t n m v : incr_n t (n + m) v = incr_n t n (incr_n t m v).
Proof. unfold incr_n. apply Nat.iter_add. Qed.

(** ** Heap updates *)

Lemma lookup_put_counter c x h : counters (put_counter c x h) !! c = Some x.
Proof. apply lookup_insert_eq. Qed.

Lemma lookup_put_counter_ne c c' x h :
  c <> c' -> counters (put_counter c x h) !! c' = counters h !! c'.
Proof. intros. by apply lookup_insert_ne. Qed.

Lemma put_counter_twice c x y h :
  put_counter c x (put_counter c y h) = put_counter c x h.
Proof. unfold put_counter; simpl. by rewrite insert_insert_eq. Qed.

Lemma put_counter_same c x h : counters h !! c = Some x -> put_counter c x h = h.
Proof.
  intros Hc. destruct h as [cs bs]. unfold put_counter; simpl in *.
  by rewrite insert_id.
Qed.

Lemma available_acquired me l : available me (acquired me l) = true.
Proof. destruct l as [[p d]|]; cbn; by apply bool_decide_eq_true. Qed.

Section Sequential.
Context {L : NumericLibrary}.

(** ** Running composed programs *)

Lemma run_bind {A B} me (p : prog A) (f : A -> prog B) w h :
  run me (bind p f) w h =
  match run me p w h with
  | (Done a, w', h') => run me (f a) w' h'
  | (Raised e, w', h') => (Raised e, w', h')
  | (Stuck, w', h') => (Stuck, w', h')
  end.
Proof.
  revert w h. induction p as [a|e|X o k IH]; intros w h; simpl; try done.
  destruct (do_op me o w h) as [[[x w'] h']|]; [apply IH | done].
Qed.

Lemma run_try_finally {A} me (p : prog A) (fin : prog unit) w h :
  run me (try_finally p fin) w h =
  match run me p w h with
  | (Done a, w', h') =>
      match run me fin w' h' with
      | (Done _, w'', h'') => (Done a, w'', h'')
      | (Raised e, w'', h'') => (Raised e, w'', h'')
      | (Stuck, w'', h'') => (Stuck, w'', h'')
      end
  | (Raised e, w', h') =>
      match run me fin w' h' with
      | (Done _, w'', h'') => (Raised e, w'', h'')
      | (Raised e', w'', h'') => (Raised e', w'', h'')
      | (Stuck, w'', h'') => (Stuck, w'', h'')
      end
  | (Stuck, w', h') => (Stuck, w', h')
  end.
Proof.
  revert w h. induction p as [a|e|X o k IH]; intros w h; simpl.
  - rewrite run_bind. by destruct (run me fin w h) as [[[[]|?|] ?] ?].
  - rewrite run_bind. by destruct (run me fin w h) as [[[[]|?|] ?] ?].
  - destruct (do_op me o w h) as [[[x w'] h']|]; [apply IH | done].
Qed.

(** Releasing a lock that [me] holds brings it back one level. *)
Lemma run_release me c w h cell l :
  counters h !! c = Some cell ->
  available me l = true ->
  lock cell = acquired me l ->
  run me (checked (Release c)) w h =
  (Done tt, w, put_counter c {| typ := typ cell; value := value cell; lock := l |} h).
Proof.
  intros Hc Hav Hl. unfold checked, perform. simpl. rewrite Hc, Hl.
  destruct l as [[p d]|]; simpl in *.
  - apply bool_decide_eq_true in Hav as ->. by rewrite decide_True.
  - by rewrite decide_True.
Qed.

(** The law of [with]: from a lock that [me] may take, the body runs
    with the lock held; whether it returns or raises, the lock is put
    back as it was found and the outcome of the body is the outcome of
    the statement. *)
Lemma run_with {A} me c (body : prog A) w h cell r w2 h2 cell2 :
  counters h !! c = Some cell ->
  available me (lock cell) = true ->
  run me body w
    (put_counter c {| typ := typ cell; value := value cell; lock := acquired me (lock cell) |} h)
    = (r, w2, h2) ->
  r <> Stuck ->
  counters h2 !! c = Some cell2 ->
  lock cell2 = acquired me (lock cell) ->
  run me (with_ (get_lock c) body) w h =
  (r, w2, put_counter c {| typ := typ cell2; value := value cell2; lock := lock cell |} h2).
Proof.
  intros Hc Hav Hbody Hr Hc2 Hl2. unfold with_, get_lock, perform.
  change (run me (bind (Vis (Acquire c) Ret) ?f) w h) with
    (match do_op me (Acquire c) w h with
     | Some (x, w', h') => run me (f x) w' h'
     | None => (Stuck, w, h)
     end).
  assert (do_op me (Acquire c) w h =
          Some (tt, w, put_counter c
                  {| typ := typ cell; value := value cell;
                     lock := acquired me (lock cell) |} h)) as ->.
  { simpl. rewrite Hc. destruct (lock cell) as [[p d]|]; simpl in *; [|done].
    apply bool_decide_eq_true in Hav as ->. by rewrite decide_True. }
  rewrite run_try_finally, Hbody.
  rewrite (run_release me c w2 h2 cell2 (lock cell)) by done.
  by destruct r.
Qed.

Lemma run_load_counter me name w h :
  run me (load_global name LoadCounter) w h =
  match gbl_counter (w_globals w) with
  | Some v => (Done v, w, h)
  | None => (Raised (NameError name), w, h)
  end.
Proof. unfold load_global, perform. simpl. by destruct (gbl_counter _). Qed.

Lemma run_load_output me name w h :
  run me (load_global name LoadOutput) w h =
  match gbl_output (w_globals w) with
  | Some v => (Done v, w, h)
  | None => (Raised (NameError name), w, h)
  end.
Proof. unfold load_global, perform. simpl. by destruct (gbl_output _). Qed.

Lemma run_load_noutput me name w h :
  run me (load_global name LoadNoutput) w h =
  match gbl_noutput (w_globals w) with
  | Some v => (Done v, w, h)
  | None => (Raised (NameError name), w, h)
  end.
Proof. unfold load_global, perform. simpl. by destruct (gbl_noutput _). Qed.

(** ** The counter, one call at a time *)

Lemma counter_nolock_call {T} (arg : T) me w h c cell :
  gbl_counter (w_globals w) = Some c ->
  counters h !! c = Some cell ->
  available me (lock cell) = true ->
  run me (counter_nolock arg) w h =
  (Done tt, w, put_counter c
      {| typ := typ cell; value := wrap (typ cell) (value cell + 1); lock := lock cell |} h).
Proof.
  intros Hg Hc Hav. unfold counter_nolock, load_global, perform. simpl.
  rewrite Hg. simpl. rewrite Hc, Hav. simpl. by rewrite Hc, Hav.
Qed.

(** The body of the [with] statement of [counter] and [random], run with
    the lock held. *)
Lemma run_increment_body me w h c cell :
  gbl_counter (w_globals w) = Some c ->
  counters h !! c = Some cell ->
  available me (lock cell) = true ->
  run me (bind (load_global "gbl_counter" LoadCounter)
            (fun c' => bind (perform (GetValue c'))
               (fun v => perform (SetValue c' (v + 1))))) w h =
  (Done tt, w, put_counter c
      {| typ := typ cell; value := wrap (typ cell) (value cell + 1); lock := lock cell |} h).
Proof.
  intros Hg Hc Hav. unfold load_global, perform. simpl.
  rewrite Hg. simpl. rewrite Hc, Hav. simpl. by rewrite Hc, Hav.
Qed.

Lemma locked_increment me w h c cell :
  counters h !! c = Some cell ->
  gbl_counter (w_globals w) = Some c ->
  available me (lock cell) = true ->
  run me (with_ (get_lock c)
            (bind (load_global "gbl_counter" LoadCounter)
               (fun c' => bind (perform (GetValue c'))
                  (fun v => perform (SetValue c' (v + 1)))))) w h =
  (Done tt, w, put_counter c
      {| typ := typ cell; value := wrap (typ cell) (value cell + 1); lock := lock cell |} h).
Proof.
  intros Hc Hg Hav.
  pose proof (run_increment_body me w _ c _ Hg
                (lookup_put_counter c
                   {| typ := typ cell; value := value cell; lock := acquired me (lock cell) |} h)
                (available_acquired me (lock cell))) as Hb.
  cbn [value lock] in Hb. rewrite put_counter_twice in Hb.
  rewrite (run_with me c _ w h cell _ _ _
             {| typ := typ cell; value := wrap (typ cell) (value cell + 1);
                lock := acquired me (lock cell) |} Hc Hav Hb);
    [| done | apply lookup_put_counter | done].
  simpl. by rewrite put_counter_twice.
Qed.

Lemma counter_returns {T} (arg : T) me w h c cell :
  gbl_counter (w_globals w) = Some c ->
  counters h !! c = Some cell ->
  available me (lock cell) = true ->
  run me (counter arg) w h =
  (Done tt, w, put_counter c
      {| typ := typ cell; value := wrap (typ cell) (value cell + 1); lock := lock cell |} h).
Proof.
  intros Hg Hc Hav. unfold counter. rewrite run_bind, run_load_counter, Hg.
  by apply locked_increment.
Qed.



(** ** Calls before the initializer *)

(** C6. In a worker process where no initializer has bound
    [gbl_counter], [counter] and [counter_nolock] raise [NameError] to
    their caller; where [random_init] has not bound [gbl_noutput] (no
    initializer has run, or [counter_init] only), [random] does.  Nothing
    of the process or of the shared memory has changed. *)
Theorem call_before_initializer {T} (arg : T) (idx : Z) (par : float)
    me (g : rng) (h : heap) (o : option view) (n : option Z) (c : option nat) :
  let w1 := {| w_globals := {| gbl_counter := None; gbl_output := o; gbl_noutput := n |};
               w_rng := g |} in
  let w2 := {| w_globals := {| gbl_counter := c; gbl_output := o; gbl_noutput := None |};
               w_rng := g |} in
  run me (counter arg) (fresh_worker g) h =
    (Raised (NameError "gbl_counter"), fresh_worker g, h)
  /\ run me (counter_nolock arg) (fresh_worker g) h =
    (Raised (NameError "gbl_counter"), fresh_worker g, h)
  /\ run me (random idx par) (fresh_worker g) h =
    (Raised (NameError "gbl_noutput"), fresh_worker g, h)
  /\ run me (counter arg) w1 h = (Raised (NameError "gbl_counter"), w1, h)
  /\ run me (counter_nolock arg) w1 h = (Raised (NameError "gbl_counter"), w1, h)
  /\ run me (random idx par) w2 h = (Raised (NameError "gbl_noutput"), w2, h)
  /\ (forall c0, run me (bind (counter_init c0) (fun _ => random idx par)) (fresh_worker g) h =
        (Raised (NameError "gbl_noutput"),
         {| w_globals := set_gbl_counter c0 unbound; w_rng := g |}, h)).
Proof. by repeat split. Qed.

(** ** The scaling function *)

(** C8. [scaled_sin theta scale] has the shape of [theta] and holds, at
    each position, [scale] times the sine of the element of [theta]
    there.  It is a function of its two arguments: it takes no worker
    state and no shared memory, and returns none. *)
Theorem scaled_sin_elementwise (theta : ndarray) (scale : float) :
  nd_shape (scaled_sin theta scale) = nd_shape theta
  /\ nd_data (scaled_sin theta scale) =
     map (fun t => np_mul scale (np_sin t)) (nd_data theta)
  /\ length (nd_data (scaled_sin theta scale)) = length (nd_data theta)
  /\ (forall i : nat,
        nd_data (scaled_sin theta scale) !! i =
        (fun t => np_mul scale (np_sin t)) <$> (nd_data theta !! i)).
Proof.
  unfold scaled_sin, nd_rmul, nd_sin; simpl.
  assert (map (np_mul scale) (map np_sin (nd_data theta)) =
          map (fun t => np_mul scale (np_sin t)) (nd_data theta)) as Hm.
  { induction (nd_data theta) as [|t ts IH]; simpl; [done | by rewrite IH]. }
  repeat split; try done.
  - by rewrite !length_map.
  - intros i. rewrite Hm. apply list_lookup_fmap.
Qed.

(** ** Sequential use of the two increments *)

Lemma run_all_increments {T} (calls : list (bool * T)) me w h c cell :
  gbl_counter (w_globals w) = Some c ->
  counters h !! c = Some cell ->
  available me (lock cell) = true ->
  run_all me (map increment calls) w h =
  (Done tt, w,
   put_counter c
     {| typ := typ cell; value := incr_n (typ cell) (length calls) (value cell);
        lock := lock cell |} h).
Proof.
  intros Hg. revert h cell. induction calls as [|[b a] calls IH]; intros h cell Hc Hav.
  - simpl. rewrite put_counter_same; [done|]. by destruct cell.
  - cbn [map run_all]. unfold increment at 1. cbn [fst snd].
    assert (run me (if b then counter a else counter_nolock a) w h =
            (Done tt, w,
             put_counter c
               {| typ := typ cell; value := wrap (typ cell) (value cell + 1);
                  lock := lock cell |} h)) as ->.
    { destruct b; [by apply counter_returns | by apply counter_nolock_call]. }
    erewrite IH; [| apply lookup_put_counter | done].
    rewrite put_counter_twice. cbn [typ value lock length].
    by rewrite <- incr_n_succ_r.
Qed.

(** C9, as the code has it.  In one process, after [counter_init c], on
    a lock the process may take and a counter of any integer type: any
    sequence of [N] calls of [counter] and [counter_nolock], in any
    mixture, returns and leaves in the counter its initial value plus
    [N] cut to the width of the cell, the lock as found.  That is the
    initial value plus [N] whenever this sum is a value of the type.  A
    call of one function has the outcome and the effect of a call of the
    other. *)
Theorem sequential_increments_equivalent {T} (calls : list (bool * T)) me w h c cell :
  counters h !! c = Some cell ->
  available me (lock cell) = true ->
  in_range (typ cell) (value cell) ->
  let w' := {| w_globals := set_gbl_counter c (w_globals w); w_rng := w_rng w |} in
  run_all me (counter_init c :: map increment calls) w h =
    (Done tt, w',
     put_counter c
       {| typ := typ cell;
          value := wrap (typ cell) (value cell + Z.of_nat (length calls));
          lock := lock cell |} h)
  /\ (value cell + Z.of_nat (length calls) <= c_max (typ cell) ->
      run_all me (counter_init c :: map increment calls) w h =
        (Done tt, w',
         put_counter c
           {| typ := typ cell; value := value cell + Z.of_nat (length calls);
              lock := lock cell |} h))
  /\ (forall (a a' : T) h1 cell1,
        counters h1 !! c = Some cell1 ->
        available me (lock cell1) = true ->
        run me (counter a) w' h1 = run me (counter_nolock a') w' h1).
Proof.
  intros Hc Hav Hv w'.
  assert (run_all me (counter_init c :: map increment calls) w h =
          (Done tt, w',
           put_counter c
             {| typ := typ cell; value := incr_n (typ cell) (length calls) (value cell);
                lock := lock cell |} h)) as Hrun.
  { cbn [run_all]. unfold counter_init, perform. simpl.
    by apply run_all_increments. }
  split_and!.
  - by rewrite Hrun, incr_n_wrap.
  - intros Hfit. by rewrite Hrun, incr_n_exact.
  - intros a a' h1 cell1 Hc1 Hav1.
    rewrite (counter_nolock_call a' me w' h1 c cell1) by done.
    by apply counter_returns.
Qed.

(** ** The initializer of the buffer *)

(** C10. Whatever its arguments and however it ends, [random_init]
    leaves the shared memory as it is: no element of any block and no
    counter is written; nor is the generator touched.  Its effects are on
    the globals of the process only. *)
Theorem random_init_preserves_memory me (output : nat * (Z * Z)) (c : nat) w h :
  snd (run me (random_init output c) w h) = h
  /\ w_rng (snd (fst (run me (random_init output c) w h))) = w_rng w
  /\ gbl_counter (w_globals (snd (fst (run me (random_init output c) w h)))) = Some c.
Proof.
  destruct output as [b [r k]]. unfold random_init, perform, load_global, reshape.
  cbn -[fix_unknown_dimension]. destruct (blocks h !! b) as [l|]; [|done].
  cbn -[fix_unknown_dimension].
  by destruct (fix_unknown_dimension (Z.of_nat (length l)) (r, k)) as [e|[r' k']].
Qed.

(** ** Rows of a block *)

Lemma take_drop_inserts_same (n off : nat) (row l : list Z) :
  length row = n -> (off + n <= length l)%nat ->
  take n (drop off (list_inserts off row l)) = row.
Proof.
  intros Hn Hl. apply list_eq. intros k. rewrite lookup_take. case_decide.
  - rewrite lookup_drop, list_lookup_inserts by (rewrite ?length_inserts; lia).
    f_equal. lia.
  - symmetry. apply lookup_ge_None. lia.
Qed.

Lemma take_drop_inserts_other (n off off' : nat) (row l : list Z) :
  (off' + n <= off \/ off + length row <= off')%nat ->
  take n (drop off' (list_inserts off row l)) = take n (drop off' l).
Proof.
  intros Hd. apply list_eq. intros k. rewrite !lookup_take. case_decide; [|done].
  rewrite !lookup_drop. destruct Hd.
  - apply list_lookup_inserts_lt. lia.
  - apply list_lookup_inserts_ge. lia.
Qed.

Lemma get_row_inserts_same (C i : Z) (row l : list Z) :
  0 <= C -> 0 <= i -> Z.of_nat (length row) = C ->
  (i + 1) * C <= Z.of_nat (length l) ->
  get_row C i (list_inserts (Z.to_nat (i * C)) row l) = row.
Proof.
  intros HC Hi Hrow Hl. unfold get_row. apply take_drop_inserts_same; nia.
Qed.

Lemma get_row_inserts_other (C i j : Z) (row l : list Z) :
  0 <= C -> 0 <= i -> 0 <= j -> j <> i -> Z.of_nat (length row) = C ->
  get_row C j (list_inserts (Z.to_nat (i * C)) row l) = get_row C j l.
Proof.
  intros HC Hi Hj Hne Hrow. unfold get_row. apply take_drop_inserts_other.
  destruct (Z.lt_ge_cases j i); [left | right]; nia.
Qed.

Lemma broadcast_to_length (C : Z) (xs row : list Z) :
  0 <= C -> broadcast_to C xs = Some row -> Z.of_nat (length row) = C.
Proof.
  intros HC. unfold broadcast_to.
  destruct (Z.eqb_spec (Z.of_nat (length xs)) C) as [Heq|Hne].
  - by intros [= <-].
  - destruct xs as [|x [|? ?]]; try done. intros [= <-].
    rewrite length_replicate. lia.
Qed.

(** ** The initializer and the sampling call *)

Lemma fix_unknown_dimension_exact (R C : Z) :
  0 <= R -> 0 <= C -> fix_unknown_dimension (R * C) (R, C) = inr (R, C).
Proof.
  intros HR HC. unfold fix_unknown_dimension.
  destruct (Z.ltb_spec R 0); [lia|]. destruct (Z.ltb_spec C 0); [lia|].
  by rewrite Z.eqb_refl.
Qed.

Lemma random_init_ok me b (R C : Z) c w h l :
  blocks h !! b = Some l -> Z.of_nat (length l) = R * C -> 0 <= R -> 0 <= C ->
  run me (random_init (b, (R, C)) c) w h =
  (Done tt, {| w_globals := installed c b R C C; w_rng := w_rng w |}, h).
Proof.
  intros Hb Hl HR HC. unfold random_init, perform, load_global, reshape.
  cbn -[fix_unknown_dimension]. rewrite Hb. cbn -[fix_unknown_dimension].
  rewrite Hl, fix_unknown_dimension_exact by done. reflexivity.
Qed.

Lemma run_zipf me a n w h :
  run me (checked (Zipf a n)) w h =
  match np_random_zipf a n (w_rng w) with
  | (inl e, g') => (Raised e, with_rng w g', h)
  | (inr xs, g') => (Done xs, with_rng w g', h)
  end.
Proof.
  unfold checked, perform. simpl.
  by destruct (np_random_zipf a n (w_rng w)) as [[e|xs] g'].
Qed.

Lemma run_setitem_row me b R C idx xs w h :
  run me (setitem_row {| base := b; shp := Grid R C |} idx xs) w h =
  if (wrap_index R idx <? 0) || (R <=? wrap_index R idx)
  then (Raised IndexError, w, h)
  else match broadcast_to C xs with
       | None => (Raised ValueError, w, h)
       | Some row =>
           match blocks h !! b with
           | None => (Stuck, w, h)
           | Some l =>
               (Done tt, w,
                put_block b (list_inserts (Z.to_nat (wrap_index R idx * C)) row l) h)
           end
       end.
Proof.
  unfold setitem_row. cbn [shp base].
  destruct ((wrap_index R idx <? 0) || (R <=? wrap_index R idx)); [done|].
  destruct (broadcast_to C xs) as [row|]; [|done].
  unfold perform. cbn [run do_op]. by destruct (blocks h !! b).
Qed.

(** What a call of [random] does once the globals are bound: draw, check
    the index, write the row, then go on as a call of [counter]. *)
Lemma run_random me (idx : Z) (par : float) w h c b R C n :
  w_globals w = installed c b R C n ->
  run me (random idx par) w h =
  match np_random_zipf par n (w_rng w) with
  | (inl e, g') => (Raised e, with_rng w g', h)
  | (inr xs, g') =>
      if (wrap_index R idx <? 0) || (R <=? wrap_index R idx)
      then (Raised IndexError, with_rng w g', h)
      else match broadcast_to C xs with
           | None => (Raised ValueError, with_rng w g', h)
           | Some row =>
               match blocks h !! b with
               | None => (Stuck, with_rng w g', h)
               | Some l =>
                   run me (counter tt) (with_rng w g')
                     (put_block b
                        (list_inserts (Z.to_nat (wrap_index R idx * C)) row l) h)
               end
           end
  end.
Proof.
  intros Hg. unfold random.
  rewrite run_bind, run_load_noutput, Hg. cbn [gbl_noutput installed].
  rewrite run_bind, run_zipf.
  destruct (np_random_zipf par n (w_rng w)) as [[e|xs] g']; [done|].
  rewrite run_bind, run_load_output. cbn [with_rng w_globals]. rewrite Hg.
  cbn [gbl_output installed].
  rewrite run_bind, run_setitem_row.
  destruct ((wrap_index R idx <? 0) || (R <=? wrap_index R idx)); [done|].
  destruct (broadcast_to C xs) as [row|]; [|done].
  destruct (blocks h !! b) as [l|]; [|done]. reflexivity.
Qed.

Lemma put_block_twice b x y h : put_block b x (put_block b y h) = put_block b x h.
Proof. unfold put_block; simpl. by rewrite insert_insert_eq. Qed.

Lemma put_block_counter b x c y h :
  put_block b x (put_counter c y h) = put_counter c y (put_block b x h).
Proof. reflexivity. Qed.

(** The increment writes to no block, however it ends. *)
Lemma counter_blocks {T} (arg : T) me w h :
  blocks (snd (run me (counter arg) w h)) = blocks h.
Proof.
  unfold counter, load_global, with_, checked, perform, get_lock. simpl.
  repeat (case_match; simplify_eq/=; try done).
Qed.

Lemma wrap_index_nonneg R idx : 0 <= idx -> wrap_index R idx = idx.
Proof. intros. unfold wrap_index. destruct (Z.ltb_spec idx 0); [lia | done]. Qed.

Lemma in_range_false R i : 0 <= i < R -> (i <? 0) || (R <=? i) = false.
Proof.
  intros. destruct (Z.ltb_spec i 0); [lia|]. destruct (Z.leb_spec R i); [lia | done].
Qed.

Lemma broadcast_to_same (C : Z) (xs : list Z) :
  Z.of_nat (length xs) = C -> broadcast_to C xs = Some xs.
Proof. intros H. unfold broadcast_to. by rewrite H, Z.eqb_refl. Qed.

(** A call of [random] on a row of the buffer, for a draw that succeeds
    and a lock the process may take. *)
Lemma random_call `{!ZipfContract L} me idx par w h c b R C l cell row g' :
  w_globals w = installed c b R C C ->
  0 <= idx < R ->
  blocks h !! b = Some l ->
  counters h !! c = Some cell ->
  available me (lock cell) = true ->
  np_random_zipf par C (w_rng w) = (inr row, g') ->
  run me (random idx par) w h =
  (Done tt, with_rng w g',
   put_counter c {| typ := typ cell; value := wrap (typ cell) (value cell + 1); lock := lock cell |}
     (put_block b (list_inserts (Z.to_nat (idx * C)) row l) h)).
Proof.
  intros Hg Hidx Hb Hc Hav Hz.
  rewrite (run_random me idx par w h c b R C C Hg), Hz.
  rewrite wrap_index_nonneg, in_range_false by lia.
  rewrite broadcast_to_same by (eapply zipf_size; eauto). rewrite Hb.
  apply counter_returns; [by cbn [with_rng w_globals]; rewrite Hg | done | done].
Qed.

Section Rows.
Context `{!ZipfContract L}.
Variables (me b c : nat) (R C : Z) (par : float).
Hypothesis HC : 0 <= C.
Hypothesis Hpar : forall g, exists row g', np_random_zipf par C g = (inr row, g').


End Rows.

Lemma counter_waits {T} (arg : T) me w h c cell p d :
  gbl_counter (w_globals w) = Some c ->
  counters h !! c = Some cell ->
  lock cell = Some (p, d) -> p <> me ->
  run me (counter arg) w h = (Stuck, w, h).
Proof.
  intros Hg Hc Hl Hp. unfold counter. rewrite run_bind, run_load_counter, Hg.
  unfold with_, get_lock, perform. simpl. rewrite Hc, Hl. by rewrite decide_False.
Qed.




(** ** Which memory [random] touches *)

(** C5. A call [random idx par] on a row index [0 <= idx < R], however
    it ends (returned, raised or waiting for the lock): the block of the
    buffer keeps its length, every row other than [idx] holds what it
    held before, and the other blocks are as they were. *)
Theorem random_writes_one_row me (idx : Z) (par : float) w h c b R C n l r w' h' :
  w_globals w = installed c b R C n ->
  0 <= C ->
  blocks h !! b = Some l ->
  0 <= idx < R ->
  run me (random idx par) w h = (r, w', h') ->
  exists l',
    blocks h' !! b = Some l'
    /\ length l' = length l
    /\ (forall j, 0 <= j -> j <> idx -> get_row C j l' = get_row C j l)
    /\ (forall b', b' <> b -> blocks h' !! b' = blocks h !! b').
Proof.
  intros Hg HC Hb Hidx Hrun.
  rewrite (run_random me idx par w h c b R C n Hg) in Hrun.
  rewrite wrap_index_nonneg, in_range_false, Hb in Hrun by lia.
  destruct (np_random_zipf par n (w_rng w)) as [[e|xs] g'].
  { injection Hrun as _ _ <-. by exists l. }
  destruct (broadcast_to C xs) as [row|] eqn:Hbc.
  2:{ injection Hrun as _ _ <-. by exists l. }
  pose proof (broadcast_to_length C xs row HC Hbc) as Hrow.
  pose proof (counter_blocks tt me (with_rng w g')
                (put_block b (list_inserts (Z.to_nat (idx * C)) row l) h)) as Hk.
  rewrite Hrun in Hk. cbn [snd put_block blocks] in Hk.
  exists (list_inserts (Z.to_nat (idx * C)) row l). rewrite Hk. split_and!.
  - apply lookup_insert_eq.
  - apply length_inserts.
  - intros j Hj Hne. apply get_row_inserts_other; (done || lia).
  - intros b' Hne. by apply lookup_insert_ne.
Qed.

(** ** Row indices outside the buffer *)

(** C7, as the code has it.  Once the draw has succeeded, an index
    [idx >= R] or [idx < -R] raises [IndexError] to the caller, and
    neither the buffer nor the counter has changed.  An index
    [-R <= idx < 0] is no error: the call is the call on row
    [idx + R]. *)
Theorem random_index_out_of_bounds me (idx : Z) (par : float) w h c b R C n row g' :
  w_globals w = installed c b R C n ->
  np_random_zipf par n (w_rng w) = (inr row, g') ->
  (idx < - R \/ R <= idx ->
     run me (random idx par) w h = (Raised IndexError, with_rng w g', h))
  /\ (- R <= idx < 0 ->
     run me (random idx par) w h = run me (random (idx + R) par) w h).
Proof.
  intros Hg Hz. split; intros Hidx.
  - rewrite (run_random me idx par w h c b R C n Hg), Hz.
    assert ((wrap_index R idx <? 0) || (R <=? wrap_index R idx) = true) as ->; [|done].
    unfold wrap_index. apply orb_true_iff.
    destruct (Z.ltb_spec idx 0); [left; apply Z.ltb_lt | right; apply Z.leb_le]; lia.
  - rewrite !(run_random me _ par w h c b R C n Hg).
    assert (wrap_index R (idx + R) = wrap_index R idx) as ->; [|done].
    unfold wrap_index.
    destruct (Z.ltb_spec idx 0); [|lia]. by destruct (Z.ltb_spec (idx + R) 0); [lia|].
Qed.

End Sequential.

(** ** Interleaved executions of the increments *)

Section Concurrent.
Context {L : NumericLibrary}.

Ltac solve_proc_ok :=
  unfold proc_ok; cbn; split_and!; try done;
  match goal with H : _ -> gbl_counter _ = Some _ |- _ => intros _; by apply H end.

Lemma step_proc_point c locked i p st h cell p' h' :
  proc_ok c locked p st ->
  counters h !! c = Some cell ->
  (holds (fst st) = true -> lock cell = Some (i, 0%nat)) ->
  (fst st = PAcquire -> forall d, lock cell <> Some (i, d)) ->
  (unlocked_access (fst st) = true -> available i (lock cell) = true) ->
  step_proc i p h = Some (p', h') ->
  exists st' cell',
    local_trans locked i st cell st' cell'
    /\ proc_ok c locked p' st'
    /\ counters h' !! c = Some cell'
    /\ blocks h' = blocks h.
Proof.
  destruct st as [pt n]. destruct p as [w cur todo].
  intros (Hcur & Htodo & Hkind & Hg) Hc Hheld Hmine Hacc Hstep.
  assert (holds pt = true -> available i (lock cell) = true) as Hmy.
  { intros Hh. rewrite (Hheld Hh). cbn. by apply bool_decide_eq_true. }
  cbn [fst snd p_cur p_todo p_worker] in *. subst cur todo.
  unfold step_proc in Hstep. cbn [p_cur p_todo p_worker] in Hstep.
  destruct pt; cbn in Hstep, Hkind; unfold get_lock in Hstep;
    try (rewrite Hg in Hstep by done; cbn in Hstep; unfold get_lock in Hstep);
    try (rewrite Hc in Hstep; cbn in Hstep).
  - (* PInit *)
    injection Hstep as <- <-. exists (PIdle, n), cell.
    split_and!; [constructor | solve_proc_ok | done | done].
  - (* PIdle *)
    destruct n as [|n]; [done|]. cbn in Hstep. injection Hstep as <- <-.
    exists (if locked then PLoad else QLoad, n), cell.
    split_and!; [constructor | | done | done].
    unfold task. destruct locked; solve_proc_ok.
  - (* PLoad *)
    injection Hstep as <- <-. exists (PAcquire, n), cell.
    split_and!; [constructor | solve_proc_ok | done | done].
  - (* PAcquire *)
    destruct (lock cell) as [[q d]|] eqn:Hl.
    + destruct (decide (q = i)) as [->|]; [|done].
      by destruct (Hmine eq_refl d).
    + injection Hstep as <- <-.
      exists (PLoad2, n), {| typ := typ cell; value := value cell; lock := Some (i, 0%nat) |}.
      split_and!; [by constructor | solve_proc_ok
                  | apply lookup_put_counter | done].
  - (* PLoad2 *)
    injection Hstep as <- <-. exists (PGet, n), cell.
    split_and!; [constructor | solve_proc_ok | done | done].
  - (* PGet *)
    rewrite (Hmy eq_refl) in Hstep.
    injection Hstep as <- <-. exists (PSet (value cell), n), cell.
    split_and!; [constructor | solve_proc_ok | done | done].
  - (* PSet *)
    rewrite (Hmy eq_refl) in Hstep.
    injection Hstep as <- <-.
    exists (PRelease, n),
        {| typ := typ cell; value := wrap (typ cell) (v + 1); lock := lock cell |}.
    split_and!; [constructor | solve_proc_ok
                | apply lookup_put_counter | done].
  - (* PRelease *)
    rewrite (Hheld eq_refl) in Hstep. rewrite decide_True in Hstep by done.
    cbn in Hstep. injection Hstep as <- <-.
    exists (PIdle, n), {| typ := typ cell; value := value cell; lock := None |}.
    split_and!; [constructor | solve_proc_ok
                | apply lookup_put_counter | done].
  - (* QLoad *)
    injection Hstep as <- <-. exists (QGet, n), cell.
    split_and!; [constructor | solve_proc_ok | done | done].
  - (* QGet *)
    rewrite (Hacc eq_refl) in Hstep.
    injection Hstep as <- <-. exists (QSet (value cell), n), cell.
    split_and!; [constructor | solve_proc_ok | done | done].
  - (* QSet *)
    rewrite (Hacc eq_refl) in Hstep.
    injection Hstep as <- <-.
    exists (PIdle, n), {| typ := typ cell; value := wrap (typ cell) (v + 1); lock := lock cell |}.
    split_and!; [constructor | solve_proc_ok
                | apply lookup_put_counter | done].
Qed.

Lemma step_proc_enabled c locked i p st h cell :
  proc_ok c locked p st ->
  counters h !! c = Some cell ->
  (holds (fst st) = true -> lock cell = Some (i, 0%nat)) ->
  (fst st = PAcquire -> lock cell = None) ->
  (unlocked_access (fst st) = true -> available i (lock cell) = true) ->
  st <> (PIdle, 0%nat) ->
  is_Some (step_proc i p h).
Proof.
  destruct st as [pt n]. destruct p as [w cur todo].
  intros (Hcur & Htodo & Hkind & Hg) Hc Hheld Hfree Hacc Hst.
  assert (holds pt = true -> available i (lock cell) = true) as Hmy.
  { intros Hh. rewrite (Hheld Hh). cbn. by apply bool_decide_eq_true. }
  cbn [fst snd p_cur p_todo p_worker] in *. subst cur todo.
  unfold step_proc. cbn [p_cur p_todo p_worker].
  destruct pt; cbn -[available]; unfold get_lock; rewrite ?Hc;
    cbn -[available]; try done.
  - destruct n; [done | by cbn].
  - by rewrite (Hfree eq_refl).
  - by rewrite (Hmy eq_refl).
  - by rewrite (Hmy eq_refl).
  - rewrite (Hheld eq_refl). by rewrite decide_True.
  - by rewrite (Hacc eq_refl).
  - by rewrite (Hacc eq_refl).
Qed.

Lemma finished_point c locked p st :
  proc_ok c locked p st -> proc_finished p = true -> st = (PIdle, 0%nat).
Proof.
  destruct st as [pt n]. destruct p as [w cur todo].
  intros (Hcur & Htodo & _ & _). cbn in Hcur, Htodo. subst cur todo.
  unfold proc_finished. cbn [p_cur p_todo].
  destruct pt; cbn; try done. by destruct n.
Qed.

End Concurrent.

(** ** Sums over the processes *)

Lemma sum_list_fmap_insert {A} (f : A -> nat) (l : list A) i x y :
  l !! i = Some x ->
  (sum_list (f <$> <[i:=y]> l) + f x = sum_list (f <$> l) + f y)%nat.
Proof.
  revert i. induction l as [|a l IH]; intros [|i] Hi; try done.
  - cbn in Hi. injection Hi as ->. csimpl. lia.
  - cbn in Hi. specialize (IH i Hi). csimpl. lia.
Qed.

Lemma local_trans_steps locked i st cell st' cell' :
  local_trans locked i st cell st' cell' ->
  steps_left locked st = S (steps_left locked st').
Proof.
  destruct 1; unfold steps_left; cbn; try lia. destruct locked; cbn; lia.
Qed.

(** ** The invariant of the locked increments *)

Lemma locked_inv_step t v0 N sts cell i st st' cell' :
  locked_inv t v0 N sts cell ->
  sts !! i = Some st ->
  of_kind true (fst st) = true ->
  local_trans true i st cell st' cell' ->
  locked_inv t v0 N (<[i:=st']> sts) cell'.
Proof.
  intros [Hheld Howner Hread Hsum Htyp] Hi Hkind Htr.
  assert (total_work (<[i:=st']> sts) + work st = total_work sts + work st')%nat as Hw.
  { by apply sum_list_fmap_insert. }
  assert (forall j st0, <[i:=st']> sts !! j = Some st0 ->
            (j = i /\ st0 = st') \/ (j <> i /\ sts !! j = Some st0)) as Hcases.
  { intros j st0 Hj.
    apply list_lookup_insert_Some in Hj as [(-> & -> & _)|[? ?]]; [by left | by right]. }
  assert (<[i:=st']> sts !! i = Some st') as Hnew.
  { apply list_lookup_insert_eq. by eapply lookup_lt_Some. }
  assert (exists k, (k + total_work (<[i:=st']> sts) = N)%nat
                    /\ value cell' = incr_n (typ cell) k v0) as Hsum'.
  { destruct Hsum as (k & Hk & Hv).
    inversion Htr; subst; cbn in Hkind; try done;
      unfold work in Hw; cbn [fst snd pending] in Hw;
      try (exists k; split; [lia | done]).
    exists (S k). split; [lia|]. cbn [value].
    by rewrite (Hread i _ _ Hi), Hv. }
  assert (typ cell' = typ cell) as Htyp'.
  { by inversion Htr; subst. }
  clear Hsum Hw.
  inversion Htr; subst; cbn in Hkind; try done.
  - (* init *)
    split; [| | | done | done].
    + intros j st0 Hj Hh. apply Hcases in Hj as [[-> ->]|[? Hj]]; [done | eauto].
    + intros j d Hl. destruct (Howner j d Hl) as (st0 & Hj & Hh).
      destruct (decide (j = i)) as [->|]; [by simplify_eq|].
      exists st0. by rewrite list_lookup_insert_ne.
    + intros j n0 v Hj. apply Hcases in Hj as [[-> ?]|[? Hj]]; [done | eauto].
  - (* next *)
    split; [| | | done | done].
    + intros j st0 Hj Hh. apply Hcases in Hj as [[-> ->]|[? Hj]]; [done | eauto].
    + intros j d Hl. destruct (Howner j d Hl) as (st0 & Hj & Hh).
      destruct (decide (j = i)) as [->|]; [by simplify_eq|].
      exists st0. by rewrite list_lookup_insert_ne.
    + intros j n0 v Hj. apply Hcases in Hj as [[-> ?]|[? Hj]]; [done | eauto].
  - (* load *)
    split; [| | | done | done].
    + intros j st0 Hj Hh. apply Hcases in Hj as [[-> ->]|[? Hj]]; [done | eauto].
    + intros j d Hl. destruct (Howner j d Hl) as (st0 & Hj & Hh).
      destruct (decide (j = i)) as [->|]; [by simplify_eq|].
      exists st0. by rewrite list_lookup_insert_ne.
    + intros j n0 v Hj. apply Hcases in Hj as [[-> ?]|[? Hj]]; [done | eauto].
  - (* acquire *)
    assert (forall j st0, sts !! j = Some st0 -> holds (fst st0) = false) as Hnone.
    { intros j st0 Hj. destruct (holds (fst st0)) eqn:Hh; [|done].
      pose proof (Hheld j st0 Hj Hh). congruence. }
    split; cbn [lock value]; [| | | done | done].
    + intros j st0 Hj Hh. apply Hcases in Hj as [[-> ->]|[? Hj]]; [done|].
      by rewrite (Hnone j st0 Hj) in Hh.
    + intros j d [= -> <-]. by exists (PLoad2, n).
    + intros j n0 v Hj. apply Hcases in Hj as [[-> ?]|[? Hj]]; [done|].
      by specialize (Hnone j _ Hj).
  - (* load2 *)
    split; [| | | done | done].
    + intros j st0 Hj Hh. apply Hcases in Hj as [[-> ->]|[? Hj]]; eauto.
    + intros j d Hl. destruct (Howner j d Hl) as (st0 & Hj & Hh).
      destruct (decide (j = i)) as [->|]; [by exists (PGet, n)|].
      exists st0. by rewrite list_lookup_insert_ne.
    + intros j n0 v Hj. apply Hcases in Hj as [[-> ?]|[? Hj]]; [done | eauto].
  - (* get *)
    split; [| | | done | done].
    + intros j st0 Hj Hh. apply Hcases in Hj as [[-> ->]|[? Hj]]; eauto.
    + intros j d Hl. destruct (Howner j d Hl) as (st0 & Hj & Hh).
      destruct (decide (j = i)) as [->|]; [by exists (PSet (value cell'), n)|].
      exists st0. by rewrite list_lookup_insert_ne.
    + intros j n0 v Hj. apply Hcases in Hj as [[-> ?]|[? Hj]]; [by simplify_eq | eauto].
  - (* set *)
    pose proof (Hheld i _ Hi eq_refl) as Hl.
    pose proof (Hread i _ _ Hi) as ->.
    split; cbn [lock value]; [| | | done | done].
    + intros j st0 Hj Hh. apply Hcases in Hj as [[-> ->]|[? Hj]]; eauto.
    + intros j d Hl'. rewrite Hl in Hl'. injection Hl' as <- <-.
      by exists (PRelease, n).
    + intros j n0 v Hj. apply Hcases in Hj as [[-> ?]|[Hne Hj]]; [done|].
      pose proof (Hheld j _ Hj eq_refl) as Hl'. congruence.
  - (* release *)
    pose proof (Hheld i _ Hi eq_refl) as Hl.
    split; cbn [lock value]; [| | | done | done].
    + intros j st0 Hj Hh. apply Hcases in Hj as [[-> ->]|[Hne Hj]]; [done|].
      pose proof (Hheld j _ Hj Hh) as Hl'. congruence.
    + done.
    + intros j n0 v Hj. apply Hcases in Hj as [[-> ?]|[Hne Hj]]; [done|].
      pose proof (Hheld j _ Hj eq_refl) as Hl'. congruence.
Qed.

(** ** The invariant of the unlocked increments *)

Lemma nolock_inv_step lk t v0 N sts cell i st st' cell' :
  nolock_inv lk t v0 N sts cell ->
  sts !! i = Some st ->
  of_kind false (fst st) = true ->
  local_trans false i st cell st' cell' ->
  nolock_inv lk t v0 N (<[i:=st']> sts) cell'.
Proof.
  intros [Hval Hread Hlock Htyp] Hi Hkind Htr.
  assert (total_work (<[i:=st']> sts) + work st = total_work sts + work st')%nat as Hw.
  { by apply sum_list_fmap_insert. }
  assert (forall j st0, <[i:=st']> sts !! j = Some st0 ->
            (j = i /\ st0 = st') \/ (j <> i /\ sts !! j = Some st0)) as Hcases.
  { intros j st0 Hj.
    apply list_lookup_insert_Some in Hj as [(-> & -> & _)|[? ?]]; [by left | by right]. }
  assert (forall j n0 v, j <> i -> sts !! j = Some (QSet v, n0) ->
            (total_work (<[i:=st']> sts) <= total_work sts)%nat ->
            exists k, (k + total_work (<[i:=st']> sts) <= N)%nat
                      /\ v = incr_n (typ cell) k v0) as Hother.
  { intros j n0 v _ Hj Hle. destruct (Hread j n0 v Hj) as (k' & Hk' & Hv').
    exists k'. split; [lia | by rewrite Htyp]. }
  destruct Hval as (k & Hk & Hone & Hv).
  inversion Htr; subst; cbn in Hkind; try done;
    unfold work in Hw; cbn [fst snd pending] in Hw;
    (split; cbn [lock value typ]; [| | done | done]).
  - exists k. split_and!; [lia | lia | done].
  - intros j n0 v Hj. apply Hcases in Hj as [[-> ?]|[? Hj]]; [done|].
    apply (Hother j n0 v); [done | done | lia].
  - exists k. split_and!; [lia | lia | done].
  - intros j n0 v Hj. apply Hcases in Hj as [[-> ?]|[? Hj]]; [done|].
    apply (Hother j n0 v); [done | done | lia].
  - exists k. split_and!; [lia | lia | done].
  - intros j n0 v Hj. apply Hcases in Hj as [[-> ?]|[? Hj]]; [done|].
    apply (Hother j n0 v); [done | done | lia].
  - exists k. split_and!; [lia | lia | done].
  - intros j n0 v Hj. apply Hcases in Hj as [[-> ?]|[? Hj]].
    + simplify_eq. exists k. split; [lia | done].
    + apply (Hother j n0 v); [done | done | lia].
  - destruct (Hread i n v Hi) as (k' & Hk' & ->).
    exists (S k'). split_and!; [lia | lia | done].
  - intros j n0 v0' Hj. apply Hcases in Hj as [[-> ?]|[? Hj]]; [done|].
    apply (Hother j n0 v0'); [done | done | lia].
Qed.

Lemma forallb_false_lookup {A} (f : A -> bool) (l : list A) :
  forallb f l = false -> exists i x, l !! i = Some x /\ f x = false.
Proof.
  induction l as [|a l IH]; [done|]. cbn. destruct (f a) eqn:Hfa.
  - intros Hl. destruct (IH Hl) as (i & x & Hi & Hx). by exists (S i), x.
  - intros _. by exists 0%nat, a.
Qed.

Lemma exec_app {L : NumericLibrary} (s1 s2 : list nat) (cfg : config) :
  exec (s1 ++ s2) cfg =
  match exec s1 cfg with
  | Some cfg' => exec s2 cfg'
  | None => None
  end.
Proof.
  revert cfg. induction s1 as [|i s1 IH]; intros cfg; [done|].
  cbn. by destruct (step_at i cfg).
Qed.

(** ** Processes and points, step by step *)

Section Simulation.
Context {L : NumericLibrary}.
Variables (c : nat) (locked : bool).

Lemma sim_at_step sts cell cfg i st cfg' :
  sim_at c locked sts cell cfg ->
  sts !! i = Some st ->
  (holds (fst st) = true -> lock cell = Some (i, 0%nat)) ->
  (fst st = PAcquire -> forall d, lock cell <> Some (i, d)) ->
  (unlocked_access (fst st) = true -> available i (lock cell) = true) ->
  step_at i cfg = Some cfg' ->
  exists st' cell',
    local_trans locked i st cell st' cell'
    /\ of_kind locked (fst st) = true
    /\ sim_at c locked (<[i:=st']> sts) cell' cfg'
    /\ blocks (shared cfg') = blocks (shared cfg).
Proof.
  intros [Hc Hall] Hi Hheld Hfree Hacc Hstep. unfold step_at in Hstep.
  destruct (Forall2_lookup_r _ _ _ _ _ Hall Hi) as (p & Hp & Hok).
  rewrite Hp in Hstep.
  destruct (step_proc i p (shared cfg)) as [[p' h']|] eqn:Hsp; [|done].
  injection Hstep as <-.
  destruct (step_proc_point c locked i p st _ cell p' h' Hok Hc Hheld Hfree Hacc Hsp)
    as (st' & cell' & Htr & Hok' & Hc' & Hb).
  exists st', cell'. split_and!; try done.
  - by destruct Hok as (_ & _ & ? & _).
  - split; [done|]. by apply Forall2_insert.
Qed.

Lemma sim_at_enabled sts cell cfg i st :
  sim_at c locked sts cell cfg ->
  sts !! i = Some st ->
  (holds (fst st) = true -> lock cell = Some (i, 0%nat)) ->
  (fst st = PAcquire -> lock cell = None) ->
  (unlocked_access (fst st) = true -> available i (lock cell) = true) ->
  st <> (PIdle, 0%nat) ->
  is_Some (step_at i cfg).
Proof.
  intros [Hc Hall] Hi Hheld Hfree Hacc Hst. unfold step_at.
  destruct (Forall2_lookup_r _ _ _ _ _ Hall Hi) as (p & Hp & Hok).
  rewrite Hp.
  destruct (step_proc_enabled c locked i p st _ cell Hok Hc Hheld Hfree Hacc Hst)
    as [[p' h'] ->].
  done.
Qed.

Lemma sim_at_finished sts cell cfg :
  sim_at c locked sts cell cfg -> finished cfg = true -> Forall (fun st => st = (PIdle, 0%nat)) sts.
Proof.
  intros [_ Hall] Hfin. unfold finished in Hfin.
  rewrite forallb_forall in Hfin.
  apply Forall_lookup. intros i st Hi.
  destruct (Forall2_lookup_r _ _ _ _ _ Hall Hi) as (p & Hp & Hok).
  eapply finished_point; [done|].
  apply Hfin. apply list_elem_of_In. by eapply list_elem_of_lookup_2.
Qed.

Lemma sim_at_unfinished sts cell cfg :
  sim_at c locked sts cell cfg -> finished cfg = false ->
  exists i st, sts !! i = Some st /\ st <> (PIdle, 0%nat).
Proof.
  intros [_ Hall] Hfin. apply forallb_false_lookup in Hfin as (i & p & Hp & Hpf).
  destruct (Forall2_lookup_l _ _ _ _ _ Hall Hp) as (st & Hi & Hok).
  exists i, st. split; [done|]. intros ->.
  destruct p as [w cur todo]. destruct Hok as (Hcur & Htodo & _).
  cbn in Hcur, Htodo. subst. by cbn in Hpf.
Qed.

(** An invariant [AI] on points and cell that knows who holds the lock
    and is kept by every step carries over to every execution. *)
Variable AI : list (point * nat) -> counter_cell -> Prop.
Hypothesis AI_held : forall sts cell i st,
  AI sts cell -> sts !! i = Some st -> of_kind locked (fst st) = true ->
  holds (fst st) = true -> lock cell = Some (i, 0%nat).
Hypothesis AI_acquire : forall sts cell i st,
  AI sts cell -> sts !! i = Some st -> of_kind locked (fst st) = true ->
  fst st = PAcquire -> forall d, lock cell <> Some (i, d).
Hypothesis AI_access : forall sts cell i st,
  AI sts cell -> sts !! i = Some st -> of_kind locked (fst st) = true ->
  unlocked_access (fst st) = true -> available i (lock cell) = true.
Hypothesis AI_step : forall sts cell i st st' cell',
  AI sts cell -> sts !! i = Some st -> of_kind locked (fst st) = true ->
  local_trans locked i st cell st' cell' -> AI (<[i:=st']> sts) cell'.
Hypothesis AI_enabled : forall sts cell,
  AI sts cell ->
  (forall i st, sts !! i = Some st -> of_kind locked (fst st) = true) ->
  forall i st, sts !! i = Some st -> st <> (PIdle, 0%nat) ->
  exists j st', sts !! j = Some st' /\ st' <> (PIdle, 0%nat)
                /\ (fst st' = PAcquire -> lock cell = None).

Lemma sim_kind sts cell cfg i st :
  sim_at c locked sts cell cfg -> sts !! i = Some st -> of_kind locked (fst st) = true.
Proof.
  intros [_ Hall] Hi.
  destruct (Forall2_lookup_r _ _ _ _ _ Hall Hi) as (p & _ & Hok).
  by destruct Hok as (_ & _ & ? & _).
Qed.

Lemma sim_step m cfg i cfg' :
  sim c locked AI m cfg -> step_at i cfg = Some cfg' ->
  exists m', m = S m' /\ sim c locked AI m' cfg'
             /\ blocks (shared cfg') = blocks (shared cfg).
Proof.
  intros (sts & cell & Hsim & HAI & Hm) Hstep.
  assert (exists st, sts !! i = Some st) as [st Hi].
  { unfold step_at in Hstep. destruct (procs cfg !! i) as [p|] eqn:Hp; [|done].
    destruct Hsim as [_ Hall].
    destruct (Forall2_lookup_l _ _ _ _ _ Hall Hp) as (st & Hi & _). by exists st. }
  pose proof (sim_kind _ _ _ _ _ Hsim Hi) as Hkind.
  destruct (sim_at_step sts cell cfg i st cfg' Hsim Hi) as
    (st' & cell' & Htr & _ & Hsim' & Hb); try done.
  { by apply (AI_held sts). }
  { by apply (AI_acquire sts). }
  { by apply (AI_access sts). }
  exists (total_steps locked (<[i:=st']> sts)). split_and!; [| | done].
  - pose proof (sum_list_fmap_insert (steps_left locked) sts i st st' Hi) as Hs.
    rewrite (local_trans_steps _ _ _ _ _ _ Htr) in Hs.
    unfold total_steps in *. lia.
  - exists (<[i:=st']> sts), cell'. split_and!; [done | by eapply AI_step | done].
Qed.

Lemma sim_exec sched m cfg cfg' :
  sim c locked AI m cfg -> exec sched cfg = Some cfg' ->
  exists m', m = (length sched + m')%nat /\ sim c locked AI m' cfg'
             /\ blocks (shared cfg') = blocks (shared cfg).
Proof.
  revert m cfg. induction sched as [|i sched IH]; intros m cfg Hsim Hexec.
  - injection Hexec as <-. by exists m.
  - cbn in Hexec. destruct (step_at i cfg) as [cfg1|] eqn:Hstep; [|done].
    destruct (sim_step m cfg i cfg1 Hsim Hstep) as (m1 & -> & Hsim1 & Hb1).
    destruct (IH m1 cfg1 Hsim1 Hexec) as (m' & -> & Hsim' & Hb').
    exists m'. split_and!; [cbn; lia | done | congruence].
Qed.

(** As long as a process has something left to do, some process can take
    a step. *)
Lemma sim_progress m cfg :
  sim c locked AI m cfg -> finished cfg = false -> exists i, is_Some (step_at i cfg).
Proof.
  intros (sts & cell & Hsim & HAI & Hm) Hfin.
  destruct (sim_at_unfinished sts cell cfg Hsim Hfin) as (i & st & Hi & Hst).
  destruct (AI_enabled sts cell HAI (fun k s => sim_kind sts cell cfg k s Hsim) i st Hi Hst)
    as (j & st' & Hj & Hst' & Hfree).
  exists j. eapply sim_at_enabled; [done | done | | done | | done].
  - apply (AI_held sts cell j st' HAI Hj). by eapply sim_kind.
  - apply (AI_access sts cell j st' HAI Hj). by eapply sim_kind.
Qed.

(** Every execution can be carried on to the end. *)
Lemma sim_can_finish m cfg :
  sim c locked AI m cfg ->
  exists sched cfg', exec sched cfg = Some cfg' /\ finished cfg' = true.
Proof.
  revert cfg. induction m as [|m IH]; intros cfg Hsim.
  - destruct (finished cfg) eqn:Hfin; [by exists [], cfg|].
    destruct (sim_progress _ _ Hsim Hfin) as (i & cfg1 & Hstep).
    by destruct (sim_step _ _ _ _ Hsim Hstep) as (m' & ? & _).
  - destruct (finished cfg) eqn:Hfin; [by exists [], cfg|].
    destruct (sim_progress _ _ Hsim Hfin) as (i & cfg1 & Hstep).
    destruct (sim_step _ _ _ _ Hsim Hstep) as (m' & [= <-] & Hsim1 & _).
    destruct (IH cfg1 Hsim1) as (sched & cfg' & Hexec & Hfin').
    exists (i :: sched), cfg'. cbn. by rewrite Hstep.
Qed.

End Simulation.

(** ** A pool of worker processes *)

Section Pool.
Context {L : NumericLibrary}.

Lemma map_call_of locked {T} (args : list T) :
  map (call_of locked) args = replicate (length args) (task locked).
Proof.
  induction args as [|a args IH]; [done|]. cbn. rewrite IH.
  by destruct locked.
Qed.

Lemma total_work_start {T} (ws : list (rng * list T)) :
  total_work (start_points ws) = calls ws.
Proof.
  unfold total_work, start_points, calls.
  induction ws as [|w ws IH]; [done|]. csimpl. rewrite IH. unfold work. cbn. lia.
Qed.

Lemma total_steps_start locked {T} (ws : list (rng * list T)) :
  total_steps locked (start_points ws) = (length ws + cost locked * calls ws)%nat.
Proof.
  unfold total_steps, start_points, calls.
  induction ws as [|w ws IH]; [cbn; lia|]. csimpl. rewrite IH.
  unfold steps_left. cbn [fst snd rank]. lia.
Qed.

Lemma start_points_lookup {T} (ws : list (rng * list T)) i st :
  start_points ws !! i = Some st -> fst st = PInit.
Proof.
  unfold start_points. rewrite list_lookup_fmap.
  destruct (ws !! i); [|done]. by intros [= <-].
Qed.

Lemma sim_at_start c locked {T} (ws : list (rng * list T)) h cell :
  counters h !! c = Some cell ->
  sim_at c locked (start_points ws) cell
    (pool_start (counter_init c) (call_of locked) ws h).
Proof.
  intros Hc. split; [done|]. unfold pool_start, start_points. cbn [procs].
  apply Forall2_fmap_2. induction ws as [|w ws IH]; constructor; [|done].
  unfold proc_ok, spawn. cbn. split_and!; try done. apply map_call_of.
Qed.

(** *** Locked increments *)

Lemma locked_inv_start {T} (ws : list (rng * list T)) t v0 :
  locked_inv t v0 (calls ws) (start_points ws)
    {| typ := t; value := v0; lock := None |}.
Proof.
  split; cbn [typ value lock]; try done.
  - intros j st Hj Hh. apply start_points_lookup in Hj.
    by rewrite Hj in Hh.
  - intros j n v Hj. by apply start_points_lookup in Hj.
  - exists 0%nat. by rewrite total_work_start.
Qed.

Lemma locked_inv_acquire t v0 N sts cell i st :
  locked_inv t v0 N sts cell -> sts !! i = Some st ->
  fst st = PAcquire -> forall d, lock cell <> Some (i, d).
Proof.
  intros HI Hi Hpt d Hl. destruct (li_owner _ _ _ _ _ HI i d Hl) as (st' & Hi' & Hh).
  rewrite Hi in Hi'. injection Hi' as <-. by rewrite Hpt in Hh.
Qed.

Lemma locked_inv_enabled t v0 N sts cell i st :
  locked_inv t v0 N sts cell -> sts !! i = Some st -> st <> (PIdle, 0%nat) ->
  exists j st', sts !! j = Some st' /\ st' <> (PIdle, 0%nat)
                /\ (fst st' = PAcquire -> lock cell = None).
Proof.
  intros HI Hi Hst. destruct (lock cell) as [[j d]|] eqn:Hl.
  - destruct (li_owner _ _ _ _ _ HI j d Hl) as (st' & Hj & Hh).
    exists j, st'. split_and!; [done | by intros -> |].
    intros Hpt. by rewrite Hpt in Hh.
  - by exists i, st.
Qed.

(** When no increment is left and no process is inside the statement,
    the counter holds the initial value incremented [N] times and the
    lock is free. *)
Lemma locked_inv_end t v0 N sts cell :
  locked_inv t v0 N sts cell ->
  total_work sts = 0%nat ->
  (forall j st, sts !! j = Some st -> holds (fst st) = false) ->
  cell = {| typ := t; value := incr_n t N v0; lock := None |}.
Proof.
  intros HI Hw Hout. destruct (li_sum _ _ _ _ _ HI) as (k & Hk & Hv).
  pose proof (li_typ _ _ _ _ _ HI) as Ht.
  destruct cell as [t' v lk]. cbn in *. subst t'.
  replace k with N in Hv by lia. subst v. f_equal.
  destruct lk as [[j d]|]; [|done].
  destruct (li_owner _ _ _ _ _ HI j d eq_refl) as (st & Hj & Hh).
  by rewrite (Hout j st Hj) in Hh.
Qed.

Lemma in_section_holds c p st :
  proc_ok c true p st -> in_section p = true -> holds (fst st) = true.
Proof.
  destruct st as [pt n]. destruct p as [w cur todo].
  intros (Hcur & _ & Hkind & _). cbn in Hcur, Hkind. subst cur.
  unfold in_section. cbn [p_cur]. by destruct pt.
Qed.

Lemma locked_sim_start c {T} (ws : list (rng * list T)) h t v0 :
  counters h !! c = Some {| typ := t; value := v0; lock := None |} ->
  sim c true (locked_inv t v0 (calls ws))
    (length ws + 7 * calls ws)
    (pool_start (counter_init c) counter ws h).
Proof.
  intros Hc. exists (start_points ws), {| typ := t; value := v0; lock := None |}.
  split_and!.
  - by apply (sim_at_start c true).
  - apply locked_inv_start.
  - apply (total_steps_start true).
Qed.

Lemma locked_access t v0 N sts cell i (st : point * nat) :
  locked_inv t v0 N sts cell ->
  sts !! i = Some st -> of_kind true (fst st) = true ->
  unlocked_access (fst st) = true -> available i (lock cell) = true.
Proof. destruct st as [[] n]; intros _ _ Hk Hq; by cbn in *. Qed.

Lemma locked_sim_exec c t v0 N sched m cfg cfg' :
  sim c true (locked_inv t v0 N) m cfg -> exec sched cfg = Some cfg' ->
  exists m', m = (length sched + m')%nat /\ sim c true (locked_inv t v0 N) m' cfg'.
Proof.
  intros Hsim Hexec.
  destruct (sim_exec c true (locked_inv t v0 N)) with (sched := sched) (m := m)
    (cfg := cfg) (cfg' := cfg') as (m' & Hm & Hsim' & _); try done.
  - intros sts cell i st HI Hi _ Hh. by eapply li_held.
  - intros sts cell i st HI Hi _ Hpt. by eapply locked_inv_acquire.
  - intros sts cell i st. apply locked_access.
  - intros. by eapply locked_inv_step.
  - by exists m'.
Qed.

Lemma locked_sim_progress c t v0 N m cfg :
  sim c true (locked_inv t v0 N) m cfg -> finished cfg = false ->
  exists i, is_Some (step_at i cfg).
Proof.
  apply (sim_progress c true (locked_inv t v0 N)).
  - intros sts cell i st HI Hi _ Hh. by eapply li_held.
  - intros sts cell i st. apply locked_access.
  - intros sts cell HI _ i st Hi Hst. by eapply locked_inv_enabled.
Qed.

Lemma locked_sim_can_finish c t v0 N m cfg :
  sim c true (locked_inv t v0 N) m cfg ->
  exists sched cfg', exec sched cfg = Some cfg' /\ finished cfg' = true.
Proof.
  apply (sim_can_finish c true (locked_inv t v0 N)).
  - intros sts cell i st HI Hi _ Hh. by eapply li_held.
  - intros sts cell i st HI Hi _ Hpt. by eapply locked_inv_acquire.
  - intros sts cell i st. apply locked_access.
  - intros. by eapply locked_inv_step.
  - intros sts cell HI _ i st Hi Hst. by eapply locked_inv_enabled.
Qed.

Lemma total_work_idle (sts : list (point * nat)) :
  Forall (fun st => st = (PIdle, 0%nat)) sts -> total_work sts = 0%nat.
Proof.
  unfold total_work. induction 1 as [|st sts' -> _ IH]; [done|]. csimpl. by rewrite IH.
Qed.

(** C1, as the code has it.  A pool of any number of worker processes,
    each started by [counter_init c] on a counter of any integer type
    that holds [v0] with its lock free, and given any number of calls of
    [counter]; [N] calls in all.  Under every schedule of the steps of
    the processes:
    - when all the calls are over, the counter holds [v0 + N] cut to the
      width of its cell, and the lock is free: no increment is lost;
    - so it holds [v0 + N] whenever that is a value of its type;
    - until then some process can take a step, so no execution is stuck;
    - an execution has at most [P + 7 N] steps, [P] the number of
      processes, so every execution ends;
    - at no moment are two processes between the reading and the writing
      of the value: the updates are serialized;
    - the execution can always be carried on to the end. *)
Theorem counter_concurrent {T} (ws : list (rng * list T)) (c : nat)
    (t : int_type) (v0 : Z) (h : heap) :
  counters h !! c = Some {| typ := t; value := v0; lock := None |} ->
  in_range t v0 ->
  forall sched cfg,
    exec sched (pool_start (counter_init c) counter ws h) = Some cfg ->
    (finished cfg = true ->
       counters (shared cfg) !! c =
       Some {| typ := t; value := wrap t (v0 + Z.of_nat (calls ws)); lock := None |})
    /\ (finished cfg = true -> v0 + Z.of_nat (calls ws) <= c_max t ->
       counters (shared cfg) !! c =
       Some {| typ := t; value := v0 + Z.of_nat (calls ws); lock := None |})
    /\ (finished cfg = false -> exists i, is_Some (step_at i cfg))
    /\ (length sched <= length ws + 7 * calls ws)%nat
    /\ (forall i j p q,
          procs cfg !! i = Some p -> procs cfg !! j = Some q ->
          in_section p = true -> in_section q = true -> i = j)
    /\ (exists sched' cfg',
          exec sched' cfg = Some cfg' /\ finished cfg' = true).
Proof.
  intros Hc Hv sched cfg Hexec.
  pose proof (locked_sim_start c ws h t v0 Hc) as Hsim0.
  destruct (locked_sim_exec c t v0 _ sched _ _ cfg Hsim0 Hexec) as (m' & Hm & Hsim).
  assert (finished cfg = true ->
          counters (shared cfg) !! c =
          Some {| typ := t; value := incr_n t (calls ws) v0; lock := None |}) as Hend.
  { intros Hfin. destruct Hsim as (sts & cell & Hat & HI & _).
    pose proof (sim_at_finished c true sts cell cfg Hat Hfin) as Hidle.
    destruct Hat as [Hcell _]. rewrite Hcell. f_equal.
    apply (locked_inv_end t v0 (calls ws) sts); [done | by apply total_work_idle |].
    intros j st Hj. rewrite Forall_lookup in Hidle. by rewrite (Hidle j st Hj). }
  split_and!.
  - intros Hfin. by rewrite (Hend Hfin), incr_n_wrap.
  - intros Hfin Hfit. by rewrite (Hend Hfin), incr_n_exact.
  - intros Hfin. by eapply locked_sim_progress.
  - lia.
  - intros i j p q Hp Hq Hip Hiq.
    destruct Hsim as (sts & cell & [_ Hall] & HI & _).
    destruct (Forall2_lookup_l _ _ _ _ _ Hall Hp) as (sp & Hsp & Hokp).
    destruct (Forall2_lookup_l _ _ _ _ _ Hall Hq) as (sq & Hsq & Hokq).
    pose proof (li_held _ _ _ _ _ HI i sp Hsp (in_section_holds c p sp Hokp Hip)).
    pose proof (li_held _ _ _ _ _ HI j sq Hsq (in_section_holds c q sq Hokq Hiq)).
    congruence.
  - by eapply locked_sim_can_finish.
Qed.

(** *** Unlocked increments *)

Lemma nolock_kind_held (st : point * nat) :
  of_kind false (fst st) = true -> holds (fst st) = true -> False.
Proof. destruct st as [[] n]; by cbn. Qed.

Lemma nolock_kind_acquire (st : point * nat) :
  of_kind false (fst st) = true -> fst st = PAcquire -> False.
Proof. destruct st as [[] n]; by cbn. Qed.

Lemma nolock_inv_start {T} (ws : list (rng * list T)) cell :
  nolock_inv (lock cell) (typ cell) (value cell) (calls ws) (start_points ws) cell.
Proof.
  split; [| | done | done].
  - exists 0%nat. rewrite total_work_start. split_and!; [lia | lia | done].
  - intros j n v Hj. by apply start_points_lookup in Hj.
Qed.

Lemma nolock_sim_exec c t v0 N sched m cfg cfg' :
  sim c false (nolock_inv None t v0 N) m cfg -> exec sched cfg = Some cfg' ->
  exists m', m = (length sched + m')%nat /\ sim c false (nolock_inv None t v0 N) m' cfg'.
Proof.
  intros Hsim Hexec.
  destruct (sim_exec c false (nolock_inv None t v0 N)) with (sched := sched) (m := m)
    (cfg := cfg) (cfg' := cfg') as (m' & Hm & Hsim' & _); try done.
  - intros sts cell i st _ _ Hk Hh. by destruct (nolock_kind_held st).
  - intros sts cell i st _ _ Hk Hpt. by destruct (nolock_kind_acquire st).
  - intros sts cell i st HI _ _ _. by rewrite (ni_lock _ _ _ _ _ _ HI).
  - intros. by eapply nolock_inv_step.
  - by exists m'.
Qed.

Lemma nolock_sim_progress c t v0 N m cfg :
  sim c false (nolock_inv None t v0 N) m cfg -> finished cfg = false ->
  exists i, is_Some (step_at i cfg).
Proof.
  apply (sim_progress c false (nolock_inv None t v0 N)).
  - intros sts cell i st _ _ Hk Hh. by destruct (nolock_kind_held st).
  - intros sts cell i st HI _ _ _. by rewrite (ni_lock _ _ _ _ _ _ HI).
  - intros sts cell _ Hk i st Hi Hst. exists i, st.
    split_and!; [done | done |]. intros Hpt.
    by destruct (nolock_kind_acquire st (Hk i st Hi)).
Qed.

Lemma nolock_sim_can_finish c t v0 N m cfg :
  sim c false (nolock_inv None t v0 N) m cfg ->
  exists sched cfg', exec sched cfg = Some cfg' /\ finished cfg' = true.
Proof.
  apply (sim_can_finish c false (nolock_inv None t v0 N)).
  - intros sts cell i st _ _ Hk Hh. by destruct (nolock_kind_held st).
  - intros sts cell i st _ _ Hk Hpt. by destruct (nolock_kind_acquire st).
  - intros sts cell i st HI _ _ _. by rewrite (ni_lock _ _ _ _ _ _ HI).
  - intros. by eapply nolock_inv_step.
  - intros sts cell _ Hk i st Hi Hst. exists i, st.
    split_and!; [done | done |]. intros Hpt.
    by destruct (nolock_kind_acquire st (Hk i st Hi)).
Qed.

(** What every execution of a pool of unlocked increments keeps: the
    counter holds the initial value incremented [k] times, with [k] at
    most the number of calls, and at least 1 once the calls are over and
    there was one. *)
Lemma nolock_pool c {T} (ws : list (rng * list T)) t v0 h sched cfg :
  counters h !! c = Some {| typ := t; value := v0; lock := None |} ->
  exec sched (pool_start (counter_init c) counter_nolock ws h) = Some cfg ->
  (exists cell k,
     counters (shared cfg) !! c = Some cell
     /\ typ cell = t /\ lock cell = None
     /\ (k <= calls ws)%nat
     /\ value cell = incr_n t k v0
     /\ (finished cfg = true -> (0 < calls ws)%nat -> (1 <= k)%nat))
  /\ (finished cfg = false -> exists i, is_Some (step_at i cfg))
  /\ (length sched <= length ws + 4 * calls ws)%nat.
Proof.
  intros Hc Hexec.
  assert (sim c false (nolock_inv None t v0 (calls ws))
            (length ws + 4 * calls ws)
            (pool_start (counter_init c) counter_nolock ws h)) as Hsim0.
  { exists (start_points ws), {| typ := t; value := v0; lock := None |}. split_and!.
    - by apply (sim_at_start c false).
    - apply (nolock_inv_start ws {| typ := t; value := v0; lock := None |}).
    - apply (total_steps_start false). }
  destruct (nolock_sim_exec c t v0 _ sched _ _ cfg Hsim0 Hexec) as (m' & Hm & Hsim).
  split_and!.
  - destruct Hsim as (sts & cell & Hat & HI & _).
    destruct (ni_value _ _ _ _ _ _ HI) as (k & Hk & Hone & Hv).
    exists cell, k. split_and!; try done.
    + by destruct Hat.
    + by eapply ni_typ.
    + by eapply ni_lock.
    + lia.
    + intros Hfin HN. apply Hone.
      rewrite (total_work_idle sts); [done|].
      by eapply sim_at_finished.
  - intros Hfin. by eapply nolock_sim_progress.
  - lia.
Qed.

(** A process that runs [counter_nolock] can always take its next step. *)
Lemma nolock_move c sts cell cfg i st :
  sim_at c false sts cell cfg ->
  lock cell = None ->
  sts !! i = Some st ->
  st <> (PIdle, 0%nat) ->
  exists cfg' st' cell',
    step_at i cfg = Some cfg'
    /\ local_trans false i st cell st' cell'
    /\ sim_at c false (<[i:=st']> sts) cell' cfg'.
Proof.
  intros Hsim Hfree Hi Hst.
  pose proof (sim_kind c false sts cell cfg i st Hsim Hi) as Hkind.
  destruct (sim_at_enabled c false sts cell cfg i st Hsim Hi) as [cfg' Hstep];
    try done.
  { intros Hh. by destruct (nolock_kind_held st). }
  { intros _. by rewrite Hfree. }
  destruct (sim_at_step c false sts cell cfg i st cfg' Hsim Hi)
    as (st' & cell' & Htr & _ & Hsim' & _); try done.
  { intros Hh. by destruct (nolock_kind_held st). }
  { intros Hpt. by destruct (nolock_kind_acquire st). }
  { intros _. by rewrite Hfree. }
  by exists cfg', st', cell'.
Qed.

(** From its start, a process alone comes to the point where it has read
    the value: four steps, and the counter is as it was. *)
Lemma nolock_to_read c sts cell cfg i n :
  sim_at c false sts cell cfg ->
  lock cell = None ->
  sts !! i = Some (PInit, S n) ->
  exists cfg',
    exec [i; i; i; i] cfg = Some cfg'
    /\ sim_at c false (<[i:=(QSet (value cell), n)]> sts) cell cfg'.
Proof.
  intros Hsim Hfree Hi. pose proof (lookup_lt_Some _ _ _ Hi) as Hlt.
  destruct (nolock_move c _ _ _ i _ Hsim Hfree Hi)
    as (cfg1 & st1 & cell1 & Hs1 & Ht1 & Hsim1); [done|].
  inversion Ht1; subst.
  destruct (nolock_move c _ _ _ i (PIdle, S n) Hsim1 Hfree)
    as (cfg2 & st2 & cell2 & Hs2 & Ht2 & Hsim2);
    [by apply list_lookup_insert_eq | done |].
  inversion Ht2; subst. rewrite list_insert_insert_eq in Hsim2.
  destruct (nolock_move c _ _ _ i (QLoad, n) Hsim2 Hfree)
    as (cfg3 & st3 & cell3 & Hs3 & Ht3 & Hsim3);
    [by apply list_lookup_insert_eq | done |].
  inversion Ht3; subst. rewrite list_insert_insert_eq in Hsim3.
  destruct (nolock_move c _ _ _ i (QGet, n) Hsim3 Hfree)
    as (cfg4 & st4 & cell4 & Hs4 & Ht4 & Hsim4);
    [by apply list_lookup_insert_eq | done |].
  inversion Ht4; subst. rewrite list_insert_insert_eq in Hsim4.
  exists cfg4. split; [|done]. cbn. by rewrite Hs1, Hs2, Hs3, Hs4.
Qed.

Lemma nolock_write c sts cell cfg i v n :
  sim_at c false sts cell cfg ->
  lock cell = None ->
  sts !! i = Some (QSet v, n) ->
  exists cfg',
    exec [i] cfg = Some cfg'
    /\ sim_at c false (<[i:=(PIdle, n)]> sts)
         {| typ := typ cell; value := wrap (typ cell) (v + 1); lock := lock cell |} cfg'.
Proof.
  intros Hsim Hfree Hi.
  destruct (nolock_move c _ _ _ i _ Hsim Hfree Hi)
    as (cfg1 & st1 & cell1 & Hs1 & Ht1 & Hsim1); [done|].
  inversion Ht1; subst. exists cfg1. split; [|done]. cbn. by rewrite Hs1.
Qed.

(** Two processes read the same value before either writes: one of the
    two increments is lost. *)
Lemma nolock_lost_update c {T} (ws : list (rng * list T)) h t v0 i j ni nj :
  counters h !! c = Some {| typ := t; value := v0; lock := None |} ->
  i <> j ->
  start_points ws !! i = Some (PInit, S ni) ->
  start_points ws !! j = Some (PInit, S nj) ->
  exists sched cfg sts,
    exec sched (pool_start (counter_init c) counter_nolock ws h) = Some cfg
    /\ sim_at c false sts {| typ := t; value := wrap t (v0 + 1); lock := None |} cfg
    /\ nolock_inv None t v0 (calls ws - 1) sts
         {| typ := t; value := wrap t (v0 + 1); lock := None |}
    /\ (2 <= calls ws)%nat.
Proof.
  intros Hc Hij Hi Hj.
  pose proof (sim_at_start c false ws h _ Hc) as Hsim0.
  set (sts0 := start_points ws) in *.
  pose proof (lookup_lt_Some _ _ _ Hi) as Hlti.
  pose proof (lookup_lt_Some _ _ _ Hj) as Hltj.
  destruct (nolock_to_read c _ _ _ i ni Hsim0 eq_refl Hi) as (cfg1 & He1 & Hsim1).
  cbn [value] in Hsim1.
  set (sts1 := <[i:=(QSet v0, ni)]> sts0) in *.
  assert (sts1 !! j = Some (PInit, S nj)) as Hj1.
  { unfold sts1. by rewrite list_lookup_insert_ne. }
  destruct (nolock_to_read c _ _ _ j nj Hsim1 eq_refl Hj1) as (cfg2 & He2 & Hsim2).
  cbn [value] in Hsim2.
  set (sts2 := <[j:=(QSet v0, nj)]> sts1) in *.
  assert (sts2 !! i = Some (QSet v0, ni)) as Hi2.
  { unfold sts2, sts1. rewrite list_lookup_insert_ne by done.
    by apply list_lookup_insert_eq. }
  destruct (nolock_write c _ _ _ i _ _ Hsim2 eq_refl Hi2) as (cfg3 & He3 & Hsim3).
  cbn [typ lock] in Hsim3.
  set (sts3 := <[i:=(PIdle, ni)]> sts2) in *.
  assert (sts3 !! j = Some (QSet v0, nj)) as Hj3.
  { unfold sts3, sts2. rewrite list_lookup_insert_ne by done.
    apply list_lookup_insert_eq. unfold sts1. by rewrite length_insert. }
  destruct (nolock_write c _ _ _ j _ _ Hsim3 eq_refl Hj3) as (cfg4 & He4 & Hsim4).
  cbn [typ lock] in Hsim4.
  set (sts4 := <[j:=(PIdle, nj)]> sts3) in *.
  exists ([i; i; i; i] ++ [j; j; j; j] ++ [i] ++ [j]), cfg4, sts4.
  assert (exec ([i; i; i; i] ++ [j; j; j; j] ++ [i] ++ [j])
            (pool_start (counter_init c) counter_nolock ws h) = Some cfg4) as Hexec.
  { change (call_of false) with (@counter_nolock L T) in He1.
    rewrite exec_app, He1, exec_app, He2, exec_app, He3. exact He4. }
  split; [done|]. split; [done|].
  pose proof (sum_list_fmap_insert work sts0 i _ (QSet v0, ni) Hi) as Hw1.
  pose proof (sum_list_fmap_insert work sts1 j _ (QSet v0, nj) Hj1) as Hw2.
  pose proof (sum_list_fmap_insert work sts2 i _ (PIdle, ni) Hi2) as Hw3.
  pose proof (sum_list_fmap_insert work sts3 j _ (PIdle, nj) Hj3) as Hw4.
  fold sts1 in Hw1. fold sts2 in Hw2. fold sts3 in Hw3. fold sts4 in Hw4.
  pose proof (total_work_start ws) as Hw0. fold sts0 in Hw0.
  unfold total_work in *. unfold work at 2 4 in Hw1. unfold work at 2 4 in Hw2.
  unfold work at 2 4 in Hw3. unfold work at 2 4 in Hw4.
  cbn [fst snd pending] in Hw1, Hw2, Hw3, Hw4.
  split; [|lia].
  split; cbn [typ value lock]; [| | done | done].
  - exists 1%nat. split_and!; [unfold total_work; lia | lia | done].
  - intros k n v Hk. exfalso. unfold sts4, sts3, sts2, sts1 in Hk.
    apply list_lookup_insert_Some in Hk as [(_ & ? & _)|[Hjk Hk]]; [done|].
    apply list_lookup_insert_Some in Hk as [(_ & ? & _)|[Hik Hk]]; [done|].
    apply list_lookup_insert_Some in Hk as [(? & _)|[_ Hk]]; [done|].
    apply list_lookup_insert_Some in Hk as [(? & _)|[_ Hk]]; [done|].
    by apply start_points_lookup in Hk.
Qed.

(** Some complete execution loses an increment. *)
Lemma nolock_pool_loses c {T} (ws : list (rng * list T)) h t v0
    i j gi gj (ai aj : T) argsi argsj :
  counters h !! c = Some {| typ := t; value := v0; lock := None |} ->
  i <> j ->
  ws !! i = Some (gi, ai :: argsi) ->
  ws !! j = Some (gj, aj :: argsj) ->
  exists sched cfg cell k,
    exec sched (pool_start (counter_init c) counter_nolock ws h) = Some cfg
    /\ finished cfg = true
    /\ counters (shared cfg) !! c = Some cell
    /\ (k < calls ws)%nat
    /\ value cell = incr_n t k v0.
Proof.
  intros Hc Hij Hi Hj.
  destruct (nolock_lost_update c ws h t v0 i j (length argsi) (length argsj))
    as (sched1 & cfg1 & sts1 & He1 & Hat1 & HI1 & Hcalls); try done.
  { unfold start_points. by rewrite list_lookup_fmap, Hi. }
  { unfold start_points. by rewrite list_lookup_fmap, Hj. }
  assert (sim c false (nolock_inv None t v0 (calls ws - 1))
            (total_steps false sts1) cfg1) as Hsim1.
  { by exists sts1, {| typ := t; value := wrap t (v0 + 1); lock := None |}. }
  destruct (nolock_sim_can_finish c t v0 _ _ cfg1 Hsim1) as (sched2 & cfg2 & He2 & Hfin).
  destruct (nolock_sim_exec c t v0 _ sched2 _ _ cfg2 Hsim1 He2) as (m' & _ & Hsim2).
  destruct Hsim2 as (sts2 & cell2 & [Hcell2 _] & HI2 & _).
  destruct (ni_value _ _ _ _ _ _ HI2) as (k & Hk & _ & Hv).
  exists (sched1 ++ sched2), cfg2, cell2, k. split_and!; try done.
  - by rewrite exec_app, He1.
  - lia.
Qed.

(** C3. A call of [counter_nolock] reads the value of the counter and
    assigns the value plus 1, which the cell keeps cut to its width; it
    has no step that acquires the lock.  A pool started by
    [counter_init c] on a counter of any integer type that holds [v0]
    with its lock free, and given calls of [counter_nolock], [N] calls in
    all: under every schedule the lock is free after every step and the
    counter holds [v0] incremented [k] times for some [k <= N], with
    [1 <= k] once all the calls are over and there was one; so its value
    never exceeds [v0 + N].  No execution is stuck and none has more than
    [P + 4 N] steps.  Whenever two processes have a call each, some
    schedule runs all the calls to the end and leaves the counter
    strictly below [v0 + N]. *)
Theorem counter_nolock_concurrent {T} (ws : list (rng * list T)) (c : nat)
    (t : int_type) (v0 : Z) (h : heap) :
  counters h !! c = Some {| typ := t; value := v0; lock := None |} ->
  in_range t v0 ->
  (forall (arg : T) me w h1 cell1,
     gbl_counter (w_globals w) = Some c ->
     counters h1 !! c = Some cell1 ->
     available me (lock cell1) = true ->
     run me (counter_nolock arg) w h1 =
     (Done tt, w,
      put_counter c
        {| typ := typ cell1; value := wrap (typ cell1) (value cell1 + 1);
           lock := lock cell1 |} h1))
  /\ (forall sched cfg,
     exec sched (pool_start (counter_init c) counter_nolock ws h) = Some cfg ->
     (exists cell k,
        counters (shared cfg) !! c = Some cell
        /\ typ cell = t
        /\ lock cell = None
        /\ (k <= calls ws)%nat
        /\ value cell = wrap t (v0 + Z.of_nat k)
        /\ (finished cfg = true -> (0 < calls ws)%nat -> (1 <= k)%nat)
        /\ value cell <= v0 + Z.of_nat (calls ws))
     /\ (finished cfg = false -> exists i, is_Some (step_at i cfg))
     /\ (length sched <= length ws + 4 * calls ws)%nat)
  /\ (forall i j gi gj ai aj argsi argsj,
        i <> j ->
        ws !! i = Some (gi, ai :: argsi) ->
        ws !! j = Some (gj, aj :: argsj) ->
        exists sched cfg cell,
          exec sched (pool_start (counter_init c) counter_nolock ws h) = Some cfg
          /\ finished cfg = true
          /\ counters (shared cfg) !! c = Some cell
          /\ value cell < v0 + Z.of_nat (calls ws)).
Proof.
  intros Hc Hv. split_and!.
  - intros arg me w h1 cell1 Hg Hc1 Hav. by apply counter_nolock_call.
  - intros sched cfg Hexec.
    destruct (nolock_pool c ws t v0 h sched cfg Hc Hexec)
      as ((cell & k & Hcell & Ht & Hl & Hk & Hval & Hone) & Hprog & Hlen).
    split_and!; [| done | done].
    exists cell, k. split_and!; try done.
    + by rewrite Hval, incr_n_wrap.
    + rewrite Hval. pose proof (incr_n_le t k v0 Hv). lia.
  - intros i j gi gj ai aj argsi argsj Hij Hi Hj.
    destruct (nolock_pool_loses c ws h t v0 i j gi gj ai aj argsi argsj Hc Hij Hi Hj)
      as (sched & cfg & cell & k & He & Hfin & Hcell & Hk & Hval).
    exists sched, cfg, cell. split_and!; try done.
    rewrite Hval. pose proof (incr_n_le t k v0 Hv). lia.
Qed.

End Pool.

(** * The functions on concrete inputs *)

Lemma sample_zipf_contract : ZipfContract sample_library.
Proof.
  split; cbn; unfold sample_zipf; intros a n g row g' Hz;
    destruct ((a <=? 1) || (n <? 0)) eqn:Hcond; try done;
    injection Hz as <- <-; apply orb_false_iff in Hcond as [_ Hn].
  - rewrite length_map, length_seq. apply Z.ltb_ge in Hn. lia.
  - apply Forall_forall. intros x Hx. apply list_elem_of_fmap in Hx as (k & -> & _). lia.
Qed.

Lemma counter_concurrent_witness :
  counters (shared demo_final) !! 0%nat =
  Some {| typ := c_int; value := wrap c_int (0 + Z.of_nat (calls demo_pool));
          lock := None |}.
Proof.
  refine (proj1 (counter_concurrent (L := sample_library) demo_pool 0%nat c_int 0
                   demo_heap _ _ demo_sched demo_final _) _);
    try (vm_compute; reflexivity).
  unfold in_range, c_min, c_max, half_range; simpl; lia.
Defined.


Lemma counter_nolock_concurrent_witness :
  (forall (arg : Z) me w h1 cell1,
     gbl_counter (w_globals w) = Some 0%nat ->
     counters h1 !! 0%nat = Some cell1 ->
     available me (lock cell1) = true ->
     run (L := sample_library) me (counter_nolock arg) w h1 =
     (Done tt, w,
      put_counter 0
        {| typ := typ cell1; value := wrap (typ cell1) (value cell1 + 1);
           lock := lock cell1 |} h1))
  /\ exists sched cfg cell,
       exec sched (pool_start (L := sample_library) (counter_init 0) counter_nolock
                     demo_nolock_pool demo_heap) = Some cfg
       /\ finished cfg = true
       /\ counters (shared cfg) !! 0%nat = Some cell
       /\ value cell < 0 + Z.of_nat (calls demo_nolock_pool).
Proof.
  refine ((fun H => conj (proj1 H)
             (proj2 (proj2 H) 0%nat 1%nat 0%nat 1%nat 10 20 [] [] _ _ _))
            (counter_nolock_concurrent (L := sample_library) demo_nolock_pool
               0%nat c_int 0 demo_heap _ _));
    [lia | reflexivity | reflexivity | reflexivity
    | unfold in_range, c_min, c_max, half_range; simpl; lia].
Defined.


Lemma random_writes_one_row_witness :
  exists l',
    blocks (snd demo_random_result) !! 0%nat = Some l'
    /\ length l' = 4%nat
    /\ (forall j, 0 <= j -> j <> 1 -> get_row 2 j l' = get_row 2 j [0; 0; 0; 0])
    /\ (forall b', b' <> 0%nat ->
        blocks (snd demo_random_result) !! b' = blocks demo_heap !! b').
Proof.
  refine (random_writes_one_row (L := sample_library) 0%nat 1 2 demo_worker demo_heap
            0%nat 0%nat 2 2 2 [0; 0; 0; 0]
            (fst (fst demo_random_result)) (snd (fst demo_random_result))
            (snd demo_random_result) _ _ _ _ _);
    try reflexivity; lia.
Defined.

Lemma random_index_out_of_bounds_witness :
  run (L := sample_library) 0 (random (L := sample_library) 5 2) demo_worker demo_heap =
  (Raised IndexError, with_rng demo_worker 1%nat, demo_heap).
Proof.
  refine (proj1 (random_index_out_of_bounds (L := sample_library) 0%nat 5 2 demo_worker
                   demo_heap 0%nat 0%nat 2 2 2 [1; 2] 1%nat _ _) _);
    [reflexivity | reflexivity | lia].
Defined.

Lemma sequential_increments_equivalent_witness :
  run_all (L := sample_library) 0
    (counter_init (L := sample_library) 0 :: map increment [(true, 1); (false, 2); (true, 3)])
    (fresh_worker (L := sample_library) 0%nat) demo_heap =
  (Done tt, demo_counter_worker,
   put_counter 0
     {| typ := c_int; value := wrap c_int (0 + Z.of_nat (length [(true, 1); (false, 2); (true, 3)]));
        lock := None |} demo_heap).
Proof.
  refine (proj1 (sequential_increments_equivalent (L := sample_library)
                   [(true, 1); (false, 2); (true, 3)] 0%nat
                   (fresh_worker (L := sample_library) 0%nat)
                   demo_heap 0%nat {| typ := c_int; value := 0; lock := None |} _ _ _));
    [reflexivity | reflexivity
    | unfold in_range, c_min, c_max, half_range; simpl; lia].
Defined.

(** C7 as stated fails: on a buffer of two rows, the index [-1] is not
    a row index in [0, 2), yet the call returns; it has written the
    samples into the last row and incremented the counter. *)
Lemma random_negative_index_accepted :
  ~ (0 <= -1 < 2)
  /\ run_all (L := sample_library) 0 [random_init (L := sample_library) (0%nat, (2, 2)) 0%nat; random (L := sample_library) (-1) 2]
       (fresh_worker (L := sample_library) 0%nat) demo_heap =
     (Done tt, with_rng demo_worker 1%nat,
      {| counters := {[ 0%nat := {| typ := c_int; value := 1; lock := None |} ]};
         blocks := {[ 0%nat := [0; 0; 1; 2] ]} |})
  /\ fst (fst (run (L := sample_library) 0 (random (L := sample_library) (-1) 2) demo_worker demo_heap))
     <> Raised IndexError.
Proof.
  split; [lia|]. split; [reflexivity|]. vm_compute. discriminate.
Qed.

(** C1 as stated fails at the top of the range of the cell.  A counter of
    type ['i'] that holds [2 ** 31 - 1], two processes and three calls
    of [counter] run to the end: the counter holds [- 2 ** 31 + 2], not
    the initial value plus 3. *)
Lemma counter_concurrent_wraps :
  counters (shared demo_top_start) !! 0%nat =
    Some {| typ := c_int; value := 2147483647; lock := None |}
  /\ calls demo_pool = 3%nat
  /\ exec demo_sched demo_top_start = Some demo_top_final
  /\ finished demo_top_final = true
  /\ counters (shared demo_top_final) !! 0%nat =
     Some {| typ := c_int; value := -2147483646; lock := None |}
  /\ -2147483646 <> 2147483647 + 3.
Proof. split_and!; try (vm_compute; reflexivity). lia. Qed.


(** C9 as stated fails at the top of the range of the cell: on a counter
    of type ['B'] that holds 255, a call of [counter] and a call of
    [counter_nolock] leave 1 in it, not the initial value plus 2. *)
Lemma sequential_increments_wrap :
  run_all (L := sample_library) 0
    (counter_init (L := sample_library) 0 :: map increment [(true, 1); (false, 2)])
    (fresh_worker (L := sample_library) 0%nat) demo_heap_byte =
  (Done tt, demo_counter_worker,
   put_counter 0 {| typ := c_ubyte; value := 1; lock := None |} demo_heap_byte)
  /\ 1 <> 255 + 2.
Proof. split; [vm_compute; reflexivity | lia]. Qed.



(** * Further properties of the functions *)

Section Further.
Context {L : NumericLibrary}.

(** ** What the increments touch *)

(** A call of [counter], in every state. *)
Lemma run_counter_cases {T} (arg : T) me w h :
  run me (counter arg) w h =
  match gbl_counter (w_globals w) with
  | None => (Raised (NameError "gbl_counter"), w, h)
  | Some c =>
      match counters h !! c with
      | None => (Stuck, w, h)
      | Some cell =>
          if available me (lock cell)
          then (Done tt, w,
                put_counter c
                    {| typ := typ cell; value := wrap (typ cell) (value cell + 1);
                       lock := lock cell |} h)
          else (Stuck, w, h)
      end
  end.
Proof.
  destruct (gbl_counter (w_globals w)) as [c|] eqn:Hg.
  2:{ unfold counter. by rewrite run_bind, run_load_counter, Hg. }
  destruct (counters h !! c) as [cell|] eqn:Hc.
  2:{ unfold counter. rewrite run_bind, run_load_counter, Hg.
      unfold with_, get_lock, perform. simpl. by rewrite Hc. }
  destruct (available me (lock cell)) eqn:Hav; [by apply counter_returns|].
  destruct (lock cell) as [[p d]|] eqn:Hl; [|done]. cbn in Hav.
  apply bool_decide_eq_false in Hav. by eapply counter_waits.
Qed.

(** A call of [counter_nolock], in every state. *)
Lemma run_counter_nolock_cases {T} (arg : T) me w h :
  run me (counter_nolock arg) w h =
  match gbl_counter (w_globals w) with
  | None => (Raised (NameError "gbl_counter"), w, h)
  | Some c =>
      match counters h !! c with
      | None => (Stuck, w, h)
      | Some cell =>
          if available me (lock cell)
          then (Done tt, w,
                put_counter c
                    {| typ := typ cell; value := wrap (typ cell) (value cell + 1);
                       lock := lock cell |} h)
          else (Stuck, w, h)
      end
  end.
Proof.
  unfold counter_nolock. rewrite run_bind, run_load_counter.
  destruct (gbl_counter (w_globals w)) as [c|]; [|done].
  unfold perform. cbn -[available].
  destruct (counters h !! c) as [cell|] eqn:Hc; [|done].
  destruct (available me (lock cell)) eqn:Hav; [|done].
  cbn -[available]. by rewrite Hc, Hav.
Qed.

(** X1. A call of [counter] or of [counter_nolock], however it ends,
    leaves the worker as it was, writes to no block, and changes no
    counter other than the one [gbl_counter] is bound to. *)
Theorem increments_frame {T} (call : bool * T) me w h r w' h' :
  run me (increment call) w h = (r, w', h') ->
  w' = w
  /\ blocks h' = blocks h
  /\ (forall c, gbl_counter (w_globals w) <> Some c ->
        counters h' !! c = counters h !! c)
  /\ (r <> Done tt -> h' = h).
Proof.
  intros Hrun.
  assert (run me (increment call) w h = run me (counter tt) w h) as Heq.
  { unfold increment. destruct (fst call);
      [done | by rewrite run_counter_nolock_cases, run_counter_cases]. }
  rewrite Heq, run_counter_cases in Hrun.
  destruct (gbl_counter (w_globals w)) as [c0|]; [|by simplify_eq].
  destruct (counters h !! c0) as [cell|]; [|by simplify_eq].
  destruct (available me (lock cell)); [|by simplify_eq].
  injection Hrun as <- <- <-. split_and!; try done.
  intros c Hc. apply lookup_put_counter_ne. congruence.
Qed.

(** ** Failures of the sampling call and of its initializer *)

(** X2. When the sampler raises, [random] raises the same exception to
    its caller, whatever the index: nothing is written to the buffer, the
    lock is not asked for and the counter is not incremented; only the
    generator has moved. *)
Theorem random_sampler_error me (idx : Z) (par : float) w h n e g' :
  gbl_noutput (w_globals w) = Some n ->
  np_random_zipf par n (w_rng w) = (inl e, g') ->
  run me (random idx par) w h = (Raised e, with_rng w g', h).
Proof.
  intros Hn Hz. unfold random.
  by rewrite run_bind, run_load_noutput, Hn, run_bind, run_zipf, Hz.
Qed.

Lemma fix_unknown_dimension_mismatch (size R C : Z) :
  0 <= R -> 0 <= C -> R * C <> size ->
  fix_unknown_dimension size (R, C) = inl ValueError.
Proof.
  intros HR HC Hne. unfold fix_unknown_dimension.
  destruct (Z.ltb_spec R 0); [lia|]. destruct (Z.ltb_spec C 0); [lia|].
  by destruct (Z.eqb_spec (R * C) size).
Qed.

(** X3. [random_init] with a shape of [R] by [C] on a block that does
    not have [R * C] elements raises [ValueError] half way: the counter
    is bound, [gbl_output] is bound to the flat view of the block and
    [gbl_noutput] is as it was.  A call of [random] then raises
    [NameError] in a process that had no [gbl_noutput]; in a process that
    had one from an earlier initialization, it draws and raises
    [IndexError] for every index, the shared memory untouched. *)
Theorem random_init_bad_shape me b (R C : Z) c w h l :
  blocks h !! b = Some l ->
  0 <= R -> 0 <= C ->
  R * C <> Z.of_nat (length l) ->
  let w' := {| w_globals :=
                 {| gbl_counter := Some c;
                    gbl_output := Some {| base := b; shp := Flat (Z.of_nat (length l)) |};
                    gbl_noutput := gbl_noutput (w_globals w) |};
               w_rng := w_rng w |} in
  run me (random_init (b, (R, C)) c) w h = (Raised ValueError, w', h)
  /\ (forall idx par,
        gbl_noutput (w_globals w) = None ->
        run me (random idx par) w' h = (Raised (NameError "gbl_noutput"), w', h))
  /\ (forall idx par n row g',
        gbl_noutput (w_globals w) = Some n ->
        np_random_zipf par n (w_rng w) = (inr row, g') ->
        run me (random idx par) w' h = (Raised IndexError, with_rng w' g', h)).
Proof.
  intros Hb HR HC Hne w'. split_and!.
  - unfold random_init, perform, load_global, reshape.
    cbn -[fix_unknown_dimension]. rewrite Hb. cbn -[fix_unknown_dimension].
    by rewrite fix_unknown_dimension_mismatch.
  - intros idx par Hn. unfold random.
    rewrite run_bind, run_load_noutput. cbn [w' w_globals gbl_noutput].
    by rewrite Hn.
  - intros idx par n row g' Hn Hz. unfold random.
    rewrite run_bind, run_load_noutput. cbn [w' w_globals gbl_noutput].
    rewrite Hn, run_bind, run_zipf. cbn [w' w_rng]. rewrite Hz.
    by rewrite run_bind, run_load_output.
Qed.

(** ** Calls of [random] one after the other *)

Lemma list_inserts_inserts (off : nat) (xs ys l : list Z) :
  length xs = length ys ->
  list_inserts off ys (list_inserts off xs l) = list_inserts off ys l.
Proof.
  intros Hlen. apply list_eq. intros k.
  destruct (decide (off <= k < off + length ys)%nat) as [Hin|Hout].
  - destruct (decide (k < length l)%nat).
    + by rewrite !list_lookup_inserts by (rewrite ?length_inserts; lia).
    + rewrite !lookup_ge_None_2; [done | | ]; rewrite ?length_inserts; lia.
  - destruct (decide (k < off)%nat).
    + by rewrite !list_lookup_inserts_lt by lia.
    + by rewrite !list_lookup_inserts_ge by lia.
Qed.

(** X4. Two calls of [random] on the same row, one after the other: the
    second draw replaces the first in the row (last write wins), the rest
    of the block is as after the first call, and the counter holds its
    value plus 2, cut to the width of its cell. *)
Theorem random_same_row_twice `{!ZipfContract L} me (idx : Z) (par1 par2 : float)
    w h c b R C l cell row1 g1 row2 g2 :
  w_globals w = installed c b R C C ->
  0 <= C -> 0 <= idx < R ->
  blocks h !! b = Some l ->
  Z.of_nat (length l) = R * C ->
  counters h !! c = Some cell ->
  available me (lock cell) = true ->
  np_random_zipf par1 C (w_rng w) = (inr row1, g1) ->
  np_random_zipf par2 C g1 = (inr row2, g2) ->
  run_all me [random idx par1; random idx par2] w h =
    (Done tt, with_rng w g2,
     put_counter c
       {| typ := typ cell; value := wrap (typ cell) (value cell + 2);
          lock := lock cell |}
       (put_block b (list_inserts (Z.to_nat (idx * C)) row2 l) h))
  /\ get_row C idx (list_inserts (Z.to_nat (idx * C)) row2 l) = row2.
Proof.
  intros Hg HC Hidx Hb Hl Hc Hav Hz1 Hz2.
  pose proof (zipf_size _ _ _ _ _ Hz1) as Hlen1.
  pose proof (zipf_size _ _ _ _ _ Hz2) as Hlen2.
  split.
  - cbn [run_all].
    rewrite (random_call me idx par1 w h c b R C l cell row1 g1) by done.
    rewrite (random_call me idx par2 _ _ c b R C
               (list_inserts (Z.to_nat (idx * C)) row1 l)
               {| typ := typ cell; value := wrap (typ cell) (value cell + 1);
                  lock := lock cell |} row2 g2);
      [| done | done | apply lookup_insert_eq | apply lookup_put_counter | done | done].
    rewrite put_block_counter, put_counter_twice, put_block_twice.
    rewrite list_inserts_inserts by lia. cbn [typ value lock with_rng w_globals w_rng].
    rewrite wrap_add_l. do 4 f_equal. lia.
  - apply get_row_inserts_same; (done || lia || nia).
Qed.

(** X5. The two initializers share [gbl_counter]: after [random_init]
    with counter [c1] and then [counter_init c2], a call of [random]
    writes its row into the buffer of [random_init] and increments [c2],
    which then holds its value plus 1 cut to the width of its cell; [c1]
    is not touched. *)
Theorem initializers_share_counter `{!ZipfContract L} me (idx : Z) (par : float)
    w h c1 c2 b R C l cell2 row g' :
  blocks h !! b = Some l ->
  Z.of_nat (length l) = R * C -> 0 <= R -> 0 <= C ->
  0 <= idx < R ->
  c1 <> c2 ->
  counters h !! c2 = Some cell2 ->
  available me (lock cell2) = true ->
  np_random_zipf par C (w_rng w) = (inr row, g') ->
  exists w' h',
    run_all me [random_init (b, (R, C)) c1; counter_init c2; random idx par] w h =
      (Done tt, w', h')
    /\ w_globals w' = installed c2 b R C C
    /\ counters h' !! c2 =
       Some {| typ := typ cell2; value := wrap (typ cell2) (value cell2 + 1);
               lock := lock cell2 |}
    /\ counters h' !! c1 = counters h !! c1
    /\ blocks h' !! b = Some (list_inserts (Z.to_nat (idx * C)) row l).
Proof.
  intros Hb Hl HR HC Hidx Hne Hc2 Hav Hz.
  eexists _, _. split_and!.
  - cbn [run_all]. rewrite (random_init_ok me b R C c1 w h l) by done.
    unfold counter_init at 1, perform at 1. cbn [run do_op].
    rewrite (random_call me idx par _ h c2 b R C l cell2 row g'); done.
  - done.
  - apply lookup_put_counter.
  - rewrite lookup_put_counter_ne by done. done.
  - apply lookup_insert_eq.
Qed.

(** ** The lock and the buffer *)

(** X10. [random] writes its row before it asks for the lock and without
    it: called while another process holds the lock of the counter, it
    has drawn and has written the row into the buffer, and waits; the
    counter is as it was. *)
Theorem random_writes_before_lock `{!ZipfContract L} me (idx : Z) (par : float)
    w h c b R C l cell p d row g' :
  w_globals w = installed c b R C C ->
  0 <= idx < R ->
  blocks h !! b = Some l ->
  counters h !! c = Some cell ->
  lock cell = Some (p, d) -> p <> me ->
  np_random_zipf par C (w_rng w) = (inr row, g') ->
  run me (random idx par) w h =
    (Stuck, with_rng w g',
     put_block b (list_inserts (Z.to_nat (idx * C)) row l) h)
  /\ counters (put_block b (list_inserts (Z.to_nat (idx * C)) row l) h) !! c
     = Some cell.
Proof.
  intros Hg Hidx Hb Hc Hlk Hp Hz. split; [|done].
  rewrite (run_random me idx par w h c b R C C Hg), Hz.
  rewrite wrap_index_nonneg, in_range_false by lia.
  rewrite broadcast_to_same by (eapply zipf_size; eauto). rewrite Hb.
  by apply (counter_waits tt me _ _ c cell p d);
    [cbn [with_rng w_globals]; rewrite Hg | | |].
Qed.

(** ** A dimension left open *)

(** X11. [random_init] with [-1] for the number of rows, on a block
    whose length is a multiple of the number [C] of columns: the rows are
    counted from the block, and the process is set up as by the shape
    written out. *)
Theorem random_init_infers_rows me b (C : Z) c w h l :
  blocks h !! b = Some l ->
  0 < C -> Z.of_nat (length l) mod C = 0 ->
  run me (random_init (b, (-1, C)) c) w h =
    (Done tt,
     {| w_globals := installed c b (Z.of_nat (length l) / C) C C;
        w_rng := w_rng w |}, h)
  /\ run me (random_init (b, (-1, C)) c) w h =
     run me (random_init (b, (Z.of_nat (length l) / C, C)) c) w h.
Proof.
  intros Hb HC Hmod.
  assert (run me (random_init (b, (-1, C)) c) w h =
          (Done tt,
           {| w_globals := installed c b (Z.of_nat (length l) / C) C C;
              w_rng := w_rng w |}, h)) as Hrun.
  { unfold random_init, perform, load_global, reshape.
    cbn -[fix_unknown_dimension]. rewrite Hb. cbn -[fix_unknown_dimension].
    unfold fix_unknown_dimension. cbn [Z.ltb Z.compare].
    destruct (Z.ltb_spec C 0); [lia|]. destruct (Z.eqb_spec C 0); [lia|].
    rewrite Hmod. reflexivity. }
  split; [done|]. rewrite Hrun. symmetry.
  apply (random_init_ok me b _ C c w h l); [done | | | lia].
  - pose proof (Z.div_mod (Z.of_nat (length l)) C ltac:(lia)). lia.
  - apply Z.div_pos; lia.
Qed.

(** X12. [random_init] with [-1] for the number of columns: the buffer
    gets its columns counted from the block, but [gbl_noutput] is bound
    to [-1] as written.  Every call of [random] then asks the sampler for
    [-1] samples, which no sampler that returns as many samples as asked
    can give: the call raises the sampler's exception and writes
    nothing. *)
Theorem random_init_open_columns `{!ZipfContract L} me b (R : Z) c w h l :
  blocks h !! b = Some l ->
  0 < R -> Z.of_nat (length l) mod R = 0 ->
  run me (random_init (b, (R, -1)) c) w h =
    (Done tt,
     {| w_globals := installed c b R (Z.of_nat (length l) / R) (-1);
        w_rng := w_rng w |}, h)
  /\ forall me' idx par w' h',
       w_globals w' = installed c b R (Z.of_nat (length l) / R) (-1) ->
       exists e g',
         run me' (random idx par) w' h' = (Raised e, with_rng w' g', h').
Proof.
  intros Hb HR Hmod. split.
  - unfold random_init, perform, load_global, reshape.
    cbn -[fix_unknown_dimension]. rewrite Hb. cbn -[fix_unknown_dimension].
    unfold fix_unknown_dimension. cbn [Z.ltb Z.compare].
    destruct (Z.ltb_spec R 0); [lia|]. destruct (Z.eqb_spec R 0); [lia|].
    rewrite Hmod. reflexivity.
  - intros me' idx par w' h' Hg.
    destruct (np_random_zipf par (-1) (w_rng w')) as [[e|row] g'] eqn:Hz.
    + exists e, g'. unfold random.
      assert (gbl_noutput (w_globals w') = Some (-1)) as Hn by (by rewrite Hg).
      by rewrite run_bind, run_load_noutput, Hn, run_bind, run_zipf, Hz.
    + pose proof (zipf_size _ _ _ _ _ Hz). lia.
Qed.

End Further.

(** ** The unlocked increments from below *)

(** X6. The unlocked increments cannot lose everything.  A pool of calls
    of [counter_nolock] on a counter of any integer type that holds [v0]
    with its lock free, [N] calls in all, where [v0 + N] is a value of
    the type: under every schedule the value is never below [v0] nor
    above [v0 + N], and when all the calls are over and there was at
    least one, it is at least [v0 + 1]. *)
Theorem counter_nolock_keeps_one {L : NumericLibrary} {T}
    (ws : list (rng * list T)) (c : nat) (t : int_type) (v0 : Z) (h : heap) :
  counters h !! c = Some {| typ := t; value := v0; lock := None |} ->
  in_range t v0 ->
  v0 + Z.of_nat (calls ws) <= c_max t ->
  forall sched cfg,
    exec sched (pool_start (counter_init c) counter_nolock ws h) = Some cfg ->
    exists cell,
      counters (shared cfg) !! c = Some cell
      /\ v0 <= value cell <= v0 + Z.of_nat (calls ws)
      /\ (finished cfg = true -> (0 < calls ws)%nat -> v0 + 1 <= value cell).
Proof.
  intros Hc Hv Hfit sched cfg Hexec.
  destruct (nolock_pool c ws t v0 h sched cfg Hc Hexec)
    as ((cell & k & Hcell & _ & _ & Hk & Hval & Hone) & _ & _).
  rewrite incr_n_exact in Hval by (done || lia).
  exists cell. split_and!; [done | lia | lia |].
  intros Hfin HN. specialize (Hone Hfin HN). lia.
Qed.

(** ** Interleaved executions of the sampling calls *)

Lemma local_trans_shift locked i pt cell st' cell' :
  local_trans locked i (pt, 0%nat) cell st' cell' ->
  exists pt',
    st' = (pt', 0%nat) /\ pt' <> PInit
    /\ forall n, local_trans locked i (pt, n) cell (pt', n) cell'.
Proof.
  inversion 1; subst; eexists; (split; [reflexivity|]); split; try done;
    intros; by constructor.
Qed.

Section SamplingPool.
Context {L : NumericLibrary} `{!ZipfContract L}.
Variables (c b : nat) (R C : Z).
Hypothesis HR : 0 <= R.
Hypothesis HC : 0 <= C.

Lemma do_op_keeps_worker {X} (o : op X) me w h x w' h' :
  keeps_worker o = true -> do_op me o w h = Some (x, w', h') -> w' = w.
Proof.
  destruct o; cbn -[available]; try done; intros _ Hop;
    repeat (case_match; simplify_eq); by simplify_eq.
Qed.

Lemma step_proc_vis {X} (o : op X) k i w todo h :
  step_proc i {| p_worker := w; p_cur := Vis o k; p_todo := todo |} h =
  match do_op i o w h with
  | Some (x, w', h') => Some ({| p_worker := w'; p_cur := k x; p_todo := todo |}, h')
  | None => None
  end.
Proof. reflexivity. Qed.

Lemma prog_at_vis pt :
  of_kind true pt = true -> pt <> PInit -> pt <> PIdle ->
  exists X (o : op X) k, prog_at c pt = Vis o k /\ keeps_worker o = true.
Proof.
  destruct pt; cbn; try done; intros _ _ _; eexists _, _, _; split; reflexivity.
Qed.

Lemma setitem_row_ok (idx : Z) (row : list Z) :
  0 <= idx < R -> Z.of_nat (length row) = C ->
  setitem_row {| base := b; shp := Grid R C |} idx row =
  perform (SetItems b (Z.to_nat (idx * C)) row).
Proof.
  intros Hidx Hrow. unfold setitem_row. cbn [shp base].
  by rewrite wrap_index_nonneg, in_range_false, broadcast_to_same by lia.
Qed.

Lemma filled_inserts_same (idx : Z) (row l : list Z) :
  0 <= idx < R -> good_row C row -> Z.of_nat (length l) = R * C ->
  filled C idx (list_inserts (Z.to_nat (idx * C)) row l).
Proof.
  intros Hidx [Hlen Hsup] Hl. unfold filled.
  rewrite get_row_inserts_same; [done | done | lia | done | nia].
Qed.

Lemma filled_inserts_other (idx i : Z) (row l : list Z) :
  0 <= idx -> 0 <= i -> i <> idx -> Z.of_nat (length row) = C ->
  filled C i l -> filled C i (list_inserts (Z.to_nat (idx * C)) row l).
Proof.
  intros Hidx Hi Hne Hlen Hf. unfold filled.
  by rewrite get_row_inserts_other.
Qed.

Ltac rok :=
  unfold rproc_ok, rwf;
  cbn [r_pt r_done r_todo p_cur p_todo p_worker w_globals rglobals_at];
  split_and!; try done; try lia.

(** One step of a process of the pool. *)
Lemma rstep_point i p st h cell l p' h' :
  rproc_ok c b R C p st ->
  counters h !! c = Some cell ->
  blocks h !! b = Some l ->
  Z.of_nat (length l) = R * C ->
  (holds (fst (rproj st)) = true -> lock cell = Some (i, 0%nat)) ->
  (fst (rproj st) = PAcquire -> forall d, lock cell <> Some (i, d)) ->
  step_proc i p h = Some (p', h') ->
  exists st' cell' l',
    rproc_ok c b R C p' st'
    /\ counters h' !! c = Some cell'
    /\ blocks h' !! b = Some l'
    /\ ((cell' = cell /\ rproj st' = rproj st)
        \/ local_trans true i (rproj st) cell (rproj st') cell')
    /\ rsteps st = S (rsteps st')
    /\ (forall k, k ∈ covered st -> k ∈ covered st')
    /\ row_step R C p st p' st' l l'.
Proof.
  destruct st as [pt done todo]. destruct p as [w cur tds].
  intros (Hcur & Htds & Hglob & Htodo & Hdone & Hpt) Hc Hb Hl Hheld Hacq Hstep.
  cbn [r_pt r_done r_todo p_cur p_todo p_worker] in *. subst cur tds.
  destruct pt as [| | | | | |idx par|idx par|idx row|idx row|pt].
  - (* RI0 *)
    cbn in Hstep. injection Hstep as <- <-.
    exists {| r_pt := RI1; r_done := done; r_todo := todo |}, cell, l.
    split_and!; [| done | done | by left | done | done | by left].
    rok. cbn. by rewrite Hglob.
  - (* RI1 *)
    cbn in Hstep. rewrite Hb in Hstep. injection Hstep as <- <-.
    exists {| r_pt := RI2; r_done := done; r_todo := todo |}, cell, l.
    split_and!; [| done | done | by left | done | done | by left].
    rok. cbn. by rewrite Hl.
  - (* RI2 *)
    cbn in Hstep. injection Hstep as <- <-.
    exists {| r_pt := RI3; r_done := done; r_todo := todo |}, cell, l.
    split_and!; [| done | done | by left | done | done | by left].
    rok. cbn. by rewrite Hglob.
  - (* RI3 *)
    cbn -[reshape] in Hstep. rewrite Hglob in Hstep. cbn -[reshape] in Hstep.
    injection Hstep as <- <-.
    exists {| r_pt := RI4; r_done := done; r_todo := todo |}, cell, l.
    split_and!; [| done | done | by left | done | done | by left].
    rok. unfold reshape. cbn -[fix_unknown_dimension].
    by rewrite fix_unknown_dimension_exact.
  - (* RI4 *)
    cbn in Hstep. injection Hstep as <- <-.
    exists {| r_pt := RI5; r_done := done; r_todo := todo |}, cell, l.
    split_and!; [| done | done | by left | done | done | by left].
    rok. cbn. by rewrite Hglob.
  - (* RI5 *)
    cbn in Hstep. injection Hstep as <- <-.
    exists {| r_pt := RP PIdle; r_done := done; r_todo := todo |}, cell, l.
    split_and!; [| done | done | right; constructor | done | done | by left].
    rok. cbn. by rewrite Hglob.
  - (* RDraw *)
    cbn in Hstep. rewrite Hglob in Hstep. cbn in Hstep. injection Hstep as <- <-.
    exists {| r_pt := RZipf idx par; r_done := done; r_todo := todo |}, cell, l.
    split_and!; [rok | done | done | by left | done | done | by left].
  - (* RZipf *)
    destruct Hpt as [Hidx Hpar]. cbn [fst snd] in Hidx, Hpar.
    destruct (Hpar (w_rng w)) as (row & g' & Hz).
    cbn in Hstep. rewrite Hz in Hstep. cbn in Hstep. injection Hstep as <- <-.
    exists {| r_pt := RView idx row; r_done := done; r_todo := todo |}, cell, l.
    split_and!; [| done | done | by left | done | done |].
    + rok. split; [by eapply zipf_size | by eapply zipf_support].
    + left. split_and!; [done | done |]. cbn. by rewrite Hz.
  - (* RView *)
    cbn -[setitem_row] in Hstep. rewrite Hglob in Hstep. cbn -[setitem_row] in Hstep.
    injection Hstep as <- <-.
    exists {| r_pt := RWrite idx row; r_done := done; r_todo := todo |}, cell, l.
    split_and!; [| done | done | by left | done | done | by left].
    destruct Hpt as [? ?]. rok.
  - (* RWrite *)
    destruct Hpt as [Hidx [Hlen Hsup]].
    cbn [rprog_at] in Hstep. rewrite setitem_row_ok in Hstep by done.
    cbn in Hstep. rewrite Hb in Hstep. injection Hstep as <- <-.
    exists {| r_pt := RP PLoad; r_done := idx :: done; r_todo := todo |}, cell,
      (list_inserts (Z.to_nat (idx * C)) row l).
    split_and!.
    + rok. by constructor.
    + done.
    + apply lookup_insert_eq.
    + by left.
    + done.
    + intros k. unfold covered. cbn [r_done r_pt r_todo cur_idx].
      rewrite !elem_of_app, !elem_of_cons. tauto.
    + right. by exists idx, row.
  - (* RP *)
    destruct Hpt as [Hinit Hkind].
    assert (pt = PIdle \/ pt <> PIdle) as [->|Hidle].
    { destruct pt; (by left) || (by right). }
    + cbn in Hstep. destruct todo as [|[idx par] todo]; [done|].
      cbn in Hstep. injection Hstep as <- <-.
      apply Forall_cons in Htodo as [Ht Htodo].
      exists {| r_pt := RDraw idx par; r_done := done; r_todo := todo |}, cell, l.
      split_and!; [rok | done | done | right; apply (t_next true) | | done | by left].
      unfold rsteps. cbn. lia.
    + destruct (prog_at_vis pt Hkind Hinit Hidle) as (X & o & k & Hvis & Hkeep).
      cbn [rprog_at] in Hstep.
      assert (step_proc i {| p_worker := w; p_cur := prog_at c pt; p_todo := [] |} h =
              Some ({| p_worker := p_worker p'; p_cur := p_cur p'; p_todo := [] |}, h')
              /\ p_worker p' = w
              /\ p_todo p' = map (fun t => random (fst t) (snd t)) todo)
        as (Hstep0 & Hw & Htd).
      { rewrite Hvis in Hstep |- *. rewrite step_proc_vis in Hstep |- *.
        destruct (do_op i o w h) as [[[x w1] h1]|] eqn:Hop; [|done].
        injection Hstep as <- <-. cbn.
        by rewrite (do_op_keeps_worker o i w h x w1 h1 Hkeep Hop). }
      destruct (step_proc_point c true i
                  {| p_worker := w; p_cur := prog_at c pt; p_todo := [] |}
                  (pt, 0%nat) h cell
                  {| p_worker := p_worker p'; p_cur := p_cur p'; p_todo := [] |} h')
        as (st0 & cell' & Htr & Hok' & Hc' & Hbl); try done.
      { split_and!; try done. cbn. intros _. by rewrite Hglob. }
      { intros Hq. destruct pt; by cbn in *. }
      destruct (local_trans_shift _ _ _ _ _ _ Htr) as (pt' & -> & Hinit' & Hshift).
      destruct Hok' as (Hcur' & _ & Hkind' & _). cbn in Hcur', Hkind'.
      exists {| r_pt := RP pt'; r_done := done; r_todo := todo |}, cell', l.
      split_and!.
      * destruct p' as [w' cur' tds']. cbn in *. subst. rok.
      * done.
      * by rewrite Hbl.
      * right. apply Hshift.
      * pose proof (local_trans_steps _ _ _ _ _ _ Htr) as Hs.
        unfold steps_left in Hs. unfold rsteps. cbn in *. lia.
      * done.
      * left. split_and!; [done | done |]. cbn. by rewrite Hw.
Qed.

Lemma rproj_kind st : rwf R C st -> of_kind true (fst (rproj st)) = true.
Proof.
  destruct st as [pt done todo]. intros (_ & _ & Hpt). cbn in *.
  destruct pt; try done. by destruct Hpt.
Qed.

Lemma renabled i p st h cell l :
  rproc_ok c b R C p st ->
  counters h !! c = Some cell ->
  blocks h !! b = Some l ->
  (holds (fst (rproj st)) = true -> lock cell = Some (i, 0%nat)) ->
  (fst (rproj st) = PAcquire -> lock cell = None) ->
  rproj st <> (PIdle, 0%nat) ->
  is_Some (step_proc i p h).
Proof.
  destruct st as [pt done todo]. destruct p as [w cur tds].
  intros (Hcur & Htds & Hglob & Htodo & Hdone & Hpt) Hc Hb Hheld Hfree Hne.
  cbn [r_pt r_done r_todo p_cur p_todo p_worker] in *. subst cur tds.
  destruct pt as [| | | | | |idx par|idx par|idx row|idx row|pt];
    try (by cbn; rewrite ?Hb, ?Hglob).
  - (* RZipf *)
    cbn. by destruct (np_random_zipf par C (w_rng w)) as [r g'].
  - (* RWrite *)
    destruct Hpt as [Hidx [Hlen Hsup]].
    cbn [rprog_at]. rewrite setitem_row_ok by done. cbn. by rewrite Hb.
  - (* RP *)
    destruct Hpt as [Hinit Hkind].
    assert (pt = PIdle \/ pt <> PIdle) as [->|Hidle].
    { destruct pt; (by left) || (by right). }
    + destruct todo as [|t todo]; [done | by cbn].
    + destruct (prog_at_vis pt Hkind Hinit Hidle) as (X & o & k & Hvis & Hkeep).
      destruct (step_proc_enabled c true i
                  {| p_worker := w; p_cur := prog_at c pt; p_todo := [] |}
                  (pt, 0%nat) h cell) as [[q hq] Hq]; try done.
      { split_and!; try done. cbn. intros _. by rewrite Hglob. }
      { intros Hacc. destruct pt; by cbn in *. }
      { intros [= ->]. done. }
      cbn [rprog_at]. rewrite Hvis in Hq |- *. rewrite step_proc_vis in Hq |- *.
      by destruct (do_op i o w h) as [[[x w1] h1]|].
Qed.

Lemma rfinished_point p st :
  rproc_ok c b R C p st -> proc_finished p = true ->
  r_pt st = RP PIdle /\ r_todo st = [].
Proof.
  destruct st as [pt done todo]. destruct p as [w cur tds].
  intros (Hcur & Htds & _ & _ & _ & Hpt).
  cbn [r_pt r_done r_todo p_cur p_todo p_worker] in *. subst cur tds.
  unfold proc_finished. cbn [p_cur p_todo].
  destruct pt as [| | | | | |idx par|idx par|idx row|idx row|pt]; try done.
  - destruct Hpt as [Hidx [Hlen Hsup]]. cbn [rprog_at].
    by rewrite setitem_row_ok by done.
  - destruct pt; cbn; try done. by destruct todo.
Qed.

Lemma filled_after_write (idx i0 : Z) (row l : list Z) :
  0 <= idx < R -> good_row C row -> Z.of_nat (length l) = R * C ->
  0 <= i0 -> filled C i0 l ->
  filled C i0 (list_inserts (Z.to_nat (idx * C)) row l).
Proof.
  intros Hidx Hrow Hl Hi0 Hf. destruct (decide (i0 = idx)) as [->|Hne].
  - by apply filled_inserts_same.
  - destruct Hrow. apply filled_inserts_other; (done || lia).
Qed.

Section Runs.
Variables (ws : list (rng * list (Z * float))) (ty : int_type) (v0 : Z) (N : nat).

Lemma rsim_at_step m cfg sts cell l i cfg' :
  rsim_at c b R C ws ty v0 N m cfg sts cell l -> step_at i cfg = Some cfg' ->
  exists p p' st st' cell' l' m',
    procs cfg !! i = Some p /\ sts !! i = Some st
    /\ procs cfg' = <[i:=p']> (procs cfg)
    /\ m = S m'
    /\ rsim_at c b R C ws ty v0 N m' cfg' (<[i:=st']> sts) cell' l'
    /\ row_step R C p st p' st' l l'.
Proof.
  intros (Hc & Hb & Hall & (HI & Hl & Hfill) & Hm & Hcov) Hstep.
  unfold step_at in Hstep. destruct (procs cfg !! i) as [p|] eqn:Hp; [|done].
  destruct (step_proc i p (shared cfg)) as [[p' h']|] eqn:Hsp; [|done].
  injection Hstep as <-.
  destruct (Forall2_lookup_l _ _ _ _ _ Hall Hp) as (st & Hi & Hok).
  assert ((rproj <$> sts) !! i = Some (rproj st)) as Hpi.
  { by rewrite list_lookup_fmap, Hi. }
  destruct (rstep_point i p st _ cell l p' h' Hok Hc Hb Hl)
    as (st' & cell' & l' & Hok' & Hc' & Hb' & Htr & Hsteps & Hmono & Hwrite);
    [by eapply li_held | by eapply locked_inv_acquire | done |].
  exists p, p', st, st', cell', l', (sum_list (rsteps <$> <[i:=st']> sts)).
  split_and!; [done | done | done | | | done].
  { pose proof (sum_list_fmap_insert rsteps sts i st st' Hi). lia. }
  unfold rsim_at. cbn [procs shared]. split_and!; try done.
  - by apply Forall2_insert.
  - split_and!.
    + rewrite list_fmap_insert. destruct Htr as [[-> ->]|Htr].
      * by rewrite list_insert_id.
      * eapply locked_inv_step; [done | done | | done].
        apply rproj_kind. by destruct Hok as (_ & _ & _ & ?).
    + destruct Hwrite as [(-> & _)|(idx & row & _ & _ & -> & _)]; [done|].
      by rewrite length_inserts.
    + intros j st0 i0 Hj Hi0.
      assert (0 <= i0 < R) as Hr0.
      { assert (rwf R C st0) as (_ & Hd & _).
        { apply list_lookup_insert_Some in Hj as [(_ & <- & _)|[_ Hj]].
          - by destruct Hok' as (_ & _ & _ & ?).
          - destruct (Forall2_lookup_r _ _ _ _ _ Hall Hj) as (q & _ & Hq).
            by destruct Hq as (_ & _ & _ & ?). }
        rewrite Forall_forall in Hd. by apply Hd. }
      destruct Hwrite as [(-> & Hd & _)|(idx & row & Hidx & Hrow & -> & Hd & _)].
      * apply list_lookup_insert_Some in Hj as [(_ & <- & _)|[_ Hj]].
        -- rewrite Hd in Hi0. by eapply Hfill.
        -- by eapply Hfill.
      * apply list_lookup_insert_Some in Hj as [(_ & <- & _)|[_ Hj]].
        -- rewrite Hd in Hi0. apply elem_of_cons in Hi0 as [->|Hi0].
           ++ by apply filled_inserts_same.
           ++ apply filled_after_write; try done; [lia | by eapply Hfill].
        -- apply filled_after_write; try done; [lia | by eapply Hfill].
  - destruct (Forall2_lookup_r _ _ _ _ _ Hcov Hi) as (w & Hw & Hcw).
    rewrite <- (list_insert_id ws i w Hw). apply Forall2_insert; [done|].
    intros k Hk. by apply Hmono, Hcw.
Qed.

Lemma rsim_step m cfg i cfg' :
  rsim c b R C ws ty v0 N m cfg -> step_at i cfg = Some cfg' ->
  exists m', m = S m' /\ rsim c b R C ws ty v0 N m' cfg'.
Proof.
  intros (sts & cell & l & Hsim) Hstep.
  destruct (rsim_at_step _ _ _ _ _ _ _ Hsim Hstep)
    as (p & p' & st & st' & cell' & l' & m' & _ & _ & _ & -> & Hsim' & _).
  exists m'. split; [done|]. by exists (<[i:=st']> sts), cell', l'.
Qed.

Lemma rsim_exec sched m cfg cfg' :
  rsim c b R C ws ty v0 N m cfg -> exec sched cfg = Some cfg' ->
  exists m', m = (length sched + m')%nat /\ rsim c b R C ws ty v0 N m' cfg'.
Proof.
  revert m cfg. induction sched as [|i sched IH]; intros m cfg Hsim Hexec.
  - injection Hexec as <-. by exists m.
  - cbn in Hexec. destruct (step_at i cfg) as [cfg1|] eqn:Hstep; [|done].
    destruct (rsim_step m cfg i cfg1 Hsim Hstep) as (m1 & -> & Hsim1).
    destruct (IH m1 cfg1 Hsim1 Hexec) as (m' & -> & Hsim').
    exists m'. split; [cbn; lia | done].
Qed.

Lemma rsim_progress m cfg :
  rsim c b R C ws ty v0 N m cfg -> finished cfg = false ->
  exists i, is_Some (step_at i cfg).
Proof.
  intros (sts & cell & l & Hc & Hb & Hall & (HI & Hl & Hfill) & Hm & Hcov) Hfin.
  apply forallb_false_lookup in Hfin as (i0 & p0 & Hp0 & Hpf).
  destruct (Forall2_lookup_l _ _ _ _ _ Hall Hp0) as (st0 & Hi0 & Hok0).
  assert (rproj st0 <> (PIdle, 0%nat)) as Hne0.
  { intros Heq. destruct st0 as [pt done todo]. destruct p0 as [w cur tds].
    destruct Hok0 as (Hcur & Htds & _). cbn in Hcur, Htds. subst cur tds.
    unfold rproj in Heq. cbn in Heq. injection Heq as Hpt Hlen.
    destruct todo; [|done]. destruct pt as [| | | | | |? ?|? ?|? ?|? ?|pt]; try done.
    subst pt. by cbn in Hpf. }
  destruct (locked_inv_enabled ty v0 N (rproj <$> sts) cell i0 (rproj st0) HI)
    as (j & stp & Hj & Hnej & Hfree); [by rewrite list_lookup_fmap, Hi0 | done |].
  rewrite list_lookup_fmap in Hj.
  destruct (sts !! j) as [st|] eqn:Hstj; [|done]. injection Hj as <-.
  destruct (Forall2_lookup_r _ _ _ _ _ Hall Hstj) as (p & Hp & Hok).
  exists j. unfold step_at. rewrite Hp.
  destruct (renabled j p st (shared cfg) cell l Hok Hc Hb) as [[p' h'] ->];
    try done.
  intros Hh. eapply li_held; [done | | done]. by rewrite list_lookup_fmap, Hstj.
Qed.

Lemma rsim_can_finish m cfg :
  rsim c b R C ws ty v0 N m cfg ->
  exists sched cfg', exec sched cfg = Some cfg' /\ finished cfg' = true.
Proof.
  revert cfg. induction m as [|m IH]; intros cfg Hsim.
  - destruct (finished cfg) eqn:Hfin; [by exists [], cfg|].
    destruct (rsim_progress _ _ Hsim Hfin) as (i & cfg1 & Hstep).
    by destruct (rsim_step _ _ _ _ Hsim Hstep) as (m' & ? & _).
  - destruct (finished cfg) eqn:Hfin; [by exists [], cfg|].
    destruct (rsim_progress _ _ Hsim Hfin) as (i & cfg1 & Hstep).
    destruct (rsim_step _ _ _ _ Hsim Hstep) as (m' & [= <-] & Hsim1).
    destruct (IH cfg1 Hsim1) as (sched & cfg' & Hexec & Hfin').
    exists (i :: sched), cfg'. cbn. by rewrite Hstep.
Qed.

Lemma rsim_at_idle m cfg sts cell l :
  rsim_at c b R C ws ty v0 N m cfg sts cell l -> finished cfg = true ->
  forall j st, sts !! j = Some st -> r_pt st = RP PIdle /\ r_todo st = [].
Proof.
  intros (_ & _ & Hall & _) Hfin j st Hj.
  destruct (Forall2_lookup_r _ _ _ _ _ Hall Hj) as (p & Hp & Hok).
  eapply rfinished_point; [done|].
  unfold finished in Hfin. rewrite forallb_forall in Hfin. apply Hfin.
  apply list_elem_of_In. by eapply list_elem_of_lookup_2.
Qed.

Lemma rsim_at_counter m cfg sts cell l :
  rsim_at c b R C ws ty v0 N m cfg sts cell l -> finished cfg = true ->
  cell = {| typ := ty; value := incr_n ty N v0; lock := None |}.
Proof.
  intros Hsim Hfin. pose proof (rsim_at_idle _ _ _ _ _ Hsim Hfin) as Hidle.
  destruct Hsim as (_ & _ & _ & (HI & _) & _).
  apply (locked_inv_end ty v0 N (rproj <$> sts)); [done | |].
  - apply total_work_idle, Forall_lookup. intros j st Hj.
    rewrite list_lookup_fmap in Hj. destruct (sts !! j) as [st0|] eqn:Hstj; [|done].
    injection Hj as <-. destruct (Hidle j st0 Hstj) as [Hpt Htd].
    unfold rproj. by rewrite Hpt, Htd.
  - intros j st Hj.
    rewrite list_lookup_fmap in Hj. destruct (sts !! j) as [st0|] eqn:Hstj; [|done].
    injection Hj as <-. destruct (Hidle j st0 Hstj) as [Hpt _].
    unfold rproj. cbn. by rewrite Hpt.
Qed.

End Runs.

Lemma rsim_at_start (ws : list (rng * list (Z * float))) h l ty v0 :
  blocks h !! b = Some l ->
  Z.of_nat (length l) = R * C ->
  counters h !! c = Some {| typ := ty; value := v0; lock := None |} ->
  Forall (fun w => Forall (valid_task R C) (snd w)) ws ->
  rsim_at c b R C ws ty v0 (calls ws) (6 * length ws + 11 * calls ws)
    (pool_start (random_init (b, (R, C)) c) (fun t => random (fst t) (snd t)) ws h)
    (rstart <$> ws) {| typ := ty; value := v0; lock := None |} l.
Proof.
  intros Hb Hl Hc Hws.
  assert (rproj <$> (rstart <$> ws) = start_points ws) as Hproj.
  { unfold start_points. rewrite <- list_fmap_compose. done. }
  unfold rsim_at. split_and!; try done.
  - unfold pool_start. cbn [procs]. apply Forall2_fmap_2.
    clear Hproj. induction Hws as [|w ws Hw _ IH]; [by constructor|].
    constructor; [|done].
    unfold rproc_ok, rwf, spawn, rstart. cbn. split_and!; done.
  - split_and!; [| done | by intros j st i [w [-> _]]%list_lookup_fmap_Some_1 ?%elem_of_nil].
    rewrite Hproj. apply locked_inv_start.
  - unfold calls. clear. induction ws as [|w ws IH]; [done|].
    csimpl. rewrite IH. unfold rsteps. cbn. lia.
  - apply Forall2_fmap_r. clear. induction ws as [|w ws IH]; [by constructor|].
    constructor; [|done]. intros i Hi. unfold covered, rstart. by cbn.
Qed.

Lemma rsim_start (ws : list (rng * list (Z * float))) h l ty v0 :
  blocks h !! b = Some l ->
  Z.of_nat (length l) = R * C ->
  counters h !! c = Some {| typ := ty; value := v0; lock := None |} ->
  Forall (fun w => Forall (valid_task R C) (snd w)) ws ->
  rsim c b R C ws ty v0 (calls ws) (6 * length ws + 11 * calls ws)
    (pool_start (random_init (b, (R, C)) c) (fun t => random (fst t) (snd t)) ws h).
Proof.
  intros Hb Hl Hc Hws.
  exists (rstart <$> ws), {| typ := ty; value := v0; lock := None |}, l.
  by apply rsim_at_start.
Qed.

(** *** The rows against the draws *)

Lemma draws_sublist g (todo : list (Z * float)) :
  (draws C g todo).*1 `sublist_of` todo.*1.
Proof.
  revert g. induction todo as [|[idx par] todo IH]; intros g; [done|].
  cbn. destruct (np_random_zipf par C g) as [[e|row] g'].
  - apply sublist_nil_l.
  - cbn. apply sublist_skip, IH.
Qed.

Lemma draws_fst g (todo : list (Z * float)) :
  Forall (valid_task R C) todo -> (draws C g todo).*1 = todo.*1.
Proof.
  intros Hv. revert g. induction Hv as [|[idx par] todo [_ Hacc] _ IH]; intros g; [done|].
  cbn in Hacc. destruct (Hacc g) as (row & g' & Hz).
  cbn. rewrite Hz. cbn. by rewrite IH.
Qed.

Lemma elem_of_concat_lookup {A} (ls : list (list A)) j a (x : A) :
  ls !! j = Some a -> x ∈ a -> x ∈ concat ls.
Proof.
  revert j. induction ls as [|a0 ls IH]; intros [|j] Hj Hx; try done; cbn.
  - injection Hj as ->. apply elem_of_app. by left.
  - apply elem_of_app. right. by eapply IH.
Qed.

Lemma NoDup_concat_lookup {A} (ls : list (list A)) i j a1 a2 (x : A) :
  NoDup (concat ls) -> ls !! i = Some a1 -> ls !! j = Some a2 ->
  x ∈ a1 -> x ∈ a2 -> i = j.
Proof.
  revert i j. induction ls as [|a0 ls IH]; intros i j Hnd Hi Hj H1 H2; [done|].
  cbn in Hnd. apply NoDup_app in Hnd as (_ & Hdis & Hnd).
  destruct i as [|i], j as [|j]; cbn in Hi, Hj.
  - done.
  - injection Hi as ->. exfalso. apply (Hdis x H1). by eapply elem_of_concat_lookup.
  - injection Hj as ->. exfalso. apply (Hdis x H2). by eapply elem_of_concat_lookup.
  - f_equal. by eapply IH.
Qed.

Lemma NoDup_concat_part {A} (ls : list (list A)) j a :
  NoDup (concat ls) -> ls !! j = Some a -> NoDup a.
Proof.
  revert j. induction ls as [|a0 ls IH]; intros [|j] Hnd Hj; try done;
    cbn in Hnd; apply NoDup_app in Hnd as (Ha & _ & Hnd).
  - by injection Hj as ->.
  - by eapply IH.
Qed.

Lemma get_row_lookup (i r : Z) (l : list Z) :
  0 <= i -> 0 <= r < C ->
  get_row C i l !! Z.to_nat r = l !! Z.to_nat (i * C + r).
Proof.
  intros Hi Hr. unfold get_row. rewrite lookup_take. case_decide; [|lia].
  rewrite lookup_drop. f_equal. nia.
Qed.

(** A block of [R] rows is known by its rows. *)
Lemma rows_ext (l1 l2 : list Z) :
  Z.of_nat (length l1) = R * C -> Z.of_nat (length l2) = R * C ->
  (forall i, 0 <= i < R -> get_row C i l1 = get_row C i l2) -> l1 = l2.
Proof.
  intros H1 H2 Hrows. apply list_eq. intros k.
  destruct (decide (k < length l1)%nat) as [Hk|Hk].
  - assert (0 < C) as HC0 by nia.
    pose proof (Z.div_mod (Z.of_nat k) C ltac:(lia)) as Hdm.
    pose proof (Z.mod_pos_bound (Z.of_nat k) C HC0) as Hmod.
    assert (0 <= Z.of_nat k / C < R) as Hq.
    { split; [apply Z.div_pos; lia | apply Z.div_lt_upper_bound; nia]. }
    replace k with (Z.to_nat (Z.of_nat k / C * C + Z.of_nat k mod C)) by lia.
    rewrite <- !get_row_lookup by lia. by rewrite Hrows.
  - rewrite !lookup_ge_None_2; [done | lia | lia].
Qed.

Section Draws.
Variables (ws : list (rng * list (Z * float))) (ty : int_type) (v0 : Z) (N : nat)
  (l0 : list Z).
Hypothesis Hws : Forall (fun w => Forall (valid_task R C) (snd w)) ws.
Hypothesis Hnd : NoDup (pool_rows ws).

Lemma pool_row j w (i : Z) :
  ws !! j = Some w -> i ∈ (snd w).*1 -> i ∈ pool_rows ws /\ 0 <= i < R.
Proof.
  intros Hj Hi. split.
  - unfold pool_rows. eapply elem_of_concat_lookup; [|done].
    by rewrite list_lookup_fmap, Hj.
  - rewrite Forall_forall in Hws.
    pose proof (Hws w (list_elem_of_lookup_2 _ _ _ Hj)) as Hw.
    apply list_elem_of_fmap in Hi as (t & -> & Ht).
    rewrite Forall_forall in Hw. by destruct (Hw t Ht).
Qed.

Lemma pool_row_once j1 j2 w1 w2 (i : Z) :
  ws !! j1 = Some w1 -> ws !! j2 = Some w2 ->
  i ∈ (snd w1).*1 -> i ∈ (snd w2).*1 -> j1 = j2.
Proof.
  intros H1 H2 Hi1 Hi2. unfold pool_rows in Hnd.
  apply (NoDup_concat_lookup _ j1 j2 (snd w1).*1 (snd w2).*1 i Hnd); try done.
  - by rewrite list_lookup_fmap, H1.
  - by rewrite list_lookup_fmap, H2.
Qed.

Lemma draws_row g j w t :
  ws !! j = Some w -> t ∈ draws C g (snd w) -> fst t ∈ (snd w).*1.
Proof.
  intros Hj Ht. eapply elem_of_sublist; [|apply (draws_sublist g)].
  apply list_elem_of_fmap. by exists t.
Qed.

Lemma dsim_step m cfg i cfg' :
  dsim c b R C ws ty v0 N l0 m cfg -> step_at i cfg = Some cfg' ->
  exists m', m = S m' /\ dsim c b R C ws ty v0 N l0 m' cfg'.
Proof.
  intros (sts & cell & l & Hsim & Hrows & Hrest) Hstep.
  destruct (rsim_at_step ws ty v0 N _ _ _ _ _ _ _ Hsim Hstep)
    as (p & p' & st & st' & cell' & l' & m' & Hp & Hst & Hprocs & -> & Hsim' & Hrs).
  exists m'. split; [done|]. exists (<[i:=st']> sts), cell', l'. split; [done|].
  assert (Z.of_nat (length l) = R * C) as Hl.
  { by destruct Hsim as (_ & _ & _ & (_ & ? & _) & _). }
  assert (exists wi, ws !! i = Some wi) as [wi Hwi].
  { destruct Hsim as (_ & _ & _ & _ & _ & Hcov).
    destruct (Forall2_lookup_r _ _ _ _ _ Hcov Hst) as (wi & ? & _). by exists wi. }
  destruct Hrs as [(-> & _ & Hpend)|(idx & row & Hidx & [Hlen Hsup] & -> & _ & Hpend)].
  - split; [|done].
    intros j w p1 st1 Hw Hp1 Hst1. rewrite Hprocs in Hp1.
    apply list_lookup_insert_Some in Hp1 as [(<- & <- & _)|[Hne Hp1]].
    + apply list_lookup_insert_Some in Hst1 as [(_ & <- & _)|[? _]]; [|done].
      rewrite Hpend. by eapply Hrows.
    + apply list_lookup_insert_Some in Hst1 as [(? & _ & _)|[_ Hst1]]; [done|].
      by eapply Hrows.
  - destruct (Hrows i wi p st Hwi Hp Hst) as (wl & Hd & Hwl). rewrite Hpend in Hd.
    assert (idx ∈ (snd wi).*1) as Hin.
    { apply (draws_row (fst wi) i wi (idx, row) Hwi). rewrite Hd.
      apply elem_of_app. right. by left. }
    split.
    + intros j w p1 st1 Hw Hp1 Hst1. rewrite Hprocs in Hp1.
      apply list_lookup_insert_Some in Hp1 as [(<- & <- & _)|[Hne Hp1]].
      * apply list_lookup_insert_Some in Hst1 as [(_ & <- & _)|[? _]]; [|done].
        assert (w = wi) as -> by congruence.
        exists (wl ++ [(idx, row)]). split; [by rewrite <- app_assoc|].
        intros t [Ht| ->%list_elem_of_singleton]%elem_of_app.
        -- assert (fst t ∈ (snd wi).*1) as Hti.
           { apply (draws_row (fst wi) i wi t Hwi). rewrite Hd.
             apply elem_of_app. by left. }
           assert (fst t <> idx) as Hne.
           { assert (NoDup (snd wi).*1) as Hnd0.
             { apply (NoDup_concat_part _ i _ Hnd). unfold pool_rows.
               by rewrite list_lookup_fmap, Hwi. }
             pose proof (sublist_NoDup _ _ Hnd0 (draws_sublist (fst wi) (snd wi)))
               as Hnd1.
             rewrite Hd, fmap_app in Hnd1. apply NoDup_app in Hnd1 as (_ & Hdis & _).
             intros Heq. apply (Hdis (fst t)).
             - apply list_elem_of_fmap. by exists t.
             - cbn. rewrite Heq. by left. }
           destruct (pool_row i wi (fst t) Hwi Hti) as [_ Hrt].
           rewrite get_row_inserts_other by (done || lia). by apply Hwl.
        -- cbn. apply get_row_inserts_same; (done || lia || nia).
      * apply list_lookup_insert_Some in Hst1 as [(? & _ & _)|[_ Hst1]]; [done|].
        destruct (Hrows j w p1 st1 Hw Hp1 Hst1) as (wl1 & Hd1 & Hwl1).
        exists wl1. split; [done|]. intros t Ht.
        assert (fst t ∈ (snd w).*1) as Hti.
        { apply (draws_row (fst w) j w t Hw). rewrite Hd1.
          apply elem_of_app. by left. }
        assert (fst t <> idx) as Hne'.
        { intros Heq. apply Hne.
          apply (pool_row_once i j wi w idx Hwi Hw Hin). by rewrite <- Heq. }
        destruct (pool_row j w (fst t) Hw Hti) as [_ Hrt].
        rewrite get_row_inserts_other by (done || lia). by apply Hwl1.
    + intros i0 Hi0 Hnot.
      assert (i0 <> idx) as Hne.
      { intros ->. by destruct (pool_row i wi idx Hwi Hin). }
      rewrite get_row_inserts_other by (done || lia). by apply Hrest.
Qed.

Lemma dsim_exec sched m cfg cfg' :
  dsim c b R C ws ty v0 N l0 m cfg -> exec sched cfg = Some cfg' ->
  exists m', dsim c b R C ws ty v0 N l0 m' cfg'.
Proof.
  revert m cfg. induction sched as [|i sched IH]; intros m cfg Hsim Hexec.
  - injection Hexec as <-. by exists m.
  - cbn in Hexec. destruct (step_at i cfg) as [cfg1|] eqn:Hstep; [|done].
    destruct (dsim_step m cfg i cfg1 Hsim Hstep) as (m1 & -> & Hsim1).
    by apply (IH m1 cfg1 Hsim1).
Qed.

(** When all the calls are over: the counter, and the rows of the block. *)
Lemma dsim_finished m cfg :
  dsim c b R C ws ty v0 N l0 m cfg -> finished cfg = true ->
  exists l,
    counters (shared cfg) !! c = Some {| typ := ty; value := incr_n ty N v0; lock := None |}
    /\ blocks (shared cfg) !! b = Some l
    /\ Z.of_nat (length l) = R * C
    /\ (forall w t, w ∈ ws -> t ∈ draws C (fst w) (snd w) ->
          get_row C (fst t) l = snd t)
    /\ (forall i, 0 <= i -> i ∉ pool_rows ws -> get_row C i l = get_row C i l0).
Proof.
  intros (sts & cell & l & Hsim & Hrows & Hrest) Hfin.
  pose proof (rsim_at_idle ws ty v0 N _ _ _ _ _ Hsim Hfin) as Hidle.
  pose proof (rsim_at_counter ws ty v0 N _ _ _ _ _ Hsim Hfin) as ->.
  destruct Hsim as (Hc & Hb & Hall & (_ & Hl & _) & _ & Hcov).
  exists l. split_and!; try done.
  intros w t Hw Ht. apply list_elem_of_lookup in Hw as [j Hj].
  destruct (Forall2_lookup_l _ _ _ _ _ Hcov Hj) as (st & Hstj & _).
  destruct (Forall2_lookup_r _ _ _ _ _ Hall Hstj) as (p & Hp & _).
  destruct (Hrows j w p st Hj Hp Hstj) as (wl & Hd & Hwl).
  destruct (Hidle j st Hstj) as [Hpt Htd].
  unfold pending_rows in Hd. rewrite Hpt, Htd in Hd. cbn in Hd.
  rewrite app_nil_r in Hd. apply Hwl. by rewrite <- Hd.
Qed.

End Draws.

Lemma dsim_start (ws : list (rng * list (Z * float))) h l ty v0 :
  blocks h !! b = Some l ->
  Z.of_nat (length l) = R * C ->
  counters h !! c = Some {| typ := ty; value := v0; lock := None |} ->
  Forall (fun w => Forall (valid_task R C) (snd w)) ws ->
  dsim c b R C ws ty v0 (calls ws) l (6 * length ws + 11 * calls ws)
    (pool_start (random_init (b, (R, C)) c) (fun t => random (fst t) (snd t)) ws h).
Proof.
  intros Hb Hl Hc Hws.
  exists (rstart <$> ws), {| typ := ty; value := v0; lock := None |}, l.
  split; [by apply rsim_at_start|]. split; [|done].
  intros j w p st Hj Hp Hst. exists []. split; [|by intros t ?%elem_of_nil].
  unfold pool_start in Hp. cbn [procs] in Hp.
  rewrite list_lookup_fmap, Hj in Hp. injection Hp as <-.
  rewrite list_lookup_fmap, Hj in Hst. by injection Hst as <-.
Qed.

End SamplingPool.

(** X7. A pool of any number of worker processes, each started by
    [random_init] on a buffer of [R] rows of [C] elements and a counter of
    any integer type that holds [v0] with its lock free, and given any
    calls of [random] on row indices in [0, R) with parameters the
    sampler accepts; [N] calls in all.  Under every schedule of the steps
    of the processes:
    - when all the calls are over, the counter holds [v0 + N] cut to the
      width of its cell (so [v0 + N] when that is a value of its type)
      with the lock free, the block has its length, and every row that
      some call was given holds [C] values, each at least 1;
    - until then some process can take a step;
    - an execution has at most [6 P + 11 N] steps;
    - the execution can always be carried on to the end. *)
Theorem random_concurrent {L : NumericLibrary} `{!ZipfContract L}
    (ws : list (rng * list (Z * float))) (b c : nat) (R C : Z)
    (ty : int_type) (v0 : Z) (h : heap) l :
  blocks h !! b = Some l ->
  Z.of_nat (length l) = R * C -> 0 <= R -> 0 <= C ->
  counters h !! c = Some {| typ := ty; value := v0; lock := None |} ->
  in_range ty v0 ->
  Forall (fun w => Forall (valid_task R C) (snd w)) ws ->
  forall sched cfg,
    exec sched (pool_start (random_init (b, (R, C)) c)
                  (fun t => random (fst t) (snd t)) ws h) = Some cfg ->
    (finished cfg = true ->
       counters (shared cfg) !! c =
         Some {| typ := ty; value := wrap ty (v0 + Z.of_nat (calls ws)); lock := None |}
       /\ (v0 + Z.of_nat (calls ws) <= c_max ty ->
           wrap ty (v0 + Z.of_nat (calls ws)) = v0 + Z.of_nat (calls ws))
       /\ exists l',
            blocks (shared cfg) !! b = Some l'
            /\ length l' = length l
            /\ forall w t, w ∈ ws -> t ∈ snd w -> filled C (fst t) l')
    /\ (finished cfg = false -> exists i, is_Some (step_at i cfg))
    /\ (length sched <= 6 * length ws + 11 * calls ws)%nat
    /\ (exists sched' cfg',
          exec sched' cfg = Some cfg' /\ finished cfg' = true).
Proof.
  intros Hb Hl HR HC Hc Hv Hws sched cfg Hexec.
  pose proof (rsim_start c b R C ws h l ty v0 Hb Hl Hc Hws) as Hsim0.
  destruct (rsim_exec c b R C HR HC ws ty v0 _ sched _ _ cfg Hsim0 Hexec)
    as (m' & Hm & Hsim).
  split_and!.
  - intros Hfin. destruct Hsim as (sts & cell & l' & Hat).
    pose proof (rsim_at_idle c b R C ws ty v0 _ _ _ _ _ _ Hat Hfin) as Hidle.
    pose proof (rsim_at_counter c b R C ws ty v0 _ _ _ _ _ _ Hat Hfin) as ->.
    destruct Hat as (Hc' & Hb' & Hall & (HI & Hl' & Hfill) & _ & Hcov).
    split_and!.
    + by rewrite Hc', incr_n_wrap.
    + intros Hfit. apply wrap_id. unfold in_range in *. lia.
    + exists l'. split_and!; [done | lia |].
      intros w t Hw Ht. apply list_elem_of_lookup in Hw as [j Hj].
      destruct (Forall2_lookup_l _ _ _ _ _ Hcov Hj) as (st & Hstj & Hcw).
      destruct (Hidle j st Hstj) as [Hpt Htd].
      assert (fst t ∈ covered st) as Hin.
      { apply Hcw. apply list_elem_of_fmap. by exists t. }
      unfold covered in Hin. rewrite Hpt, Htd in Hin. cbn in Hin.
      rewrite app_nil_r in Hin. by eapply Hfill.
  - intros Hfin. by eapply (rsim_progress c b R C).
  - lia.
  - by eapply (rsim_can_finish c b R C HR HC).
Qed.

Lemma elem_of_concat_inv {A} (ls : list (list A)) (x : A) :
  x ∈ concat ls -> exists a, a ∈ ls /\ x ∈ a.
Proof.
  induction ls as [|a ls IH]; cbn; [by intros ?%elem_of_nil|].
  intros [Hx|Hx]%elem_of_app.
  - exists a. split; [by left | done].
  - destruct (IH Hx) as (a' & Ha' & Hx'). exists a'. split; [by right | done].
Qed.

Lemma pool_rows_draw {L : NumericLibrary} (R C : Z)
    (ws : list (rng * list (Z * float))) (i : Z) :
  Forall (fun w => Forall (valid_task R C) (snd w)) ws ->
  i ∈ pool_rows ws ->
  exists w t, w ∈ ws /\ t ∈ draws C (fst w) (snd w) /\ fst t = i.
Proof.
  intros Hws Hi. unfold pool_rows in Hi.
  apply elem_of_concat_inv in Hi as (a & Ha & Hi).
  apply list_elem_of_fmap in Ha as (w & -> & Hw).
  rewrite Forall_forall in Hws.
  rewrite <- (draws_fst R C (fst w) (snd w) (Hws w Hw)) in Hi.
  apply list_elem_of_fmap in Hi as (t & -> & Ht). by exists w, t.
Qed.

(** X8. The pool of X7 when no two of its calls are given the same row.
    Under every schedule, when all the calls are over, the block is the
    one a process-by-process run would leave: the row of each call holds
    the samples that the process drew for it, its generator going from
    call to call in the order of its list, and a row that no call was
    given is as it was at the start. *)
Theorem random_concurrent_rows {L : NumericLibrary} `{!ZipfContract L}
    (ws : list (rng * list (Z * float))) (b c : nat) (R C : Z)
    (ty : int_type) (v0 : Z) (h : heap) l :
  blocks h !! b = Some l ->
  Z.of_nat (length l) = R * C -> 0 <= R -> 0 <= C ->
  counters h !! c = Some {| typ := ty; value := v0; lock := None |} ->
  Forall (fun w => Forall (valid_task R C) (snd w)) ws ->
  NoDup (pool_rows ws) ->
  forall sched cfg,
    exec sched (pool_start (random_init (b, (R, C)) c)
                  (fun t => random (fst t) (snd t)) ws h) = Some cfg ->
    finished cfg = true ->
    exists l',
      blocks (shared cfg) !! b = Some l'
      /\ (forall w, w ∈ ws -> fst <$> draws C (fst w) (snd w) = fst <$> snd w)
      /\ (forall w t, w ∈ ws -> t ∈ draws C (fst w) (snd w) ->
            get_row C (fst t) l' = snd t)
      /\ (forall i, 0 <= i -> i ∉ pool_rows ws -> get_row C i l' = get_row C i l).
Proof.
  intros Hb Hl HR HC Hc Hws Hnd sched cfg Hexec Hfin.
  pose proof (dsim_start c b R C ws h l ty v0 Hb Hl Hc Hws) as Hsim0.
  destruct (dsim_exec c b R C HR HC ws ty v0 _ l Hws Hnd sched _ _ cfg Hsim0 Hexec)
    as (m' & Hsim).
  destruct (dsim_finished c b R C ws ty v0 _ l m' cfg Hsim Hfin)
    as (l' & _ & Hb' & _ & Hrows & Hrest).
  exists l'. split_and!; try done.
  intros w Hw. apply (draws_fst R C). rewrite Forall_forall in Hws. by apply Hws.
Qed.

(** X9. With no two calls on the same row the result of the pool does
    not depend on the schedule: two executions of the same pool that have
    both come to their end have the same block and the same counter. *)
Theorem random_schedule_independent {L : NumericLibrary} `{!ZipfContract L}
    (ws : list (rng * list (Z * float))) (b c : nat) (R C : Z)
    (ty : int_type) (v0 : Z) (h : heap) l :
  blocks h !! b = Some l ->
  Z.of_nat (length l) = R * C -> 0 <= R -> 0 <= C ->
  counters h !! c = Some {| typ := ty; value := v0; lock := None |} ->
  Forall (fun w => Forall (valid_task R C) (snd w)) ws ->
  NoDup (pool_rows ws) ->
  forall sched1 sched2 cfg1 cfg2,
    exec sched1 (pool_start (random_init (b, (R, C)) c)
                   (fun t => random (fst t) (snd t)) ws h) = Some cfg1 ->
    exec sched2 (pool_start (random_init (b, (R, C)) c)
                   (fun t => random (fst t) (snd t)) ws h) = Some cfg2 ->
    finished cfg1 = true -> finished cfg2 = true ->
    blocks (shared cfg1) !! b = blocks (shared cfg2) !! b
    /\ counters (shared cfg1) !! c = counters (shared cfg2) !! c.
Proof.
  intros Hb Hl HR HC Hc Hws Hnd sched1 sched2 cfg1 cfg2 He1 He2 Hf1 Hf2.
  pose proof (dsim_start c b R C ws h l ty v0 Hb Hl Hc Hws) as Hsim0.
  destruct (dsim_exec c b R C HR HC ws ty v0 _ l Hws Hnd sched1 _ _ cfg1 Hsim0 He1)
    as (m1 & Hsim1).
  destruct (dsim_exec c b R C HR HC ws ty v0 _ l Hws Hnd sched2 _ _ cfg2 Hsim0 He2)
    as (m2 & Hsim2).
  destruct (dsim_finished c b R C ws ty v0 _ l m1 cfg1 Hsim1 Hf1)
    as (l1 & Hc1 & Hb1 & Hl1 & Hrows1 & Hrest1).
  destruct (dsim_finished c b R C ws ty v0 _ l m2 cfg2 Hsim2 Hf2)
    as (l2 & Hc2 & Hb2 & Hl2 & Hrows2 & Hrest2).
  split; [|by rewrite Hc1, Hc2].
  rewrite Hb1, Hb2. f_equal. apply (rows_ext R C HR HC); [done | done |].
  intros i Hi. destruct (decide (i ∈ pool_rows ws)) as [Hin|Hout].
  - destruct (pool_rows_draw R C ws i Hws Hin) as (w & t & Hw & Ht & <-).
    by rewrite (Hrows1 w t Hw Ht), (Hrows2 w t Hw Ht).
  - rewrite Hrest1, Hrest2 by (done || lia). done.
Qed.

(** ** The further properties on concrete inputs *)

Lemma increments_frame_witness :
  snd (fst (run (L := sample_library) 0 (increment (false, 5)) demo_counter_worker demo_heap2))
    = demo_counter_worker
  /\ blocks (snd (run (L := sample_library) 0 (increment (false, 5))
                    demo_counter_worker demo_heap2)) = blocks demo_heap2
  /\ (forall c, gbl_counter (w_globals demo_counter_worker) <> Some c ->
        counters (snd (run (L := sample_library) 0 (increment (false, 5))
                         demo_counter_worker demo_heap2)) !! c
        = counters demo_heap2 !! c)
  /\ (fst (fst (run (L := sample_library) 0 (increment (false, 5))
                  demo_counter_worker demo_heap2)) <> Done tt ->
      snd (run (L := sample_library) 0 (increment (false, 5))
             demo_counter_worker demo_heap2) = demo_heap2).
Proof.
  refine (increments_frame (L := sample_library) (false, 5) 0%nat demo_counter_worker
            demo_heap2 _ _ _ _).
  reflexivity.
Defined.

Lemma random_sampler_error_witness :
  run (L := sample_library) 0 (random (L := sample_library) 9 1) demo_worker demo_heap =
  (Raised ValueError, with_rng demo_worker 0%nat, demo_heap).
Proof.
  refine (random_sampler_error (L := sample_library) 0%nat 9 1 demo_worker demo_heap
            2 ValueError 0%nat _ _); reflexivity.
Defined.

Lemma random_init_bad_shape_witness :
  run (L := sample_library) 0 (random_init (0%nat, (3, 2)) 0%nat)
    (fresh_worker (L := sample_library) 0%nat) demo_heap =
  (Raised ValueError,
   {| w_globals :=
        {| gbl_counter := Some 0%nat;
           gbl_output := Some {| base := 0%nat; shp := Flat (Z.of_nat (length [0; 0; 0; 0])) |};
           gbl_noutput := None |};
      w_rng := (0%nat : @rng sample_library) |},
   demo_heap).
Proof.
  refine (proj1 (random_init_bad_shape (L := sample_library) 0%nat 0%nat 3 2 0%nat
                   (fresh_worker (L := sample_library) 0%nat) demo_heap [0; 0; 0; 0]
                   _ _ _ _));
    [reflexivity | lia | lia | cbn; lia].
Defined.

Lemma random_same_row_twice_witness :
  run_all (L := sample_library) 0
    [random (L := sample_library) 1 2; random (L := sample_library) 1 3]
    demo_worker demo_heap_top =
    (Done tt, with_rng demo_worker 2%nat,
     put_counter 0 {| typ := c_int; value := wrap c_int (2147483647 + 2); lock := None |}
       (put_block 0 (list_inserts (Z.to_nat (1 * 2)) [2; 3] [0; 0; 0; 0]) demo_heap_top))
  /\ get_row 2 1 (list_inserts (Z.to_nat (1 * 2)) [2; 3] [0; 0; 0; 0]) = [2; 3].
Proof.
  refine (random_same_row_twice (L := sample_library)
            (ZipfContract0 := sample_zipf_contract) 0%nat 1 2 3 demo_worker demo_heap_top
            0%nat 0%nat 2 2 [0; 0; 0; 0]
            {| typ := c_int; value := 2147483647; lock := None |}
            [1; 2] 1%nat [2; 3] 2%nat _ _ _ _ _ _ _ _ _);
    try reflexivity; lia.
Defined.

Lemma initializers_share_counter_witness :
  exists w' h',
    run_all (L := sample_library) 0
      [random_init (0%nat, (2, 2)) 0%nat; counter_init 1;
       random (L := sample_library) 1 2]
      (fresh_worker (L := sample_library) 0%nat) demo_heap2 = (Done tt, w', h')
    /\ w_globals w' = installed 1 0 2 2 2
    /\ counters h' !! 1%nat =
       Some {| typ := c_ubyte; value := wrap c_ubyte (255 + 1); lock := None |}
    /\ counters h' !! 0%nat = counters demo_heap2 !! 0%nat
    /\ blocks h' !! 0%nat = Some (list_inserts (Z.to_nat (1 * 2)) [1; 2] [0; 0; 0; 0]).
Proof.
  refine (initializers_share_counter (L := sample_library)
            (ZipfContract0 := sample_zipf_contract) 0%nat 1 2
            (fresh_worker (L := sample_library) 0%nat) demo_heap2 0%nat 1%nat 0%nat 2 2
            [0; 0; 0; 0] {| typ := c_ubyte; value := 255; lock := None |} [1; 2] 1%nat
            _ _ _ _ _ _ _ _ _);
    try reflexivity; lia.
Defined.

Lemma counter_nolock_keeps_one_witness :
  exists cell,
    counters (shared demo_nolock_final) !! 0%nat = Some cell
    /\ 0 <= value cell <= 0 + Z.of_nat (calls demo_nolock_pool)
    /\ (finished demo_nolock_final = true ->
        (0 < calls demo_nolock_pool)%nat -> 0 + 1 <= value cell).
Proof.
  refine (counter_nolock_keeps_one (L := sample_library) demo_nolock_pool 0%nat c_int 0
            demo_heap _ _ _ [0; 0; 0; 0; 0; 1; 1; 1; 1; 1]%nat demo_nolock_final _);
    [reflexivity
    | unfold in_range, c_min, c_max, half_range; simpl; lia
    | unfold c_max, half_range, calls, demo_nolock_pool; simpl; lia
    | vm_compute; reflexivity].
Defined.

Lemma random_concurrent_witness :
  counters (shared demo_random_final) !! 0%nat =
    Some {| typ := c_int; value := wrap c_int (0 + Z.of_nat (calls demo_random_pool));
            lock := None |}
  /\ (0 + Z.of_nat (calls demo_random_pool) <= c_max c_int ->
      wrap c_int (0 + Z.of_nat (calls demo_random_pool))
      = 0 + Z.of_nat (calls demo_random_pool))
  /\ exists l',
       blocks (shared demo_random_final) !! 0%nat = Some l'
       /\ length l' = length [0; 0; 0; 0]
       /\ forall w t, w ∈ demo_random_pool -> t ∈ snd w -> filled 2 (fst t) l'.
Proof.
  refine (proj1 (random_concurrent (L := sample_library)
                   (ZipfContract0 := sample_zipf_contract) demo_random_pool
                   0%nat 0%nat 2 2 c_int 0 demo_heap [0; 0; 0; 0] _ _ _ _ _ _ _
                   demo_random_sched demo_random_final _) _);
    try (vm_compute; reflexivity); try lia.
  - unfold in_range, c_min, c_max, half_range; simpl; lia.
  - repeat constructor; cbn; try lia; intros g; eexists _, _; reflexivity.
Defined.

Lemma random_concurrent_rows_witness :
  exists l',
    blocks (shared demo_random_final) !! 0%nat = Some l'
    /\ (forall w, w ∈ demo_random_pool ->
          fst <$> draws (L := sample_library) 2 (fst w) (snd w) = fst <$> snd w)
    /\ (forall w t, w ∈ demo_random_pool ->
          t ∈ draws (L := sample_library) 2 (fst w) (snd w) ->
          get_row 2 (fst t) l' = snd t)
    /\ (forall i, 0 <= i -> i ∉ pool_rows demo_random_pool ->
          get_row 2 i l' = get_row 2 i [0; 0; 0; 0]).
Proof.
  refine (random_concurrent_rows (L := sample_library)
            (ZipfContract0 := sample_zipf_contract) demo_random_pool
            0%nat 0%nat 2 2 c_int 0 demo_heap [0; 0; 0; 0] _ _ _ _ _ _ _
            demo_random_sched demo_random_final _ _);
    try (vm_compute; reflexivity); try lia.
  - repeat constructor; cbn; try lia; intros g; eexists _, _; reflexivity.
  - refine (bool_decide_unpack _ _). vm_compute. reflexivity.
Defined.

Lemma random_schedule_independent_witness :
  blocks (shared demo_random_final) !! 0%nat = blocks (shared demo_random_final2) !! 0%nat
  /\ counters (shared demo_random_final) !! 0%nat
     = counters (shared demo_random_final2) !! 0%nat.
Proof.
  refine (random_schedule_independent (L := sample_library)
            (ZipfContract0 := sample_zipf_contract) demo_random_pool
            0%nat 0%nat 2 2 c_int 0 demo_heap [0; 0; 0; 0] _ _ _ _ _ _ _
            demo_random_sched demo_random_sched2
            demo_random_final demo_random_final2 _ _ _ _);
    try (vm_compute; reflexivity); try lia.
  - repeat constructor; cbn; try lia; intros g; eexists _, _; reflexivity.
  - refine (bool_decide_unpack _ _). vm_compute. reflexivity.
Defined.

Lemma random_writes_before_lock_witness :
  run (L := sample_library) 0 (random (L := sample_library) 1 2) demo_worker
    (put_counter 0 {| typ := c_int; value := 4; lock := Some (1%nat, 0%nat) |} demo_heap) =
    (Stuck, with_rng demo_worker 1%nat,
     put_block 0 (list_inserts (Z.to_nat (1 * 2)) [1; 2] [0; 0; 0; 0])
       (put_counter 0 {| typ := c_int; value := 4; lock := Some (1%nat, 0%nat) |} demo_heap))
  /\ counters (put_block 0 (list_inserts (Z.to_nat (1 * 2)) [1; 2] [0; 0; 0; 0])
                 (put_counter 0
                     {| typ := c_int; value := 4; lock := Some (1%nat, 0%nat) |} demo_heap))
       !! 0%nat
     = Some {| typ := c_int; value := 4; lock := Some (1%nat, 0%nat) |}.
Proof.
  refine (random_writes_before_lock (L := sample_library)
            (ZipfContract0 := sample_zipf_contract) 0%nat 1 2 demo_worker
            (put_counter 0 {| typ := c_int; value := 4; lock := Some (1%nat, 0%nat) |} demo_heap)
            0%nat 0%nat 2 2 [0; 0; 0; 0] {| typ := c_int; value := 4; lock := Some (1%nat, 0%nat) |}
            1%nat 0%nat [1; 2] 1%nat _ _ _ _ _ _ _);
    try reflexivity; lia.
Defined.

Lemma random_init_infers_rows_witness :
  run (L := sample_library) 0 (random_init (0%nat, (-1, 2)) 0%nat)
    (fresh_worker (L := sample_library) 0%nat) demo_heap =
    (Done tt,
     {| w_globals := installed 0 0 (Z.of_nat (length [0; 0; 0; 0]) / 2) 2 2;
        w_rng := (0%nat : @rng sample_library) |}, demo_heap)
  /\ run (L := sample_library) 0 (random_init (0%nat, (-1, 2)) 0%nat)
       (fresh_worker (L := sample_library) 0%nat) demo_heap =
     run (L := sample_library) 0
       (random_init (0%nat, (Z.of_nat (length [0; 0; 0; 0]) / 2, 2)) 0%nat)
       (fresh_worker (L := sample_library) 0%nat) demo_heap.
Proof.
  refine (random_init_infers_rows (L := sample_library) 0%nat 0%nat 2 0%nat
            (fresh_worker (L := sample_library) 0%nat) demo_heap [0; 0; 0; 0] _ _ _);
    [reflexivity | lia | reflexivity].
Defined.

Lemma random_init_open_columns_witness :
  run (L := sample_library) 0 (random_init (0%nat, (2, -1)) 0%nat)
    (fresh_worker (L := sample_library) 0%nat) demo_heap =
    (Done tt,
     {| w_globals := installed 0 0 2 (Z.of_nat (length [0; 0; 0; 0]) / 2) (-1);
        w_rng := (0%nat : @rng sample_library) |}, demo_heap)
  /\ forall me' idx par w' h',
       w_globals w' = installed 0 0 2 (Z.of_nat (length [0; 0; 0; 0]) / 2) (-1) ->
       exists e g',
         run (L := sample_library) me' (random idx par) w' h' =
         (Raised e, with_rng w' g', h').
Proof.
  refine (random_init_open_columns (L := sample_library)
            (ZipfContract0 := sample_zipf_contract) 0%nat 0%nat 2 0%nat
            (fresh_worker (L := sample_library) 0%nat) demo_heap [0; 0; 0; 0] _ _ _);
    [reflexivity | lia | reflexivity].
Defined.
